(** * c-list: a doubly-linked list with a shared cursor (src/src/list.c)

    Shallow embedding of the list engine of [list.c] / [list.h] over an
    explicit memory: the [list_element_t] objects live in a finite map from
    addresses to records, the payload bytes in a second finite map, and the
    [list_t] instance is a record.  Every public function of [list.c] is a
    computation in a small state-and-failure monad; [None] stands for
    undefined behaviour of the C program (a failed [assert], a dereference of
    a dangling or null pointer, an invalid [free], a semaphore that would
    block for ever) or for a loop that does not terminate. *)

From Stdlib Require Import ZArith Lia.
From stdpp Require Import base option list gmap fin_maps sorting strings.

Local Open Scope Z_scope.

(** ** Data model *)

(** Pointers are addresses; [NULL] is address 0. *)
Abbreviation NULL := 0%Z (only parsing).

(** [size_t] is 64 bits wide: [count++] and [count--] wrap around. *)
Definition SIZE_MAX : Z := 18446744073709551615.
Definition size_wrap (z : Z) : Z := z mod (SIZE_MAX + 1).

(** [list_element_t] of list.h: [prev], [next], [e]. *)
Record list_element_t := mk_element {
  elt_prev : Z;
  elt_next : Z;
  elt_e : Z
}.

(** Payload memory: the byte blocks an element pointer can refer to (the
    caller's buffers and the copies made in [alloc] mode), by base address. *)
Abbreviation bytes := (list Byte.byte).

(** The [sort] callback of [list_t], a function pointer taking the list and
    two element pointers and returning [bool].  The callback runs while the semaphore is held and may not re-enter the list; what it
    returns is a function of the payload memory it can read and of the two
    element pointers it receives. *)
Definition sort_t : Type := gmap Z bytes → Z → Z → bool.

(** [list_t] of list.h: [first], [last], [curr], [count], [alloc], [sort],
    [sem] (the value of the semaphore). *)
Record list_t := mk_list {
  l_first : Z;
  l_last : Z;
  l_curr : Z;
  l_count : Z;
  l_alloc : bool;
  l_sort : option sort_t;
  l_sem : Z
}.

(** The program state: the live [list_element_t] objects, the live payload
    blocks, and the list instance. *)
Record state := mk_state {
  heap : gmap Z list_element_t;
  mem : gmap Z bytes;
  lst : list_t
}.

(** What the allocator answers to the (at most two) [malloc] calls of
    [list_create_element]: the address for the [list_element_t] and the
    address for the payload copy; [NULL] is a failed allocation. *)
Record mallocs := mk_mallocs {
  m_node : Z;
  m_copy : Z
}.

(** ** The monad of list operations *)

Definition M (A : Type) : Type := state → option (A * state).

Global Instance M_ret : MRet M := λ A x s, Some (x, s).
Global Instance M_bind : MBind M := λ A B f m s,
  match m s with
  | Some (x, s') => f x s'
  | None => None
  end.

Definition undefined {A} : M A := λ _, None.

Definition get_list : M list_t := λ s, Some (lst s, s).
Definition put_list (l : list_t) : M unit :=
  λ s, Some (tt, mk_state (heap s) (mem s) l).
Definition get_heap : M (gmap Z list_element_t) := λ s, Some (heap s, s).
Definition put_heap (h : gmap Z list_element_t) : M unit :=
  λ s, Some (tt, mk_state h (mem s) (lst s)).
Definition get_mem : M (gmap Z bytes) := λ s, Some (mem s, s).
Definition put_mem (m : gmap Z bytes) : M unit :=
  λ s, Some (tt, mk_state (heap s) m (lst s)).

(** [assert(c)] *)
Definition assert (c : bool) : M unit := if c then mret tt else undefined.

(** Reading [p->...]: the object at [p] must be live. *)
Definition load (p : Z) : M list_element_t :=
  h ← get_heap;
  match h !! p with
  | Some x => mret x
  | None => undefined
  end.

(** [p->prev = v], [p->next = v] *)
Definition store_prev (p v : Z) : M unit :=
  x ← load p; h ← get_heap;
  put_heap (<[p := mk_element v (elt_next x) (elt_e x)]> h).
Definition store_next (p v : Z) : M unit :=
  x ← load p; h ← get_heap;
  put_heap (<[p := mk_element (elt_prev x) v (elt_e x)]> h).
Definition store_e (p v : Z) : M unit :=
  x ← load p; h ← get_heap;
  put_heap (<[p := mk_element (elt_prev x) (elt_next x) v]> h).

(** Assignments to the fields of [*list]. *)
Definition set_first (v : Z) : M unit :=
  l ← get_list;
  put_list (mk_list v (l_last l) (l_curr l) (l_count l) (l_alloc l) (l_sort l) (l_sem l)).
Definition set_last (v : Z) : M unit :=
  l ← get_list;
  put_list (mk_list (l_first l) v (l_curr l) (l_count l) (l_alloc l) (l_sort l) (l_sem l)).
Definition set_curr (v : Z) : M unit :=
  l ← get_list;
  put_list (mk_list (l_first l) (l_last l) v (l_count l) (l_alloc l) (l_sort l) (l_sem l)).
Definition set_count (v : Z) : M unit :=
  l ← get_list;
  put_list (mk_list (l_first l) (l_last l) (l_curr l) v (l_alloc l) (l_sort l) (l_sem l)).
Definition set_sem (v : Z) : M unit :=
  l ← get_list;
  put_list (mk_list (l_first l) (l_last l) (l_curr l) (l_count l) (l_alloc l) (l_sort l) v).

(** [list->count++], [list->count--] on a [size_t]. *)
Definition count_incr : M unit := l ← get_list; set_count (size_wrap (l_count l + 1)).
Definition count_decr : M unit := l ← get_list; set_count (size_wrap (l_count l - 1)).

(** [sem_wait] takes the semaphore (with a single thread, waiting on a
    semaphore at 0 never returns); [sem_post] gives it back. *)
Definition sem_wait : M unit :=
  l ← get_list;
  if decide (0 < l_sem l) then set_sem (l_sem l - 1) else undefined.
Definition sem_post : M unit := l ← get_list; set_sem (l_sem l + 1).

(** The allocator's contract: a successful [malloc] returns a non-null
    address that fits a pointer and is not the address of a live object. *)
Definition fresh (p : Z) (s : state) : Prop :=
  0 < p ≤ SIZE_MAX ∧ heap s !! p = None ∧ mem s !! p = None.

Global Instance fresh_dec p s : Decision (fresh p s) :=
  _ : Decision (0 < p ≤ SIZE_MAX ∧ heap s !! p = None ∧ mem s !! p = None).

(** [malloc(sizeof(list_element_t))] followed by [memset(.., 0, ..)], when
    the allocator answers [p]. *)
Definition malloc_element (p : Z) : M Z :=
  if decide (p = NULL) then mret NULL
  else
    s ← (λ s, Some (s, s)) : M state;
    if decide (fresh p s) then
      h ← get_heap; put_heap (<[p := mk_element NULL NULL NULL]> h);; mret p
    else undefined.

(** [malloc(size)] when the allocator answers [q]: a block of [size]
    bytes (of unspecified content, here zeroes). *)
Definition malloc_block (q : Z) (size : Z) : M Z :=
  if decide (q = NULL) then mret NULL
  else
    s ← (λ s, Some (s, s)) : M state;
    if decide (fresh q s) then
      m ← get_mem; put_mem (<[q := replicate (Z.to_nat size) Byte.x00]> m);; mret q
    else undefined.

(** [free(p)] of a [list_element_t] and of a payload block. *)
Definition free_element (p : Z) : M unit :=
  h ← get_heap;
  match h !! p with
  | Some _ => put_heap (delete p h)
  | None => undefined
  end.
Definition free_block (q : Z) : M unit :=
  m ← get_mem;
  match m !! q with
  | Some _ => put_mem (delete q m)
  | None => undefined
  end.

(** [memcpy(dst, src, size)] between payload blocks: the two blocks must
    not overlap, [size] bytes must be readable at [src] and writable at
    [dst]. *)
Definition memcpy (dst src : Z) (size : Z) : M unit :=
  m ← get_mem;
  if decide (dst = src) then undefined
  else
    match m !! src, m !! dst with
    | Some from, Some to =>
        if decide (0 ≤ size ≤ Z.of_nat (length from) ∧ size ≤ Z.of_nat (length to)) then
          put_mem (<[dst := take (Z.to_nat size) from ++ drop (Z.to_nat size) to]> m)
        else undefined
    | _, _ => undefined
    end.

(** ** The functions of list.c *)

(** [list_create]: [None] is the [NULL] result of a failed allocation.
    [m0] is the payload memory of the caller at the time of the call and [p]
    the allocator's answer for the [list_t]. *)
Definition list_create (m0 : gmap Z bytes) (alloc : bool) (sort : option sort_t)
    (p : Z) : option state :=
  if decide (p = NULL) then None
  else Some (mk_state ∅ m0 (mk_list NULL NULL NULL 0 alloc sort 1)).

(** [list_create_element] *)
Definition list_create_element (e : Z) (size : Z) (m : mallocs) : M Z :=
  assert (bool_decide (e ≠ NULL));;
  list_element ← malloc_element (m_node m);
  if decide (list_element = NULL) then mret NULL
  else
    l ← get_list;
    if l_alloc l then
      q ← malloc_block (m_copy m) size;
      store_e list_element q;;
      if decide (q = NULL) then
        free_element list_element;; mret NULL
      else
        memcpy q e size;; mret list_element
    else
      store_e list_element e;;
      mret list_element.

(** The walk of [list_add] when a [sort] callback is set: the body of the
    [while (NULL != tmp)] loop, started at [tmp].  The result tells whether
    the new element was linked in before some element ([goto ADDED]) or the
    end of the list was reached.  [fuel] bounds the number of iterations. *)
Fixpoint list_add_walk (fuel : nat) (sort : sort_t) (list_element e tmp : Z)
    : M bool :=
  match fuel with
  | O => undefined
  | S fuel' =>
      if decide (tmp = NULL) then mret false
      else
        t ← load tmp;
        m ← get_mem;
        if negb (sort m (elt_e t) e) then
          (if decide (elt_prev t = NULL) then set_first list_element
           else
             store_next (elt_prev t) list_element;;
             store_prev list_element (elt_prev t));;
          store_next list_element tmp;;
          store_prev tmp list_element;;
          mret true
        else list_add_walk fuel' sort list_element e (elt_next t)
  end.

(** The tail link-in shared by [list_add] and [list_add_tail]:
    [list->last->next = list_element; list_element->prev = list->last;
     list->last = list_element]. *)
Definition link_last (list_element : Z) : M unit :=
  l ← get_list;
  store_next (l_last l) list_element;;
  store_prev list_element (l_last l);;
  set_last list_element.

(** [list_add]: the result is the [int] the C function returns. *)
Definition list_add (e : Z) (size : Z) (m : mallocs) : M Z :=
  assert (bool_decide (e ≠ NULL));;
  list_element ← list_create_element e size m;
  if decide (list_element = NULL) then mret (-1)
  else
    sem_wait;;
    l ← get_list;
    (if decide (l_first l = NULL) then
       set_curr list_element;; set_first list_element;; set_last list_element
     else
       match l_sort l with
       | Some sort =>
           h ← get_heap;
           added ← list_add_walk (S (base.size h)) sort list_element e (l_first l);
           if added : bool then mret tt else link_last list_element
       | None => link_last list_element
       end : M unit);;
    count_incr;;
    sem_post;;
    mret 0.

(** [list_add_head] *)
Definition list_add_head (e : Z) (size : Z) (m : mallocs) : M Z :=
  assert (bool_decide (e ≠ NULL));;
  list_element ← list_create_element e size m;
  if decide (list_element = NULL) then mret (-1)
  else
    sem_wait;;
    l ← get_list;
    (if decide (l_first l = NULL) then
       set_curr list_element;; set_last list_element;; set_first list_element
     else
       store_prev (l_first l) list_element;;
       store_next list_element (l_first l);;
       set_first list_element);;
    count_incr;;
    sem_post;;
    mret 0.

(** [list_add_tail] *)
Definition list_add_tail (e : Z) (size : Z) (m : mallocs) : M Z :=
  assert (bool_decide (e ≠ NULL));;
  list_element ← list_create_element e size m;
  if decide (list_element = NULL) then mret (-1)
  else
    sem_wait;;
    l ← get_list;
    (if decide (l_last l = NULL) then
       set_curr list_element;; set_first list_element;; set_last list_element
     else link_last list_element);;
    count_incr;;
    sem_post;;
    mret 0.

(** [list_get_count] *)
Definition list_get_count : M Z :=
  sem_wait;;
  l ← get_list;
  sem_post;;
  mret (l_count l).

(** The tail common to the four cursor functions:
    [if (NULL != list->curr) e = list->curr->e]. *)
Definition curr_element : M Z :=
  l ← get_list;
  if decide (l_curr l ≠ NULL) then c ← load (l_curr l); mret (elt_e c)
  else mret NULL.

(** [list_get_head] *)
Definition list_get_head : M Z :=
  sem_wait;;
  l ← get_list;
  set_curr (l_first l);;
  e ← curr_element;
  sem_post;;
  mret e.

(** [list_get_tail] *)
Definition list_get_tail : M Z :=
  sem_wait;;
  l ← get_list;
  set_curr (l_last l);;
  e ← curr_element;
  sem_post;;
  mret e.

(** [list_get_next] *)
Definition list_get_next : M Z :=
  sem_wait;;
  l ← get_list;
  (if decide (l_curr l ≠ NULL) then c ← load (l_curr l); set_curr (elt_next c)
   else mret tt);;
  e ← curr_element;
  sem_post;;
  mret e.

(** [list_get_prev] *)
Definition list_get_prev : M Z :=
  sem_wait;;
  l ← get_list;
  (if decide (l_curr l ≠ NULL) then c ← load (l_curr l); set_curr (elt_prev c)
   else mret tt);;
  e ← curr_element;
  sem_post;;
  mret e.

(** The search loop of [list_remove], started at [tmp]: the first element
    whose [e] field is the pointer [e], or [NULL]. *)
Fixpoint list_remove_search (fuel : nat) (e tmp : Z) : M Z :=
  match fuel with
  | O => undefined
  | S fuel' =>
      if decide (tmp = NULL) then mret NULL
      else
        t ← load tmp;
        if decide (elt_e t = e) then mret tmp
        else list_remove_search fuel' e (elt_next t)
  end.

(** [list_remove]: the result is the [void *] the C function returns.
    Each statement reads the fields of [*tmp] as they are when it runs. *)
Definition list_remove (e : Z) : M Z :=
  sem_wait;;
  l ← get_list;
  h ← get_heap;
  tmp ← list_remove_search (S (size h)) e (l_first l);
  if decide (tmp = NULL) then sem_post;; mret NULL
  else
    (l ← get_list; t ← load tmp;
     if decide (tmp = l_first l) then set_first (elt_next t) else mret tt);;
    (l ← get_list; t ← load tmp;
     if decide (tmp = l_last l) then set_last (elt_prev t) else mret tt);;
    (l ← get_list; t ← load tmp;
     if decide (tmp = l_curr l) then set_curr (elt_prev t) else mret tt);;
    (t ← load tmp;
     if decide (elt_prev t ≠ NULL) then store_next (elt_prev t) (elt_next t)
     else mret tt);;
    (t ← load tmp;
     if decide (elt_next t ≠ NULL) then store_prev (elt_next t) (elt_prev t)
     else mret tt);;
    count_decr;;
    t ← load tmp;
    ret ← mret (elt_next t);
    l ← get_list;
    t ← load tmp;
    (if l_alloc l && bool_decide (elt_e t ≠ NULL) then free_block (elt_e t)
     else mret tt);;
    free_element tmp;;
    sem_post;;
    mret ret.

(** [list_remove_head] *)
Definition list_remove_head : M Z :=
  sem_wait;;
  l ← get_list;
  (if bool_decide (l_curr l ≠ NULL) && bool_decide (l_curr l = l_first l) then
     f ← load (l_first l); set_curr (elt_next f)
   else mret tt);;
  l ← get_list;
  e ← (if decide (l_first l ≠ NULL) then f ← load (l_first l); mret (elt_e f)
       else mret NULL);
  (if decide (l_first l ≠ NULL) then
     tmp ← mret (l_first l);
     f ← load (l_first l);
     (if decide (elt_next f ≠ NULL) then
        store_prev (elt_next f) NULL;;
        set_first (elt_next f)
      else set_last NULL;; set_first NULL);;
     count_decr;;
     free_element tmp
   else mret tt);;
  sem_post;;
  mret e.

(** [list_remove_tail] *)
Definition list_remove_tail : M Z :=
  sem_wait;;
  l ← get_list;
  (if bool_decide (l_curr l ≠ NULL) && bool_decide (l_curr l = l_last l) then
     t ← load (l_last l); set_curr (elt_prev t)
   else mret tt);;
  l ← get_list;
  e ← (if decide (l_last l ≠ NULL) then t ← load (l_last l); mret (elt_e t)
       else mret NULL);
  (if decide (l_last l ≠ NULL) then
     tmp ← mret (l_last l);
     t ← load (l_last l);
     (if decide (elt_prev t ≠ NULL) then
        store_next (elt_prev t) NULL;;
        set_last (elt_prev t)
      else set_last NULL;; set_first NULL);;
     count_decr;;
     free_element tmp
   else mret tt);;
  sem_post;;
  mret e.

(** The loop of [list_release] over the elements, started at
    [list_element]. *)
Fixpoint list_release_loop (fuel : nat) (list_element : Z) : M unit :=
  match fuel with
  | O => undefined
  | S fuel' =>
      if decide (list_element = NULL) then mret tt
      else
        tmp ← load list_element;
        l ← get_list;
        (if l_alloc l && bool_decide (elt_e tmp ≠ NULL) then free_block (elt_e tmp)
         else mret tt);;
        free_element list_element;;
        list_release_loop fuel' (elt_next tmp)
  end.

(** [list_release] of a non-null list: what is left of the two memories
    once the [list_t] itself is freed. *)
Definition list_release (s : state) : option (gmap Z list_element_t * gmap Z bytes) :=
  match (sem_wait;; h ← get_heap; l ← get_list;
         list_release_loop (S (size h)) (l_first l);; sem_post) s with
  | Some (_, s') => Some (heap s', mem s')
  | None => None
  end.

(** ** The chain a state holds *)

(** Walking [next] from [p] until [NULL]: the elements met, each with its
    address and its [e] field. *)
Fixpoint walk (fuel : nat) (h : gmap Z list_element_t) (p : Z)
    : option (list (Z * Z)) :=
  match fuel with
  | O => None
  | S fuel' =>
      if decide (p = NULL) then Some []
      else
        match h !! p with
        | Some x => cons (p, elt_e x) <$> walk fuel' h (elt_next x)
        | None => None
        end
  end.

(** The chain of a state: the walk from [list->first]. *)
Definition chain (s : state) : option (list (Z * Z)) :=
  walk (S (size (heap s))) (heap s) (l_first (lst s)).

(** Address of the first element of a chain ([d] if there is none), and of
    its last element. *)
Definition hd_addr (ns : list (Z * Z)) (d : Z) : Z :=
  match ns with
  | [] => d
  | n :: _ => n.1
  end.

Fixpoint last_addr (d : Z) (ns : list (Z * Z)) : Z :=
  match ns with
  | [] => d
  | n :: ns' => last_addr n.1 ns'
  end.

(** Payload of the first element of a chain ([NULL] if there is none), and
    of its last element. *)
Definition hd_payload (ns : list (Z * Z)) : Z :=
  match ns with
  | [] => NULL
  | n :: _ => n.2
  end.

Fixpoint last_payload_from (d : Z) (ns : list (Z * Z)) : Z :=
  match ns with
  | [] => d
  | n :: ns' => last_payload_from n.2 ns'
  end.

Definition last_payload (ns : list (Z * Z)) : Z := last_payload_from NULL ns.

(** The doubly-linked objects of a chain [ns] of (address, payload) pairs:
    the element before the first one is [pv], the one after the last one is
    [nx]. *)
Fixpoint build (pv : Z) (ns : list (Z * Z)) (nx : Z) : gmap Z list_element_t :=
  match ns with
  | [] => ∅
  | n :: ns' => <[n.1 := mk_element pv (hd_addr ns' nx) n.2]> (build n.1 ns' nx)
  end.

(** The state that holds the chain [ns], with cursor [cur], flags [al] and
    [so], payload memory [m] and a free semaphore. *)
Definition conc (ns : list (Z * Z)) (cur : Z) (al : bool) (so : option sort_t)
    (m : gmap Z bytes) : state :=
  mk_state (build NULL ns NULL) m
    (mk_list (hd_addr ns NULL) (last_addr NULL ns) cur (Z.of_nat (length ns)) al so 1).

(** [repr s ns]: the state [s] is a well-formed list holding exactly the
    chain [ns]: its objects are those of [ns] and no other, doubly linked in
    that order; [first], [last] and [count] agree with [ns]; the cursor is
    [NULL] or an element of the chain; the semaphore is free; no payload is
    [NULL]; in [alloc] mode the payloads are distinct live blocks. *)
Definition repr (s : state) (ns : list (Z * Z)) : Prop :=
  s = conc ns (l_curr (lst s)) (l_alloc (lst s)) (l_sort (lst s)) (mem s) ∧
  NoDup ns.*1 ∧
  Forall (λ a, 0 < a ≤ SIZE_MAX) ns.*1 ∧
  Forall (λ q, q ≠ NULL) ns.*2 ∧
  (l_curr (lst s) = NULL ∨ l_curr (lst s) ∈ ns.*1) ∧
  (l_alloc (lst s) = true → NoDup ns.*2 ∧ Forall (λ q, is_Some (mem s !! q)) ns.*2).

Definition wf (s : state) : Prop := ∃ ns, repr s ns.

(** ** What a call needs from its environment *)

(** The allocations of an insertion succeed: the allocator answers a fresh
    address for the element and, in [alloc] mode, a second fresh address for
    the copy, and [size] bytes can be read at [e]. *)
Definition alloc_ok (s : state) (e size : Z) (m : mallocs) : Prop :=
  fresh (m_node m) s ∧
  (l_alloc (lst s) = true →
     fresh (m_copy m) s ∧ m_copy m ≠ m_node m ∧
     ∃ src, mem s !! e = Some src ∧ 0 ≤ size ≤ Z.of_nat (length src)).

(** The payload pointer stored in the new element, and the payload memory
    after the insertion. *)
Definition new_payload (s : state) (e : Z) (m : mallocs) : Z :=
  if l_alloc (lst s) then m_copy m else e.

Definition new_mem (s : state) (e size : Z) (m : mallocs) : gmap Z bytes :=
  if l_alloc (lst s) then
    <[m_copy m := take (Z.to_nat size) (default [] (mem s !! e))]> (mem s)
  else mem s.

(** ** Sequences of calls *)

(** The calls a client can make on a list. *)
Inductive call :=
  | Add (e size : Z) (m : mallocs)
  | AddHead (e size : Z) (m : mallocs)
  | AddTail (e size : Z) (m : mallocs)
  | GetCount
  | GetHead
  | GetTail
  | GetNext
  | GetPrev
  | Remove (e : Z)
  | RemoveHead
  | RemoveTail.

Definition run_call (c : call) : M Z :=
  match c with
  | Add e size m => list_add e size m
  | AddHead e size m => list_add_head e size m
  | AddTail e size m => list_add_tail e size m
  | GetCount => list_get_count
  | GetHead => list_get_head
  | GetTail => list_get_tail
  | GetNext => list_get_next
  | GetPrev => list_get_prev
  | Remove e => list_remove e
  | RemoveHead => list_remove_head
  | RemoveTail => list_remove_tail
  end.

(** The states a client can bring a list to: from [list_create], by calls
    that return, and by the client's own changes [m'] to the payload memory
    between two calls, which in [alloc] mode leave the list's copies
    allocated. *)
Inductive reachable : state → Prop :=
  | reach_create m0 alloc sort p s :
      list_create m0 alloc sort p = Some s → reachable s
  | reach_call s c r s' :
      reachable s → run_call c s = Some (r, s') → reachable s'
  | reach_client s m' :
      reachable s →
      (l_alloc (lst s) = true →
         ∀ ns q, chain s = Some ns → q ∈ ns.*2 → is_Some (m' !! q)) →
      reachable (mk_state (heap s) m' (lst s)).

(** ** The insertion order of [list_add], in the words of its contract *)

(** The new element goes immediately before the first element that the
    callback does not keep in front of it ([keep] is false on its payload),
    and at the end when there is none. *)
Fixpoint insert_before (keep : Z → bool) (new : Z * Z) (ns : list (Z * Z))
    : list (Z * Z) :=
  match ns with
  | [] => [new]
  | n :: ns' =>
      if keep n.2 then n :: insert_before keep new ns' else new :: n :: ns'
  end.

(** The chain after a successful [list_add] on a list that holds [ns]. *)
Definition add_chain (s : state) (e size : Z) (m : mallocs) (ns : list (Z * Z))
    : list (Z * Z) :=
  match l_sort (lst s) with
  | Some sort =>
      insert_before (λ q, sort (new_mem s e size m) q e)
        (m_node m, new_payload s e m) ns
  | None => ns ++ [(m_node m, new_payload s e m)]
  end.

(** ** Counting the calls that took effect *)

(** The payload pointers a list holds, from head to tail. *)
Definition payloads (s : state) : list Z := (default [] (chain s)).*2.

(** An insertion succeeded when it returned 0. *)
Definition add_succeeded (c : call) (r : Z) : bool :=
  match c with
  | Add _ _ _ | AddHead _ _ _ | AddTail _ _ _ => bool_decide (r = 0)
  | _ => false
  end.

(** A removal, called in state [s], succeeded when there was an element
    for it to remove: [e] was a payload of the list for [list_remove], the
    list was not empty for [list_remove_head] and [list_remove_tail]. *)
Definition remove_succeeded (c : call) (s : state) : bool :=
  match c with
  | Remove e => bool_decide (e ∈ payloads s)
  | RemoveHead | RemoveTail => bool_decide (payloads s ≠ [])
  | _ => false
  end.

(** Running a sequence of calls, counting the successful insertions and
    the successful removals. *)
Fixpoint run_calls (cs : list call) (s : state) (adds removes : Z)
    : option (state * Z * Z) :=
  match cs with
  | [] => Some (s, adds, removes)
  | c :: cs' =>
      match run_call c s with
      | Some (r, s') =>
          run_calls cs' s'
            (adds + (if add_succeeded c r then 1 else 0))
            (removes + (if remove_succeeded c s then 1 else 0))
      | None => None
      end
  end.

(** ** The statements about a list *)

(** [first] is [NULL] exactly when [last] is, exactly when [count] is 0. *)
Definition ends_agree (s : state) : Prop :=
  (l_first (lst s) = NULL ↔ l_last (lst s) = NULL) ∧
  (l_last (lst s) = NULL ↔ l_count (lst s) = 0).

(** The state [s] with its cursor moved to [c]. *)
Definition with_curr (c : Z) (s : state) : state :=
  mk_state (heap s) (mem s)
    (mk_list (l_first (lst s)) (l_last (lst s)) c (l_count (lst s))
       (l_alloc (lst s)) (l_sort (lst s)) (l_sem (lst s))).

(** An allocation of an insertion fails: the allocator answers [NULL] for
    the element, or (in [alloc] mode) serves the element and answers [NULL]
    for the copy. *)
Definition alloc_fails (s : state) (m : mallocs) : Prop :=
  m_node m = NULL ∨
  (l_alloc (lst s) = true ∧ fresh (m_node m) s ∧ m_copy m = NULL).

(** The block at [q] was allocated in [s] and is no longer in [s']. *)
Definition block_freed (s s' : state) (q : Z) : Prop :=
  is_Some (mem s !! q) ∧ mem s' !! q = None.

(** The element at [a] was allocated in [s] and is no longer in [s']. *)
Definition element_freed (s s' : state) (a : Z) : Prop :=
  is_Some (heap s !! a) ∧ heap s' !! a = None.

(** The payload memory [m] without the blocks at the addresses [qs]. *)
Definition delete_all {A} (qs : list Z) (m : gmap Z A) : gmap Z A :=
  foldr delete m qs.

(** A removal [op] frees the payload block [q]: whenever it returns, the
    block is gone. *)
Definition removal_frees (op : M Z) (s : state) (q : Z) : Prop :=
  ∀ r s', op s = Some (r, s') → block_freed s s' q.

(** What a call needs to return: a non-null element pointer for an
    insertion, and an allocator that fails or keeps its contract. *)
Definition call_ok (c : call) (s : state) : Prop :=
  match c with
  | Add e size m | AddHead e size m | AddTail e size m =>
      e ≠ NULL ∧ (alloc_fails s m ∨ alloc_ok s e size m)
  | _ => True
  end.

(** Every call of a sequence started in [s] is made as [call_ok] asks. *)
Fixpoint calls_ok (cs : list call) (s : state) : Prop :=
  match cs with
  | [] => True
  | c :: cs' =>
      call_ok c s ∧ ∀ r s', run_call c s = Some (r, s') → calls_ok cs' s'
  end.

(** ** Example lists *)

(** Three payload pointers of a client, "x", "y" and "z", and the answers
    of the allocator for their elements. *)
Definition ptr_x : Z := 16.
Definition ptr_y : Z := 32.
Definition ptr_z : Z := 48.
Definition node_1 : mallocs := mk_mallocs 4096 0.
Definition node_2 : mallocs := mk_mallocs 8192 0.
Definition node_3 : mallocs := mk_mallocs 12288 0.

(** The results of a sequence of calls, in order. *)
Fixpoint results (cs : list call) (s : state) : option (list Z) :=
  match cs with
  | [] => Some []
  | c :: cs' =>
      match run_call c s with
      | Some (r, s') => cons r <$> results cs' s'
      | None => None
      end
  end.

(** A list created without [sort] callback and without [alloc], on an
    empty payload memory. *)
Definition plain_list : option state := list_create ∅ false None 1024.

(** A list in [alloc] mode holding one element, the copy at address
    [copy_1] of the two bytes the client has at [ptr_x]; the cursor is on
    that element. *)
Definition bytes_x : bytes := [Byte.x78; Byte.x00].
Definition copy_1 : Z := 20480.
Definition owned_node_1 : mallocs := mk_mallocs 4096 copy_1.
Definition owned_one : state :=
  conc [(4096, copy_1)] 4096 true None (<[copy_1 := bytes_x]> {[ptr_x := bytes_x]}).

(** The callback of examples/list_sort.c: [strcmp(curr, e) < 0] on the
    bytes the two pointers refer to (false when a pointer refers to no
    block). *)
Fixpoint bytes_lt (a b : bytes) : bool :=
  match a, b with
  | [], [] => false
  | [], _ :: _ => true
  | _ :: _, [] => false
  | x :: a', y :: b' =>
      if (Byte.to_N x <? Byte.to_N y)%N then true
      else if (Byte.to_N y <? Byte.to_N x)%N then false
      else bytes_lt a' b'
  end.

Definition sort_strcmp : sort_t := λ m curr e,
  match m !! curr, m !! e with
  | Some a, Some b => bytes_lt a b
  | _, _ => false
  end.

(** The client's strings "b", "c" and "a" at [ptr_x], [ptr_y] and [ptr_z],
    and a sorted list that holds "b" and "c", the cursor on "b". *)
Definition strings_bca : gmap Z bytes :=
  <[ptr_z := [Byte.x61; Byte.x00]]>
    (<[ptr_y := [Byte.x63; Byte.x00]]> {[ptr_x := [Byte.x62; Byte.x00]]}).

Definition sorted_bc : state :=
  conc [(4096, ptr_x); (8192, ptr_y)] 4096 false (Some sort_strcmp) strings_bca.

(** The plain list after "x" and "y" were added, the cursor on "x". *)
Definition plain_xy : state :=
  conc [(4096, ptr_x); (8192, ptr_y)] 4096 false None ∅.

(** ** The chain read backwards *)

(** Walking [prev] from [p] until [NULL]: the elements met, each with its
    address and its [e] field. *)
Fixpoint walk_back (fuel : nat) (h : gmap Z list_element_t) (p : Z)
    : option (list (Z * Z)) :=
  match fuel with
  | O => None
  | S fuel' =>
      if decide (p = NULL) then Some []
      else
        match h !! p with
        | Some x => cons (p, elt_e x) <$> walk_back fuel' h (elt_prev x)
        | None => None
        end
  end.

(** The walk from [list->last]. *)
Definition chain_back (s : state) : option (list (Z * Z)) :=
  walk_back (S (size (heap s))) (heap s) (l_last (lst s)).

(** ** Lists kept in order by the callback *)

(** [a] may stand before [b] in a list ordered by the callback [sort] on
    the payload memory [m]: the callback, asked whether the element [b]
    stays in front of a new element [a], answers no. *)
Definition in_order (sort : sort_t) (m : gmap Z bytes) (a b : Z) : Prop :=
  sort m b a = false.

(** ** The example program examples/list_sort.c *)

Module list_sort.

(** The block of a string literal: its characters and the terminating
    NUL. *)
Definition literal (s : string) : bytes :=
  String.list_byte_of_string s ++ [Byte.x00].

(** The C string at the start of a block: the bytes before the first NUL
    ([None] when the block holds no NUL). *)
Fixpoint c_string (b : bytes) : option bytes :=
  match b with
  | [] => None
  | x :: b' => if Byte.eqb x Byte.x00 then Some [] else cons x <$> c_string b'
  end.

(** What [printf("%s\n", str)] writes before the newline. *)
Definition line_at (m : gmap Z bytes) (str : Z) : option string :=
  match m !! str with
  | Some b => String.string_of_list_byte <$> c_string b
  | None => None
  end.

(** [strcmp] on the bytes of two blocks: a negative number, 0 or a
    positive number as the first string is less than, equal to or greater
    than the second, the bytes compared as unsigned characters up to the
    first NUL; [None] when a block ends before the comparison is settled
    (a string without terminator). *)
Fixpoint strcmp (a b : bytes) : option Z :=
  match a, b with
  | x :: a', y :: b' =>
      if (Byte.to_N x <? Byte.to_N y)%N then Some (-1)
      else if (Byte.to_N y <? Byte.to_N x)%N then Some 1
      else if Byte.eqb x Byte.x00 then Some 0
      else strcmp a' b'
  | _, _ => None
  end.

(** [sort]: [strcmp(curr, e) < 0] on the strings at the two pointers
    (false when a pointer refers to no block or to a string without
    terminator, where the C program has no defined behaviour). *)
Definition sort : sort_t := λ m curr e,
  match m !! curr, m !! e with
  | Some a, Some b =>
      match strcmp a b with
      | Some c => bool_decide (c < 0)
      | None => false
      end
  | _, _ => false
  end.

(** The loop of [main] that prints the elements, entered with the result
    [str] of [list_get_head]: [printf("%s\n", str)], then
    [str = list_get_next(list)], while [str] is not [NULL].  [out] is the
    lines written so far. *)
Fixpoint print_elements (fuel : nat) (str : Z) (out : list string)
    : M (list string) :=
  match fuel with
  | O => undefined
  | S fuel' =>
      if decide (str = NULL) then mret out
      else
        m ← get_mem;
        match line_at m str with
        | Some line =>
            str' ← list_get_next;
            print_elements fuel' str' (out ++ [line])
        | None => undefined
        end
  end.

(** What a run of the program leaves: its exit status, the lines it wrote
    to the standard output, the [list_element_t] objects still allocated
    and the payload memory. *)
Record outcome := mk_outcome {
  status : Z;
  printed : list string;
  elements_left : gmap Z list_element_t;
  memory : gmap Z bytes
}.

Definition EXIT_FAILURE : Z := 1.

(** The size of a [char] pointer. *)
Definition sizeof_pointer : Z := 8.

(** [main]: [m0] is the memory that holds the three string literals, at
    the addresses [element1], [element2] and [element3]; [p] is the
    allocator's answer for the [list_t] and [m1], [m2], [m3] its answers for
    the three insertions, whose results [main] ignores. *)
Definition main (m0 : gmap Z bytes) (element1 element2 element3 : Z)
    (p : Z) (m1 m2 m3 : mallocs) : option outcome :=
  match list_create m0 false (Some sort) p with
  | None =>
      Some (mk_outcome EXIT_FAILURE ["unable to create list instance"%string] ∅ m0)
  | Some s =>
      match (list_add element2 sizeof_pointer m1;;
             list_add element3 sizeof_pointer m2;;
             list_add element1 sizeof_pointer m3;;
             str ← list_get_head;
             h ← get_heap;
             print_elements (S (size h)) str []) s with
      | Some (out, s') =>
          match list_release s' with
          | Some (h, m) => Some (mk_outcome 0 out h m)
          | None => None
          end
      | None => None
      end
  end.

(** The allocator fails, or answers an address that fits a pointer and is
    not in use: not in the memory [m0] and none of [used]. *)
Definition served (m0 : gmap Z bytes) (used : list Z) (a : Z) : Prop :=
  a = NULL ∨ (0 < a ≤ SIZE_MAX ∧ m0 !! a = None ∧ a ∉ used).

End list_sort.

(** ** Further example lists *)

(** The list [owned_one] after a second copy of the client's "x" was added
    at the tail; the copy is at [copy_2]. *)
Definition copy_2 : Z := 24576.
Definition owned_node_2 : mallocs := mk_mallocs 8192 copy_2.
Definition owned_two : state :=
  conc [(4096, copy_1); (8192, copy_2)] 4096 true None
    (<[copy_2 := bytes_x]> (<[copy_1 := bytes_x]> {[ptr_x := bytes_x]})).

(** The list [plain_xy] after its head "x" was removed. *)
Definition plain_y : state := conc [(8192, ptr_y)] 8192 false None ∅.

(** A callback that never keeps an element in front of a new one, and a
    list created with it that holds "x". *)
Definition newest_first : sort_t := λ _ _ _, false.
Definition stack_x : state :=
  conc [(4096, ptr_x)] 4096 false (Some newest_first) ∅.

(** The client's strings "b", "c" and "a" again, in a list created with
    the callback of the example program that holds "b" and "c". *)
Definition sorted_strings : state :=
  conc [(4096, ptr_x); (8192, ptr_y)] 4096 false (Some list_sort.sort) strings_bca.

(** A memory that holds the three string literals of the example
    program. *)
Definition literals : gmap Z bytes :=
  <[256 := list_sort.literal "element1"]>
    (<[272 := list_sort.literal "element2"]>
       {[288 := list_sort.literal "element3"]}).

(** * Properties *)

(** ** The objects of a chain *)

Section build.
Implicit Types (ns la lb : list (Z * Z)) (pv nx a : Z).

Lemma hd_addr_app la lb d : hd_addr (la ++ lb) d = hd_addr la (hd_addr lb d).
Proof. by destruct la. Qed.

Lemma last_addr_app d la lb : last_addr d (la ++ lb) = last_addr (last_addr d la) lb.
Proof. revert d. induction la as [|n la IH]; intros d; simpl; [done|apply IH]. Qed.

Lemma last_addr_snoc d la n : last_addr d (la ++ [n]) = n.1.
Proof. by rewrite last_addr_app. Qed.

Lemma last_addr_elem d ns : ns ≠ [] → last_addr d ns ∈ ns.*1.
Proof.
  revert d. induction ns as [|n ns IH]; intros d Hne; [done|]. simpl.
  destruct ns as [|n' ns]; [simpl; set_solver|].
  apply list_elem_of_further. by apply IH.
Qed.

Lemma build_app pv la lb nx :
  build pv (la ++ lb) nx = build pv la (hd_addr lb nx) ∪ build (last_addr pv la) lb nx.
Proof.
  revert pv. induction la as [|n la IH]; intros pv; simpl.
  - by rewrite (left_id_L ∅ (∪)).
  - by rewrite IH, hd_addr_app, insert_union_l.
Qed.

Lemma lookup_build_None pv ns nx a : a ∉ ns.*1 → build pv ns nx !! a = None.
Proof.
  revert pv. induction ns as [|n ns IH]; intros pv Hn; simpl; [done|].
  rewrite fmap_cons, not_elem_of_cons in Hn. destruct Hn as [Hne Hn].
  rewrite lookup_insert_ne by done. by apply IH.
Qed.


Lemma lookup_build pv la n lb nx :
  n.1 ∉ la.*1 →
  build pv (la ++ n :: lb) nx !! n.1
  = Some (mk_element (last_addr pv la) (hd_addr lb nx) n.2).
Proof.
  intros Hn. rewrite build_app, lookup_union_r by by apply lookup_build_None.
  simpl. by rewrite lookup_insert_eq.
Qed.

Lemma dom_build pv ns nx : dom (build pv ns nx) = list_to_set ns.*1.
Proof.
  revert pv. induction ns as [|n ns IH]; intros pv; simpl.
  - by rewrite dom_empty_L.
  - by rewrite dom_insert_L, IH.
Qed.

Lemma size_build pv ns nx : NoDup ns.*1 → size (build pv ns nx) = length ns.
Proof.
  intros Hnd. rewrite <-size_dom, dom_build, size_list_to_set by done.
  by rewrite length_fmap.
Qed.

End build.

(** ** Symbolic execution of the monad *)

(** [munfold] exposes the state-passing terms of the primitive actions,
    [msimpl] runs them as far as the state is known and settles the tests it
    can decide, [outcome] compares the outcome reached with the one
    stated. *)
Ltac munfold :=
  repeat (progress unfold mbind, M_bind, mret, M_ret, undefined, assert, sem_wait, sem_post,
    count_incr, count_decr, set_first, set_last, set_curr, set_count, set_sem,
    store_prev, store_next, store_e, load, curr_element, link_last,
    free_element, free_block, memcpy, malloc_element, malloc_block,
    get_list, put_list, get_heap, put_heap, get_mem, put_mem in * ).

Ltac dec_step :=
  first
    [ rewrite decide_True by (done || lia)
    | rewrite decide_False by (done || lia)
    | rewrite bool_decide_eq_true_2 by (done || lia)
    | rewrite bool_decide_eq_false_2 by (done || lia) ].

Ltac msimpl :=
  repeat (cbn -[size_wrap Z.of_nat list_add_walk list_remove_search list_release_loop];
          try dec_step).

(** Two outcomes are equal when they agree component by component. *)
Lemma outcome_eq {A} (r r' : A) h h' mm mm' fi fi' la la' cu cu' co co' al al' so so' se se' :
  r = r' → h = h' → mm = mm' → fi = fi' → la = la' → cu = cu' → co = co' →
  al = al' → so = so' → se = se' →
  Some (r, mk_state h mm (mk_list fi la cu co al so se))
  = Some (r', mk_state h' mm' (mk_list fi' la' cu' co' al' so' se')).
Proof. by intros -> -> -> -> -> -> -> -> -> ->. Qed.

Ltac outcome :=
  unfold conc; cbn -[size_wrap Z.of_nat];
  apply outcome_eq; try done; try lia.

(** Equality of two heaps written with [insert], [delete] and [∪]: compare
    them address by address, using the facts [m !! k = None] at hand. *)
Ltac none_facts :=
  repeat match goal with
  | H : ?m !! ?k = None |- context [?m !! ?k] => rewrite H
  end.

Ltac heap_eq :=
  apply map_eq; intros ?i;
  repeat (rewrite ?lookup_insert, ?lookup_delete, ?lookup_union, ?lookup_empty;
          try case_decide; subst; simplify_eq; none_facts; try done).

(** ** Counting elements: [count] never wraps *)

Lemma length_bounded (l : list Z) :
  NoDup l → Forall (λ a, 0 < a ≤ SIZE_MAX) l → Z.of_nat (length l) ≤ SIZE_MAX.
Proof.
  intros Hnd Hall.
  assert (Hsub : l ⊆+ seqZ 1 SIZE_MAX).
  { apply NoDup_submseteq; [done|]. intros x Hx.
    rewrite Forall_forall in Hall. apply Hall in Hx.
    apply elem_of_seqZ. lia. }
  apply submseteq_length in Hsub. rewrite length_seqZ in Hsub.
  assert (0 ≤ SIZE_MAX) by (unfold SIZE_MAX; lia). lia.
Qed.

Lemma size_wrap_small z : 0 ≤ z ≤ SIZE_MAX → size_wrap z = z.
Proof. intros H. unfold size_wrap. apply Z.mod_small. lia. Qed.

(** ** [list_create_element] *)

Lemma list_create_element_ok s e size m :
  e ≠ NULL → alloc_ok s e size m →
  list_create_element e size m s
  = Some (m_node m,
          mk_state (<[m_node m := mk_element NULL NULL (new_payload s e m)]> (heap s))
                   (new_mem s e size m) (lst s)).
Proof.
  intros He [Hn Hc]. destruct s as [h mm [fi la cu co al so se]].
  unfold list_create_element, new_payload, new_mem.
  assert (Hn0 : m_node m ≠ 0) by (destruct Hn; lia).
  simpl in Hc. destruct al.
  - destruct Hc as (Hq & Hne & src & Hsrc & Hsz); [done|].
    assert (Hq0 : m_copy m ≠ 0) by (destruct Hq; lia).
    assert (Hem : e ≠ m_copy m).
    { intros ->. destruct Hq as (_ & _ & Hq). simpl in Hq. congruence. }
    munfold. msimpl.
    rewrite decide_True.
    2:{ destruct Hq as (? & ? & ?). repeat split; simpl in *; try done; try lia.
        by rewrite lookup_insert_ne. }
    msimpl. rewrite lookup_insert_eq. msimpl.
    rewrite lookup_insert_ne, Hsrc, lookup_insert_eq by done.
    rewrite length_replicate. rewrite decide_True by lia. msimpl.
    rewrite insert_insert_eq, insert_insert_eq.
    rewrite drop_ge, app_nil_r by (rewrite length_replicate; lia).
    done.
  - munfold. msimpl. rewrite lookup_insert_eq. msimpl. by rewrite insert_insert_eq.
Qed.

Lemma list_create_element_node_fails s e size m :
  e ≠ NULL → m_node m = NULL → list_create_element e size m s = Some (NULL, s).
Proof.
  intros He Hn. unfold list_create_element. munfold. msimpl. by destruct s.
Qed.

Lemma list_create_element_copy_fails s e size m :
  e ≠ NULL → l_alloc (lst s) = true → fresh (m_node m) s → m_copy m = NULL →
  list_create_element e size m s = Some (NULL, s).
Proof.
  intros He Hal Hn Hc. destruct s as [h mm [fi la cu co al so se]].
  simpl in Hal. subst al. unfold list_create_element.
  assert (Hn0 : m_node m ≠ 0) by (destruct Hn; lia).
  munfold. msimpl. rewrite lookup_insert_eq. msimpl. rewrite lookup_insert_eq. msimpl.
  rewrite insert_insert_eq, delete_insert_id; [done|]. by destruct Hn as (_ & ? & _).
Qed.

(** ** Well-formed states *)

Lemma repr_conc ns cur al so mm :
  NoDup ns.*1 → Forall (λ a, 0 < a ≤ SIZE_MAX) ns.*1 → Forall (λ q, q ≠ NULL) ns.*2 →
  (cur = NULL ∨ cur ∈ ns.*1) →
  (al = true → NoDup ns.*2 ∧ Forall (λ q, is_Some (mm !! q)) ns.*2) →
  repr (conc ns cur al so mm) ns.
Proof. intros. unfold repr. simpl. split_and!; auto. Qed.

Lemma repr_inv s ns :
  repr s ns →
  ∃ cur al so mm, s = conc ns cur al so mm ∧
    cur = l_curr (lst s) ∧ al = l_alloc (lst s) ∧ so = l_sort (lst s) ∧ mm = mem s.
Proof. intros (Heq & _). by eexists _, _, _, _. Qed.

Lemma lookup_build_None_inv pv ns nx a : build pv ns nx !! a = None → a ∉ ns.*1.
Proof.
  intros H Hin. apply not_elem_of_dom in H. rewrite dom_build in H.
  apply H. by apply elem_of_list_to_set.
Qed.

(** ** Insertion *)

(** Room for one more element: the new address is none of the chain's. *)
Lemma length_succ_bounded (ns : list (Z * Z)) p :
  NoDup ns.*1 → Forall (λ a, 0 < a ≤ SIZE_MAX) ns.*1 →
  0 < p ≤ SIZE_MAX → p ∉ ns.*1 →
  0 ≤ Z.of_nat (length ns) + 1 ≤ SIZE_MAX.
Proof.
  intros Hnd Hr Hp Hn.
  pose proof (length_bounded (p :: ns.*1)) as Hb. simpl in Hb.
  rewrite length_fmap in Hb. split; [lia|].
  assert (Z.of_nat (S (length ns)) ≤ SIZE_MAX); [|lia]. apply Hb.
  - by apply NoDup_cons.
  - by apply Forall_cons.
Qed.

Lemma list_add_head_repr s ns e size m :
  repr s ns → e ≠ NULL → alloc_ok s e size m →
  list_add_head e size m s
  = Some (0, conc ((m_node m, new_payload s e m) :: ns)
               (if ns is [] then m_node m else l_curr (lst s))
               (l_alloc (lst s)) (l_sort (lst s)) (new_mem s e size m)).
Proof.
  intros Hr He Ha. unfold list_add_head. munfold. msimpl.
  rewrite list_create_element_ok by done.
  assert (Hn0 : m_node m ≠ 0) by (destruct Ha as [[? _] _]; lia).
  destruct Hr as (Hs & Hnd & Hrange & Hpay & Hcur & Hal).
  generalize (new_payload s e m) (new_mem s e size m); intros pay mm'.
  destruct Ha as [(Hnr & Hfresh & _) _].
  rewrite Hs in Hfresh |- *. simpl in Hfresh.
  set (cur := l_curr (lst s)). set (al := l_alloc (lst s)). set (so := l_sort (lst s)).
  clearbody cur al so. clear Hs.
  apply lookup_build_None_inv in Hfresh.
  pose proof (length_succ_bounded ns _ Hnd Hrange Hnr Hfresh) as Hlen.
  destruct ns as [|n ns'].
  - msimpl. outcome.
  - apply Forall_cons in Hrange as [Hn1 _]. simpl in Hn1, Hfresh.
    apply not_elem_of_cons in Hfresh as [Hne _].
    msimpl. rewrite lookup_insert_ne, lookup_insert_eq by done. msimpl.
    rewrite lookup_insert_ne, lookup_insert_eq by done. msimpl.
    outcome.
    + heap_eq.
    + rewrite size_wrap_small; simpl length in *; lia.
Qed.

Lemma NoDup_mid_notin (la : list (Z * Z)) n lb :
  NoDup ((la ++ n :: lb).*1) → (n.1 ∉ la.*1) ∧ (n.1 ∉ lb.*1).
Proof.
  rewrite fmap_app, fmap_cons. intros Hnd.
  apply NoDup_app in Hnd as (_ & Hn1 & Hn2). apply NoDup_cons in Hn2 as [Hn2 _].
  split; [|done]. intros Hin. apply (Hn1 _ Hin). left.
Qed.

Lemma build_snoc pv (ns : list (Z * Z)) n nx :
  n.1 ∉ ns.*1 →
  build pv (ns ++ [n]) nx
  = <[n.1 := mk_element (last_addr pv ns) nx n.2]> (build pv ns n.1).
Proof.
  intros Hn. rewrite build_app. simpl.
  rewrite insert_empty, <-insert_union_singleton_r by by apply lookup_build_None.
  done.
Qed.

Lemma snoc_inv {A} (l : list A) : l ≠ [] → ∃ l' x, l = l' ++ [x].
Proof.
  destruct l as [|y l] using rev_ind; [done|]. intros _. by eexists _, _.
Qed.

Lemma NoDup_snoc_notin (la : list (Z * Z)) n :
  NoDup ((la ++ [n]).*1) → n.1 ∉ la.*1.
Proof. intros H. by apply NoDup_mid_notin in H as [? _]. Qed.

Lemma Forall_fst_mid (P : Z → Prop) (la : list (Z * Z)) n lb :
  Forall P ((la ++ n :: lb).*1) → P n.1.
Proof.
  rewrite Forall_forall. intros H. apply H.
  rewrite fmap_app, fmap_cons. apply elem_of_app. right. left.
Qed.

Lemma notin_fst_mid a (la : list (Z * Z)) n lb :
  a ∉ (la ++ n :: lb).*1 → (a ∉ la.*1) ∧ a ≠ n.1 ∧ (a ∉ lb.*1).
Proof.
  rewrite fmap_app, fmap_cons, not_elem_of_app, not_elem_of_cons. tauto.
Qed.

Lemma list_add_tail_repr s ns e size m :
  repr s ns → e ≠ NULL → alloc_ok s e size m →
  list_add_tail e size m s
  = Some (0, conc (ns ++ [(m_node m, new_payload s e m)])
               (if ns is [] then m_node m else l_curr (lst s))
               (l_alloc (lst s)) (l_sort (lst s)) (new_mem s e size m)).
Proof.
  intros Hr He Ha. unfold list_add_tail. munfold. msimpl.
  rewrite list_create_element_ok by done.
  assert (Hn0 : m_node m ≠ 0) by (destruct Ha as [[? _] _]; lia).
  destruct Hr as (Hs & Hnd & Hrange & Hpay & Hcur & Hal).
  generalize (new_payload s e m) (new_mem s e size m); intros pay mm'.
  destruct Ha as [(Hnr & Hfresh & _) _].
  rewrite Hs in Hfresh |- *. simpl in Hfresh.
  set (cur := l_curr (lst s)). set (al := l_alloc (lst s)). set (so := l_sort (lst s)).
  clearbody cur al so. clear Hs.
  apply lookup_build_None_inv in Hfresh.
  pose proof (length_succ_bounded ns _ Hnd Hrange Hnr Hfresh) as Hlen.
  destruct (decide (ns = [])) as [->|Hne].
  - msimpl. outcome.
  - apply snoc_inv in Hne as (la & n & ->).
    pose proof (NoDup_snoc_notin _ _ Hnd) as Hnla.
    apply Forall_fst_mid in Hrange as Hn1.
    pose proof (notin_fst_mid _ _ _ _ Hfresh) as (Hfla & Hne & _).
    msimpl. rewrite !last_addr_snoc, build_snoc by done. msimpl.
    rewrite lookup_insert_ne, lookup_insert_eq by done. msimpl.
    rewrite lookup_insert_ne, lookup_insert_eq by done. msimpl.
    unfold conc.
    rewrite (build_snoc 0 (la ++ [n])), (build_snoc 0 la), !last_addr_snoc,
      !hd_addr_app, !length_app by done.
    outcome.
    + heap_eq.
    + by destruct la.
    + rewrite size_wrap_small; rewrite ?length_app in *; simpl length in *; lia.
Qed.

(** ** Sorted insertion: the walk of [list_add] *)

Lemma insert_before_all keep new ns :
  forallb (λ n, keep n.2) ns = true → insert_before keep new ns = ns ++ [new].
Proof.
  induction ns as [|n ns IH]; simpl; [done|].
  destruct (keep n.2); simpl; [|done]. intros H. by rewrite IH.
Qed.

Lemma insert_before_last keep new ns d :
  forallb (λ n, keep n.2) ns = false →
  last_addr d (insert_before keep new ns) = last_addr d ns.
Proof.
  revert d. induction ns as [|n ns IH]; intros d; simpl; [done|].
  destruct (keep n.2); simpl; [|done]. apply IH.
Qed.

Lemma insert_before_length keep new ns :
  length (insert_before keep new ns) = S (length ns).
Proof.
  induction ns as [|n ns IH]; simpl; [done|].
  destruct (keep n.2); simpl; [|done]. by rewrite IH.
Qed.

Lemma insert_before_split keep new ns :
  ∃ la lb, ns = la ++ lb ∧ insert_before keep new ns = la ++ new :: lb ∧
    Forall (λ n, keep n.2 = true) la ∧
    match lb with [] => True | n :: _ => keep n.2 = false end.
Proof.
  induction ns as [|n ns (la & lb & -> & Hi & Hla & Hlb)]; simpl.
  - by exists [], [].
  - destruct (keep n.2) eqn:Hk.
    + exists (n :: la), lb. rewrite Hi. split_and!; try done. by constructor.
    + exists [], (n :: la ++ lb). by split_and!.
Qed.

Lemma NoDup_app_fst_notin (la lb : list (Z * Z)) a :
  NoDup ((la ++ lb).*1) → a ∈ lb.*1 → a ∉ la.*1.
Proof.
  rewrite fmap_app. intros H Hin Hin'.
  apply NoDup_app in H as (_ & H & _). by apply (H a).
Qed.

Section walk.
Context (sort : sort_t) (e p pay : Z) (mm : gmap Z bytes) (ns : list (Z * Z)).
Context (la' cu co : Z) (al : bool) (so : option sort_t) (se : Z).
Hypothesis Hnd : NoDup ns.*1.
Hypothesis Hrange : Forall (λ a, 0 < a ≤ SIZE_MAX) ns.*1.
Hypothesis Hp : p ∉ ns.*1.
Hypothesis Hp0 : p ≠ NULL.

Local Abbreviation keep := (λ q : Z, sort mm q e).
Local Abbreviation heap0 := (<[p := mk_element NULL NULL pay]> (build NULL ns NULL)).

Lemma list_add_walk_spec lb : ∀ la fuel,
  ns = la ++ lb → (length lb < fuel)%nat →
  list_add_walk fuel sort p e (hd_addr lb NULL)
    (mk_state heap0 mm (mk_list (hd_addr ns NULL) la' cu co al so se))
  = Some (if forallb (λ n, sort mm n.2 e) lb then
            (false, mk_state heap0 mm (mk_list (hd_addr ns NULL) la' cu co al so se))
          else
            (true, mk_state (build NULL (la ++ insert_before keep (p, pay) lb) NULL) mm
                     (mk_list (hd_addr (la ++ insert_before keep (p, pay) lb) NULL)
                        la' cu co al so se))).
Proof.
  induction lb as [|n lb IH]; intros la fuel Hns Hfuel.
  - destruct fuel; [simpl in Hfuel; lia|]. done.
  - destruct fuel as [|fuel]; [simpl in Hfuel; lia|]. simpl in Hfuel.
    assert (Hn1 : 0 < n.1 ≤ SIZE_MAX) by (subst ns; by eapply Forall_fst_mid).
    assert (Hpn : p ≠ n.1) by (subst ns; by apply notin_fst_mid in Hp as (_ & ? & _)).
    assert (Hlook : heap0 !! n.1
      = Some (mk_element (last_addr 0 la) (hd_addr lb 0) n.2)).
    { rewrite lookup_insert_ne by done. subst ns.
      apply lookup_build. by apply NoDup_mid_notin in Hnd as [? _]. }
    cbn [list_add_walk hd_addr]. rewrite decide_False by lia.
    munfold. cbn [heap mem lst]. rewrite Hlook. cbn -[size_wrap Z.of_nat].
    destruct (sort mm n.2 e) eqn:Hk; cbn -[size_wrap Z.of_nat].
    + specialize (IH (la ++ [n]) fuel). rewrite <-app_assoc in IH.
      specialize (IH Hns ltac:(lia)). munfold. rewrite IH.
      destruct (forallb _ lb); [done|]. by rewrite <-app_assoc.
    + assert (Hlp : heap0 !! p = Some (mk_element 0 0 pay))
        by (by rewrite lookup_insert_eq).
      destruct (decide (la = [])) as [->|Hne].
      * simpl in Hns. msimpl. rewrite Hlp. msimpl.
        rewrite lookup_insert_ne, Hlook by done. msimpl.
        outcome. subst ns. simpl. heap_eq.
      * apply snoc_inv in Hne as (la0 & b & ->).
        rewrite <-app_assoc in Hns. simpl in Hns.
        assert (Hb1 : 0 < b.1 ≤ SIZE_MAX) by (subst ns; by eapply Forall_fst_mid).
        assert (Hpb : p ≠ b.1) by (subst ns; by apply notin_fst_mid in Hp as (_ & ? & _)).
        assert (Hbn : b.1 ≠ n.1).
        { subst ns. apply NoDup_mid_notin in Hnd as [_ Hb]. simpl in Hb.
          by apply not_elem_of_cons in Hb as [? _]. }
        assert (Hlb : heap0 !! b.1
          = Some (mk_element (last_addr 0 la0) n.1 b.2)).
        { rewrite lookup_insert_ne by done. subst ns.
          apply (lookup_build 0 la0 b (n :: lb)). by apply NoDup_mid_notin in Hnd as [? _]. }
        rewrite last_addr_snoc. msimpl. rewrite Hlb. msimpl.
        rewrite lookup_insert_ne, Hlp by done. msimpl.
        rewrite lookup_insert_eq. msimpl.
        rewrite lookup_insert_ne, lookup_insert_ne, lookup_insert_ne, Hlook by done. msimpl.
        rewrite <-app_assoc. simpl.
        assert (Hab : build 0 la0 b.1 !! b.1 = None).
        { apply lookup_build_None. subst ns. by apply NoDup_mid_notin in Hnd as [? _]. }
        assert (Han : build 0 la0 b.1 !! n.1 = None).
        { apply lookup_build_None. subst ns.
          apply (NoDup_app_fst_notin la0 (b :: n :: lb)); [done|].
          simpl. right. left. }
        assert (Hap : build 0 la0 b.1 !! p = None).
        { apply lookup_build_None. subst ns.
          rewrite fmap_app in Hp. by apply not_elem_of_app in Hp as [? _]. }
        outcome.
        -- subst ns. rewrite !build_app. simpl. heap_eq.
        -- subst ns. by rewrite !hd_addr_app.
Qed.
End walk.

Lemma list_add_repr s ns e size m :
  repr s ns → e ≠ NULL → alloc_ok s e size m →
  list_add e size m s
  = Some (0, conc (add_chain s e size m ns)
               (if ns is [] then m_node m else l_curr (lst s))
               (l_alloc (lst s)) (l_sort (lst s)) (new_mem s e size m)).
Proof.
  intros Hr He Ha. unfold list_add, add_chain. munfold. msimpl.
  rewrite list_create_element_ok by done.
  assert (Hn0 : m_node m ≠ 0) by (destruct Ha as [[? _] _]; lia).
  destruct Hr as (Hs & Hnd & Hrange & Hpay & Hcur & Hal).
  generalize (new_payload s e m) (new_mem s e size m); intros pay mm'.
  destruct Ha as [(Hnr & Hfresh & _) _].
  rewrite Hs in Hfresh |- *. simpl in Hfresh.
  set (cur := l_curr (lst s)). set (al := l_alloc (lst s)). set (so := l_sort (lst s)).
  clearbody cur al so. clear Hs.
  apply lookup_build_None_inv in Hfresh.
  pose proof (length_succ_bounded ns _ Hnd Hrange Hnr Hfresh) as Hlen.
  destruct (decide (ns = [])) as [->|Hne].
  { msimpl. destruct so; outcome. }
  assert (Hhd : hd_addr ns 0 ≠ 0).
  { destruct ns as [|n ns']; [done|]. apply Forall_cons in Hrange as [? _]. simpl. lia. }
  msimpl.
  destruct so as [sort|].
  - msimpl.
    rewrite (list_add_walk_spec sort e (m_node m) pay mm' ns _ _ _ _ _ _ Hnd Hrange Hfresh Hn0 ns []);
      [|done|rewrite map_size_insert_None, size_build by (try done; by apply lookup_build_None); lia].
    destruct (forallb _ ns) eqn:Hall.
    + rewrite insert_before_all by done.
      apply snoc_inv in Hne as (la & n & ->).
      pose proof (NoDup_snoc_notin _ _ Hnd) as Hnla.
      apply Forall_fst_mid in Hrange as Hn1.
      pose proof (notin_fst_mid _ _ _ _ Hfresh) as (Hfla & Hne & _).
      msimpl. rewrite !last_addr_snoc, build_snoc by done. msimpl.
      rewrite lookup_insert_ne, lookup_insert_eq by done. msimpl.
      rewrite lookup_insert_ne, lookup_insert_eq by done. msimpl.
      unfold conc.
      rewrite (build_snoc 0 (la ++ [n])), (build_snoc 0 la), !last_addr_snoc,
        !hd_addr_app, !length_app by done.
      outcome.
      * heap_eq.
      * by destruct la.
      * rewrite size_wrap_small; rewrite ?length_app in *; simpl length in *; lia.
    + msimpl. unfold conc.
      rewrite insert_before_last, insert_before_length by done.
      outcome.
      * by destruct ns.
      * rewrite size_wrap_small; lia.
  - apply snoc_inv in Hne as (la & n & ->).
    pose proof (NoDup_snoc_notin _ _ Hnd) as Hnla.
    apply Forall_fst_mid in Hrange as Hn1.
    pose proof (notin_fst_mid _ _ _ _ Hfresh) as (Hfla & Hne & _).
    msimpl. rewrite !last_addr_snoc, build_snoc by done. msimpl.
    rewrite lookup_insert_ne, lookup_insert_eq by done. msimpl.
    rewrite lookup_insert_ne, lookup_insert_eq by done. msimpl.
    unfold conc.
    rewrite (build_snoc 0 (la ++ [n])), (build_snoc 0 la), !last_addr_snoc,
      !hd_addr_app, !length_app by done.
    outcome.
    + heap_eq.
    + by destruct la.
    + rewrite size_wrap_small; rewrite ?length_app in *; simpl length in *; lia.
Qed.

(** ** Queries and cursor moves *)

Lemma last_payload_from_app d (la lb : list (Z * Z)) :
  last_payload_from d (la ++ lb) = last_payload_from (last_payload_from d la) lb.
Proof. revert d. induction la as [|n la IH]; intros d; simpl; [done|apply IH]. Qed.

Lemma last_payload_snoc (la : list (Z * Z)) n : last_payload (la ++ [n]) = n.2.
Proof. unfold last_payload. by rewrite last_payload_from_app. Qed.

Lemma lookup_build_at pv ns nx la n lb :
  NoDup ns.*1 → ns = la ++ n :: lb →
  build pv ns nx !! n.1 = Some (mk_element (last_addr pv la) (hd_addr lb nx) n.2).
Proof.
  intros Hnd ->. apply lookup_build. by apply NoDup_mid_notin in Hnd as [? _].
Qed.

(** Take a represented state apart into the chain and the free fields. *)
Ltac repr_open Hr cur al so mm :=
  let Hs := fresh "Hs" in
  destruct (repr_inv _ _ Hr) as (cur & al & so & mm & Hs & _);
  subst; destruct Hr as (_ & Hr); cbn [conc lst mem heap l_curr l_alloc l_sort] in *.

Lemma list_get_count_repr s ns :
  repr s ns → list_get_count s = Some (Z.of_nat (length ns), s).
Proof.
  intros Hr. repr_open Hr cur al so mm.
  unfold list_get_count. munfold. msimpl. outcome.
Qed.

Lemma list_get_head_repr s ns :
  repr s ns →
  list_get_head s
  = Some (hd_payload ns,
          conc ns (hd_addr ns NULL) (l_alloc (lst s)) (l_sort (lst s)) (mem s)).
Proof.
  intros Hr. repr_open Hr cur al so mm. destruct Hr as (Hnd & Hrange & _).
  unfold list_get_head. munfold. msimpl.
  destruct ns as [|n ns']; msimpl; [outcome|].
  apply Forall_cons in Hrange as [? _].
  msimpl. rewrite lookup_insert_eq. msimpl. outcome.
Qed.

Lemma list_get_tail_repr s ns :
  repr s ns →
  list_get_tail s
  = Some (last_payload ns,
          conc ns (last_addr NULL ns) (l_alloc (lst s)) (l_sort (lst s)) (mem s)).
Proof.
  intros Hr. repr_open Hr cur al so mm. destruct Hr as (Hnd & Hrange & _).
  unfold list_get_tail. munfold. msimpl.
  destruct (decide (ns = [])) as [->|Hne]; msimpl; [outcome|].
  apply snoc_inv in Hne as (la & n & ->).
  apply Forall_fst_mid in Hrange as Hn1.
  rewrite last_addr_snoc, last_payload_snoc. msimpl.
  rewrite (lookup_build_at _ _ _ la n []) by done. msimpl.
  unfold conc. rewrite last_addr_snoc. outcome.
Qed.

(** The cursor is off the list: [list_get_next] and [list_get_prev] leave
    it there. *)
Lemma list_get_next_off s ns :
  repr s ns → l_curr (lst s) = NULL → list_get_next s = Some (NULL, s).
Proof.
  intros Hr Hc. repr_open Hr cur al so mm. subst cur.
  unfold list_get_next. munfold. msimpl. outcome.
Qed.

Lemma list_get_prev_off s ns :
  repr s ns → l_curr (lst s) = NULL → list_get_prev s = Some (NULL, s).
Proof.
  intros Hr Hc. repr_open Hr cur al so mm. subst cur.
  unfold list_get_prev. munfold. msimpl. outcome.
Qed.

(** The cursor is on the element [n], between [la] and [lb]. *)
Lemma list_get_next_at s la n lb :
  repr s (la ++ n :: lb) → l_curr (lst s) = n.1 →
  list_get_next s
  = Some (hd_payload lb,
          conc (la ++ n :: lb) (hd_addr lb NULL) (l_alloc (lst s)) (l_sort (lst s)) (mem s)).
Proof.
  intros Hr Hc. repr_open Hr cur al so mm. subst cur. destruct Hr as (Hnd & Hrange & _).
  apply Forall_fst_mid in Hrange as Hn1.
  unfold list_get_next. munfold. msimpl.
  rewrite lookup_build by (by apply NoDup_mid_notin in Hnd as [? _]). msimpl.
  destruct lb as [|c lb']; msimpl; [outcome|].
  assert (Hc1 : 0 < c.1 ≤ SIZE_MAX).
  { apply (Forall_fst_mid (λ a, 0 < a ≤ SIZE_MAX) (la ++ [n]) c lb'). by rewrite <-app_assoc. }
  msimpl. rewrite (lookup_build_at _ _ _ (la ++ [n]) c lb') by (by rewrite <-?app_assoc).
  msimpl. outcome.
Qed.

Lemma list_get_prev_at s la n lb :
  repr s (la ++ n :: lb) → l_curr (lst s) = n.1 →
  list_get_prev s
  = Some (last_payload la,
          conc (la ++ n :: lb) (last_addr NULL la) (l_alloc (lst s)) (l_sort (lst s)) (mem s)).
Proof.
  intros Hr Hc. repr_open Hr cur al so mm. subst cur. destruct Hr as (Hnd & Hrange & _).
  apply Forall_fst_mid in Hrange as Hn1.
  unfold list_get_prev. munfold. msimpl.
  rewrite lookup_build by (by apply NoDup_mid_notin in Hnd as [? _]). msimpl.
  destruct (decide (la = [])) as [->|Hne]; msimpl; [outcome|].
  apply snoc_inv in Hne as (la0 & b & ->).
  assert (Hb1 : 0 < b.1 ≤ SIZE_MAX).
  { apply (Forall_fst_mid (λ a, 0 < a ≤ SIZE_MAX) la0 b (n :: lb)). rewrite <-app_assoc in Hrange. exact Hrange. }
  rewrite last_addr_snoc, last_payload_snoc. msimpl.
  rewrite (lookup_build_at _ _ _ la0 b (n :: lb)) by (done || by rewrite <-app_assoc).
  msimpl. outcome.
Qed.

(** ** Removal *)

(** The search of [list_remove] leaves the state alone and stops at the
    first element whose payload pointer is [e]. *)
Lemma list_remove_search_absent e ns cu al so mm se lb : ∀ la fuel,
  NoDup ns.*1 → Forall (λ a, 0 < a ≤ SIZE_MAX) ns.*1 →
  ns = la ++ lb → e ∉ lb.*2 → (length lb < fuel)%nat →
  list_remove_search fuel e (hd_addr lb NULL)
    (mk_state (build NULL ns NULL) mm
       (mk_list (hd_addr ns NULL) (last_addr NULL ns) cu (Z.of_nat (length ns)) al so se))
  = Some (NULL,
      mk_state (build NULL ns NULL) mm
        (mk_list (hd_addr ns NULL) (last_addr NULL ns) cu (Z.of_nat (length ns)) al so se)).
Proof.
  induction lb as [|n lb IH]; intros la fuel Hnd Hrange Hns He Hfuel.
  - destruct fuel; [simpl in Hfuel; lia|]. done.
  - destruct fuel as [|fuel]; [simpl in Hfuel; lia|]. simpl in Hfuel.
    assert (Hn1 : 0 < n.1 ≤ SIZE_MAX) by (subst ns; by eapply Forall_fst_mid).
    rewrite fmap_cons in He. apply not_elem_of_cons in He as [Hne He].
    cbn [list_remove_search hd_addr]. rewrite decide_False by lia.
    munfold. cbn [heap mem lst].
    rewrite (lookup_build_at _ _ _ la n lb) by done. cbn -[Z.of_nat].
    rewrite decide_False by done.
    apply (IH (la ++ [n]) fuel); try done; [by rewrite <-app_assoc|lia].
Qed.

Lemma list_remove_search_found e ns cu al so mm se lb t lc : ∀ la fuel,
  NoDup ns.*1 → Forall (λ a, 0 < a ≤ SIZE_MAX) ns.*1 →
  ns = la ++ lb ++ t :: lc → e ∉ lb.*2 → t.2 = e → (length (lb ++ t :: lc) < fuel)%nat →
  list_remove_search fuel e (hd_addr (lb ++ t :: lc) NULL)
    (mk_state (build NULL ns NULL) mm
       (mk_list (hd_addr ns NULL) (last_addr NULL ns) cu (Z.of_nat (length ns)) al so se))
  = Some (t.1,
      mk_state (build NULL ns NULL) mm
        (mk_list (hd_addr ns NULL) (last_addr NULL ns) cu (Z.of_nat (length ns)) al so se)).
Proof.
  induction lb as [|n lb IH]; intros la fuel Hnd Hrange Hns He Ht Hfuel.
  - destruct fuel as [|fuel]; [simpl in Hfuel; lia|]. simpl in Hns.
    assert (Hn1 : 0 < t.1 ≤ SIZE_MAX) by (subst ns; by eapply Forall_fst_mid).
    cbn [list_remove_search hd_addr app]. rewrite decide_False by lia.
    munfold. cbn [heap mem lst].
    rewrite (lookup_build_at _ _ _ la t lc) by done. cbn -[Z.of_nat].
    by rewrite decide_True by done.
  - destruct fuel as [|fuel]; [simpl in Hfuel; lia|]. simpl in Hfuel, Hns.
    assert (Hn1 : 0 < n.1 ≤ SIZE_MAX) by (subst ns; by eapply Forall_fst_mid).
    rewrite fmap_cons in He. apply not_elem_of_cons in He as [Hne He].
    cbn [list_remove_search hd_addr app]. rewrite decide_False by lia.
    munfold. cbn [heap mem lst].
    rewrite (lookup_build_at _ _ _ la n (lb ++ t :: lc)) by done. cbn -[Z.of_nat].
    rewrite decide_False by done.
    apply (IH (la ++ [n]) fuel); try done; [by rewrite <-app_assoc|lia].
Qed.

Lemma list_remove_absent s ns e :
  repr s ns → e ∉ ns.*2 → list_remove e s = Some (NULL, s).
Proof.
  intros Hr He. repr_open Hr cur al so mm. destruct Hr as (Hnd & Hrange & _).
  unfold list_remove. munfold. msimpl.
  assert (Hfuel : (length ns < S (size (build 0 ns 0)))%nat)
    by (rewrite size_build by done; lia).
  by rewrite (list_remove_search_absent e ns _ _ _ _ _ ns [] _ Hnd Hrange eq_refl He Hfuel).
Qed.

Lemma last_addr_tail_ne (t : Z * Z) (lb : list (Z * Z)) :
  t.1 ∉ lb.*1 → lb ≠ [] → t.1 ≠ last_addr t.1 lb.
Proof.
  intros Hn Hne Heq. apply Hn. rewrite Heq.
  by apply last_addr_elem.
Qed.

Lemma hd_addr_elem d (ns : list (Z * Z)) : ns ≠ [] → hd_addr ns d ∈ ns.*1.
Proof. destruct ns as [|n ns]; [done|]. intros _. left. Qed.

(** Resolving the reads of a heap written with [insert] and [∪]. *)
Ltac look :=
  repeat first
    [ rewrite lookup_insert_eq
    | rewrite lookup_insert_ne by done
    | rewrite lookup_union_r by done
    | rewrite lookup_delete_ne by done ].

Lemma list_remove_present s la t lb :
  repr s (la ++ t :: lb) → t.2 ∉ la.*2 →
  list_remove t.2 s
  = Some (hd_addr lb NULL,
          conc (la ++ lb)
            (if decide (l_curr (lst s) = t.1) then last_addr NULL la else l_curr (lst s))
            (l_alloc (lst s)) (l_sort (lst s))
            (if l_alloc (lst s) then delete t.2 (mem s) else mem s)).
Proof.
  intros Hr He. repr_open Hr cur al so mm.
  destruct Hr as (Hnd & Hrange & Hpay & Hcur & Hal).
  assert (Ht1 : 0 < t.1 ≤ SIZE_MAX) by (by eapply Forall_fst_mid).
  assert (Ht2 : t.2 ≠ 0).
  { rewrite Forall_forall in Hpay. apply Hpay.
    rewrite fmap_app, fmap_cons. apply elem_of_app. right. left. }
  assert (Hmem : al = true → is_Some (mm !! t.2)).
  { intros Ha. destruct (Hal Ha) as [_ Hl]. rewrite Forall_forall in Hl. apply Hl.
    rewrite fmap_app, fmap_cons. apply elem_of_app. right. left. }
  pose proof (NoDup_mid_notin _ _ _ Hnd) as [Htla Htlb].
  unfold list_remove. munfold. msimpl.
  assert (Hfuel : (length (la ++ t :: lb) < S (size (build 0 (la ++ t :: lb) 0)))%nat)
    by (rewrite size_build by done; lia).
  rewrite (list_remove_search_found t.2 (la ++ t :: lb) _ _ _ _ _ la t lb [] _
             Hnd Hrange eq_refl He eq_refl Hfuel).
  msimpl. rewrite lookup_build by done. msimpl.
  pose proof (length_bounded _ Hnd Hrange) as Hb. rewrite length_fmap in Hb.
  rewrite last_addr_app. cbn [last_addr].
  destruct (decide (la = [])) as [->|Hla]; [|apply snoc_inv in Hla as (la0 & b & ->)];
    (destruct lb as [|c lb']).
  - (* the only element *)
    msimpl. destruct al; [destruct (Hmem eq_refl) as [bs Hbs]|];
      destruct (decide (cur = t.1)) as [->|Hc];
      repeat (progress (msimpl; look; rewrite ?Hbs)); outcome; heap_eq.
  - (* the first of several *)
    assert (Hc1 : 0 < c.1 ≤ SIZE_MAX)
      by (apply Forall_cons in Hrange as [_ Hr]; by apply Forall_cons in Hr as [? _]).
    assert (Htc : t.1 ≠ c.1) by (simpl in Htlb; by apply not_elem_of_cons in Htlb as [? _]).
    assert (Hlast : t.1 ≠ last_addr t.1 (c :: lb')) by (by apply last_addr_tail_ne).
    simpl in Hlast.
    assert (HCt : build c.1 lb' 0 !! t.1 = None).
    { apply lookup_build_None. simpl in Htlb. by apply not_elem_of_cons in Htlb as [_ ?]. }
    msimpl. destruct al; [destruct (Hmem eq_refl) as [bs Hbs]|];
      destruct (decide (cur = t.1)) as [->|Hc];
      repeat (progress (msimpl; look; rewrite ?Hbs)); outcome; try heap_eq;
      rewrite size_wrap_small; simpl length in *; lia.
  - (* the last of several *)
    assert (Hb1 : 0 < b.1 ≤ SIZE_MAX).
    { apply (Forall_fst_mid (λ a, 0 < a ≤ SIZE_MAX) la0 b [t]).
      rewrite <-app_assoc in Hrange. exact Hrange. }
    assert (Htb : t.1 ≠ b.1).
    { intros Heq. apply Htla. rewrite Heq, fmap_app. apply elem_of_app. right. left. }
    assert (Hfirst : t.1 ≠ hd_addr la0 b.1).
    { change (t.1 ≠ hd_addr la0 (hd_addr [b] 0)). rewrite <-hd_addr_app.
      intros Heq. apply Htla. rewrite Heq. apply hd_addr_elem. by destruct la0. }
    assert (HAb : build 0 la0 b.1 !! b.1 = None).
    { apply lookup_build_None. apply (NoDup_mid_notin la0 b [t]).
      rewrite <-app_assoc in Hnd. exact Hnd. }
    assert (HAt : build 0 la0 b.1 !! t.1 = None).
    { apply lookup_build_None. rewrite fmap_app in Htla.
      by apply not_elem_of_app in Htla as [? _]. }
    unfold conc. rewrite <-?app_assoc, ?app_nil_r. cbn [app].
    rewrite !(build_app 0 la0), !hd_addr_app, !last_addr_app.
    cbn [build hd_addr last_addr].
    msimpl. destruct al; [destruct (Hmem eq_refl) as [bs Hbs]|];
      destruct (decide (cur = t.1)) as [->|Hc];
      repeat (progress (msimpl; look; rewrite ?Hbs)); outcome; try heap_eq;
      rewrite size_wrap_small; rewrite ?length_app in *; simpl length in *; lia.
  - (* in the middle *)
    assert (Hb1 : 0 < b.1 ≤ SIZE_MAX).
    { apply (Forall_fst_mid (λ a, 0 < a ≤ SIZE_MAX) la0 b (t :: c :: lb')).
      rewrite <-app_assoc in Hrange. exact Hrange. }
    assert (Hc1 : 0 < c.1 ≤ SIZE_MAX).
    { apply (Forall_fst_mid (λ a, 0 < a ≤ SIZE_MAX) ((la0 ++ [b]) ++ [t]) c lb').
      rewrite <-(app_assoc _ [t]). exact Hrange. }
    assert (Htb : t.1 ≠ b.1).
    { intros Heq. apply Htla. rewrite Heq, fmap_app. apply elem_of_app. right. left. }
    assert (Htc : t.1 ≠ c.1) by (simpl in Htlb; by apply not_elem_of_cons in Htlb as [? _]).
    assert (Hbc : b.1 ≠ c.1).
    { rewrite <-app_assoc in Hnd. apply NoDup_mid_notin in Hnd as [_ Hn].
      simpl in Hn. apply not_elem_of_cons in Hn as [_ Hn].
      by apply not_elem_of_cons in Hn as [? _]. }
    assert (Hlast : t.1 ≠ last_addr t.1 (c :: lb')) by (by apply last_addr_tail_ne).
    simpl in Hlast.
    assert (Hfirst : t.1 ≠ hd_addr la0 b.1).
    { change (t.1 ≠ hd_addr la0 (hd_addr [b] 0)). rewrite <-hd_addr_app.
      intros Heq. apply Htla. rewrite Heq. apply hd_addr_elem. by destruct la0. }
    assert (HAb : build 0 la0 b.1 !! b.1 = None).
    { apply lookup_build_None. apply (NoDup_mid_notin la0 b (t :: c :: lb')).
      rewrite <-app_assoc in Hnd. exact Hnd. }
    assert (HAt : build 0 la0 b.1 !! t.1 = None).
    { apply lookup_build_None. rewrite fmap_app in Htla.
      by apply not_elem_of_app in Htla as [? _]. }
    assert (HAc : build 0 la0 b.1 !! c.1 = None).
    { apply lookup_build_None.
      apply (NoDup_app_fst_notin la0 (b :: t :: c :: lb')).
      - rewrite <-app_assoc in Hnd. exact Hnd.
      - simpl. right. right. left. }
    assert (HCt : build c.1 lb' 0 !! t.1 = None).
    { apply lookup_build_None. simpl in Htlb. by apply not_elem_of_cons in Htlb as [_ ?]. }
    unfold conc. rewrite <-?app_assoc, ?app_nil_r. cbn [app].
    rewrite !(build_app 0 la0), !hd_addr_app, !last_addr_app.
    cbn [build hd_addr last_addr].
    msimpl. destruct al; [destruct (Hmem eq_refl) as [bs Hbs]|];
      destruct (decide (cur = t.1)) as [->|Hc];
      repeat (progress (msimpl; look; rewrite ?Hbs)); outcome; try heap_eq;
      rewrite size_wrap_small; rewrite ?length_app in *; simpl length in *; lia.
Qed.
Lemma list_remove_head_empty s :
  repr s [] → list_remove_head s = Some (NULL, s).
Proof.
  intros Hr. repr_open Hr cur al so mm.
  destruct Hr as (_ & _ & _ & [->|Hcur] & _); [|by apply elem_of_nil in Hcur].
  unfold list_remove_head. munfold. msimpl. outcome.
Qed.

Lemma list_remove_tail_empty s :
  repr s [] → list_remove_tail s = Some (NULL, s).
Proof.
  intros Hr. repr_open Hr cur al so mm.
  destruct Hr as (_ & _ & _ & [->|Hcur] & _); [|by apply elem_of_nil in Hcur].
  unfold list_remove_tail. munfold. msimpl. outcome.
Qed.

Lemma list_remove_head_repr s t lb :
  repr s (t :: lb) →
  list_remove_head s
  = Some (t.2,
          conc lb (if decide (l_curr (lst s) = t.1) then hd_addr lb NULL else l_curr (lst s))
            (l_alloc (lst s)) (l_sort (lst s)) (mem s)).
Proof.
  intros Hr. repr_open Hr cur al so mm.
  destruct Hr as (Hnd & Hrange & Hpay & Hcur & Hal).
  pose proof (length_bounded _ Hnd Hrange) as Hb. rewrite length_fmap in Hb.
  assert (Ht1 : 0 < t.1 ≤ SIZE_MAX) by (by apply Forall_cons in Hrange as [? _]).
  pose proof (NoDup_mid_notin [] t lb Hnd) as [_ Htlb].
  unfold list_remove_head. munfold. msimpl.
  destruct lb as [|c lb'].
  - destruct (decide (cur = t.1)) as [->|Hc];
      [|rewrite (bool_decide_eq_false_2 (cur = t.1)), andb_false_r by done];
      repeat (progress (msimpl; look)); outcome; heap_eq.
  - assert (Hc1 : 0 < c.1 ≤ SIZE_MAX)
      by (apply Forall_cons in Hrange as [_ Hr]; by apply Forall_cons in Hr as [? _]).
    assert (Htc : t.1 ≠ c.1) by (simpl in Htlb; by apply not_elem_of_cons in Htlb as [? _]).
    assert (HCt : build c.1 lb' 0 !! t.1 = None).
    { apply lookup_build_None. simpl in Htlb. by apply not_elem_of_cons in Htlb as [_ ?]. }
    destruct (decide (cur = t.1)) as [->|Hc];
      [|rewrite (bool_decide_eq_false_2 (cur = t.1)), andb_false_r by done];
      repeat (progress (msimpl; look)); outcome; try heap_eq;
      rewrite size_wrap_small; simpl length in *; lia.
Qed.

Lemma list_remove_tail_repr s la t :
  repr s (la ++ [t]) →
  list_remove_tail s
  = Some (t.2,
          conc la (if decide (l_curr (lst s) = t.1) then last_addr NULL la else l_curr (lst s))
            (l_alloc (lst s)) (l_sort (lst s)) (mem s)).
Proof.
  intros Hr. repr_open Hr cur al so mm.
  destruct Hr as (Hnd & Hrange & Hpay & Hcur & Hal).
  pose proof (length_bounded _ Hnd Hrange) as Hb. rewrite length_fmap in Hb.
  assert (Ht1 : 0 < t.1 ≤ SIZE_MAX) by (by eapply Forall_fst_mid).
  pose proof (NoDup_mid_notin la t [] Hnd) as [Htla _].
  unfold list_remove_tail. munfold. msimpl. rewrite !last_addr_snoc.
  destruct (decide (la = [])) as [->|Hla]; [|apply snoc_inv in Hla as (la0 & b & ->)].
  - destruct (decide (cur = t.1)) as [->|Hc];
      [|rewrite (bool_decide_eq_false_2 (cur = t.1)), andb_false_r by done];
      repeat (progress (msimpl; look)); outcome; heap_eq.
  - assert (Hb1 : 0 < b.1 ≤ SIZE_MAX).
    { apply (Forall_fst_mid (λ a, 0 < a ≤ SIZE_MAX) la0 b [t]).
      rewrite <-app_assoc in Hrange. exact Hrange. }
    assert (Htb : t.1 ≠ b.1).
    { intros Heq. apply Htla. rewrite Heq, fmap_app. apply elem_of_app. right. left. }
    assert (HAb : build 0 la0 b.1 !! b.1 = None).
    { apply lookup_build_None. apply (NoDup_mid_notin la0 b [t]).
      rewrite <-app_assoc in Hnd. exact Hnd. }
    assert (HAt : build 0 la0 b.1 !! t.1 = None).
    { apply lookup_build_None. rewrite fmap_app in Htla.
      by apply not_elem_of_app in Htla as [? _]. }
    unfold conc. rewrite <-?app_assoc. cbn [app].
    rewrite !(build_app 0 la0), !hd_addr_app, !last_addr_app.
    cbn [build hd_addr last_addr].
    destruct (decide (cur = t.1)) as [->|Hc];
      [|rewrite (bool_decide_eq_false_2 (cur = t.1)), andb_false_r by done];
      repeat (progress (msimpl; look)); outcome; try heap_eq;
      rewrite size_wrap_small; rewrite ?length_app in *; simpl length in *; lia.
Qed.

(** ** The outcomes of [list_create_element] *)

(** Whenever [list_create_element] returns, either an allocation failed
    and nothing changed, or both allocations obeyed the allocator's
    contract. *)
Lemma list_create_element_cases s e size m r s' :
  list_create_element e size m s = Some (r, s') →
  e ≠ NULL ∧
  ((r = NULL ∧ s' = s ∧
     (m_node m = NULL ∨ (l_alloc (lst s) = true ∧ fresh (m_node m) s ∧ m_copy m = NULL)))
   ∨ alloc_ok s e size m).
Proof.
  destruct s as [h mm [fi la cu co al so se]].
  unfold list_create_element. munfold. cbn -[size_wrap Z.of_nat].
  case_bool_decide as He; [|done]. split; [done|]. revert H.
  cbn -[size_wrap Z.of_nat].
  destruct (decide (m_node m = 0)) as [Hn|Hn]; cbn -[size_wrap Z.of_nat].
  { rewrite decide_True by done. intros [= <- <-]. left. auto. }
  destruct (decide (fresh _ _)) as [Hf|Hf]; [|done]. cbn -[size_wrap Z.of_nat].
  rewrite decide_False by done. cbn -[size_wrap Z.of_nat].
  assert (Hdel : delete (m_node m) (<[m_node m := mk_element 0 0 0]> h) = h).
  { destruct Hf as (_ & Hf & _). simpl in Hf. by rewrite delete_insert_id. }
  destruct al; cbn -[size_wrap Z.of_nat].
  - destruct (decide (m_copy m = 0)) as [Hc|Hc]; cbn -[size_wrap Z.of_nat].
    + repeat (progress (msimpl; look)).
      rewrite insert_insert_eq, Hdel.
      intros [= <- <-]. left. split_and!; try done. by right.
    + destruct (decide (fresh (m_copy m) _)) as [Hq|Hq]; [|done]. cbn -[size_wrap Z.of_nat].
      rewrite lookup_insert_eq. cbn -[size_wrap Z.of_nat].
      rewrite decide_False by done. cbn -[size_wrap Z.of_nat].
      destruct Hq as (Hq1 & Hq2 & Hq3). cbn in Hq2, Hq3.
      assert (Hne : m_copy m ≠ m_node m).
      { intros Heq. rewrite Heq, lookup_insert_eq in Hq2. done. }
      rewrite lookup_insert_ne in Hq2 by done.
      destruct (decide (m_copy m = e)) as [Hce|Hce]; [done|].
      cbn -[size_wrap Z.of_nat].
      rewrite lookup_insert_ne by done.
      destruct (mm !! e) as [src|] eqn:Hsrc; [|done].
      rewrite lookup_insert_eq, length_replicate.
      case_decide as Hsz; [|done]. intros _. right. split; [done|]. intros _.
      split_and!; try done. exists src. split; [done|lia].
  - rewrite lookup_insert_eq. cbn. intros _. right. split; [done|]. done.
Qed.

(** ** Chains that stay well formed *)

Lemma last_addr_cases d (ns : list (Z * Z)) : last_addr d ns = d ∨ last_addr d ns ∈ ns.*1.
Proof.
  destruct (decide (ns = [])) as [->|Hne]; [by left|]. right. by apply last_addr_elem.
Qed.

Lemma hd_addr_cases d (ns : list (Z * Z)) : hd_addr ns d = d ∨ hd_addr ns d ∈ ns.*1.
Proof.
  destruct (decide (ns = [])) as [->|Hne]; [by left|]. right. by apply hd_addr_elem.
Qed.

Lemma elem_fst_split (ns : list (Z * Z)) a :
  a ∈ ns.*1 → ∃ la n lb, ns = la ++ n :: lb ∧ n.1 = a.
Proof.
  intros Hin. apply list_elem_of_fmap in Hin as (n & -> & Hn).
  apply list_elem_of_split in Hn as (la & lb & ->). by exists la, n, lb.
Qed.

(** The first element of a chain whose payload pointer is [e]. *)
Lemma first_payload_split (ns : list (Z * Z)) e :
  e ∈ ns.*2 → ∃ la t lb, ns = la ++ t :: lb ∧ t.2 = e ∧ e ∉ la.*2.
Proof.
  induction ns as [|n ns IH]; intros Hin; [by apply elem_of_nil in Hin|].
  destruct (decide (n.2 = e)) as [Hn|Hn].
  - exists [], n, ns. split_and!; try done. apply not_elem_of_nil.
  - rewrite fmap_cons in Hin. apply elem_of_cons in Hin as [Hin|Hin]; [done|].
    destruct (IH Hin) as (la & t & lb & -> & Ht & Hla).
    exists (n :: la), t, lb. split_and!; try done.
    rewrite fmap_cons. apply not_elem_of_cons. by split.
Qed.

Lemma repr_insert s la lb e size m cur :
  repr s (la ++ lb) → e ≠ NULL → alloc_ok s e size m →
  (cur = NULL ∨ cur ∈ (la ++ (m_node m, new_payload s e m) :: lb).*1) →
  repr (conc (la ++ (m_node m, new_payload s e m) :: lb) cur
          (l_alloc (lst s)) (l_sort (lst s)) (new_mem s e size m))
       (la ++ (m_node m, new_payload s e m) :: lb).
Proof.
  intros (Hs & Hnd & Hrange & Hpay & Hcur & Hal) He [(Hnr & Hfresh & _) Hc] Hcur'.
  rewrite Hs in Hfresh. simpl in Hfresh. apply lookup_build_None_inv in Hfresh.
  assert (Hperm : ∀ n : Z * Z, la ++ n :: lb ≡ₚ n :: (la ++ lb))
    by (intros n; by rewrite Permutation_middle).
  apply repr_conc; try done.
  - rewrite Hperm, fmap_cons. by apply NoDup_cons.
  - rewrite Hperm, fmap_cons. apply Forall_cons. by split.
  - rewrite Hperm, fmap_cons. apply Forall_cons. split; [|done].
    unfold new_payload. destruct (l_alloc (lst s)); [|done].
    destruct Hc as ((? & _) & _); [done|]. simpl. lia.
  - intros Ha. destruct (Hal Ha) as [Hnd2 Hlive].
    destruct (Hc Ha) as ((_ & _ & Hq) & _).
    unfold new_payload, new_mem. rewrite Ha, !Hperm, !fmap_cons. simpl.
    split.
    + apply NoDup_cons. split; [|done]. intros Hin.
      rewrite Forall_forall in Hlive. destruct (Hlive _ Hin) as [? Hx].
      by rewrite Hq in Hx.
    + apply Forall_cons. split; [by rewrite lookup_insert_eq|].
      eapply Forall_impl; [done|]. intros q [x Hx]. simpl.
      destruct (decide (m_copy m = q)) as [Heq|Hne].
      * by rewrite <-Heq, lookup_insert_eq.
      * by rewrite lookup_insert_ne.
Qed.

Lemma repr_delete s la t lb cur mm' :
  repr s (la ++ t :: lb) →
  (cur = NULL ∨ cur ∈ (la ++ lb).*1) →
  (l_alloc (lst s) = true → Forall (λ q, is_Some (mm' !! q)) (la ++ lb).*2) →
  repr (conc (la ++ lb) cur (l_alloc (lst s)) (l_sort (lst s)) mm') (la ++ lb).
Proof.
  intros (Hs & Hnd & Hrange & Hpay & Hcur & Hal) Hcur' Hlive.
  assert (Hperm : la ++ t :: lb ≡ₚ t :: (la ++ lb)) by (by rewrite Permutation_middle).
  rewrite Hperm, fmap_cons in Hnd, Hrange, Hpay.
  apply NoDup_cons in Hnd as [_ Hnd]. apply Forall_cons in Hrange as [_ Hrange].
  apply Forall_cons in Hpay as [_ Hpay].
  apply repr_conc; try done.
  intros Ha. split; [|by apply Hlive]. destruct (Hal Ha) as [Hnd2 _].
  rewrite Hperm, fmap_cons in Hnd2. by apply NoDup_cons in Hnd2 as [_ ?].
Qed.

(** The cursor after a removal is still on the list or off it. *)
Lemma cursor_after_delete (la : list (Z * Z)) t lb cur d :
  (cur = NULL ∨ cur ∈ (la ++ t :: lb).*1) → (d = NULL ∨ d ∈ (la ++ lb).*1) →
  (if decide (cur = t.1) then d else cur) = NULL
  ∨ (if decide (cur = t.1) then d else cur) ∈ (la ++ lb).*1.
Proof.
  intros Hcur Hd. case_decide as Hc; [done|]. destruct Hcur as [?|Hin]; [by left|]. right.
  rewrite fmap_app, fmap_cons, elem_of_app, elem_of_cons in Hin.
  rewrite fmap_app, elem_of_app. tauto.
Qed.

(** ** The walk from [first] finds the chain *)

Lemma walk_build ns lb : ∀ la fuel,
  NoDup ns.*1 → Forall (λ a, 0 < a ≤ SIZE_MAX) ns.*1 →
  ns = la ++ lb → (length lb < fuel)%nat →
  walk fuel (build NULL ns NULL) (hd_addr lb NULL) = Some lb.
Proof.
  induction lb as [|n lb IH]; intros la fuel Hnd Hrange Hns Hfuel.
  - destruct fuel; [simpl in Hfuel; lia|]. done.
  - destruct fuel as [|fuel]; [simpl in Hfuel; lia|]. simpl in Hfuel.
    assert (Hn1 : 0 < n.1 ≤ SIZE_MAX) by (subst ns; by eapply Forall_fst_mid).
    cbn [walk hd_addr]. rewrite decide_False by lia.
    rewrite (lookup_build_at _ _ _ la n lb) by done. cbn [elt_next elt_e].
    rewrite (IH (la ++ [n]) fuel); try done; [|by rewrite <-app_assoc|lia].
    by destruct n.
Qed.

Lemma chain_repr s ns : repr s ns → chain s = Some ns.
Proof.
  intros Hr. repr_open Hr cur al so mm. destruct Hr as (Hnd & Hrange & _).
  unfold chain. cbn [heap lst l_first].
  apply (walk_build ns ns []); try done. simpl. rewrite size_build by done. lia.
Qed.

Lemma payloads_repr s ns : repr s ns → payloads s = ns.*2.
Proof. intros Hr. unfold payloads. by rewrite (chain_repr _ _ Hr). Qed.



Lemma repr_of_chain s ns : wf s → chain s = Some ns → repr s ns.
Proof.
  intros [ns' Hr] Hc. rewrite (chain_repr _ _ Hr) in Hc. by injection Hc as <-.
Qed.

(** ** Every call keeps the list well formed *)

(** An insertion that returns either failed to allocate, and then returned
    -1 and changed nothing, or had its allocations served. *)
Ltac add_inv_tac Hce H :=
  munfold; cbn -[list_create_element size_wrap Z.of_nat] in H;
  match type of H with
  | context [bool_decide (?e ≠ 0)] =>
      destruct (decide (e = 0)) as [He0|He0];
      [ rewrite bool_decide_eq_false_2 in H by (intros ?; done); done
      | rewrite bool_decide_eq_true_2 in H by done ]
  end;
  cbn -[list_create_element size_wrap Z.of_nat] in H; rewrite Hce in H.

Lemma list_add_inv s e size m r s' :
  list_add e size m s = Some (r, s') →
  (r = -1 ∧ s' = s) ∨ (e ≠ NULL ∧ alloc_ok s e size m).
Proof.
  intros H. destruct (list_create_element e size m s) as [[le s1]|] eqn:Hce.
  - destruct (list_create_element_cases _ _ _ _ _ _ Hce) as [He [(-> & -> & _)|Hok]];
      [|by right].
    left. unfold list_add in H. add_inv_tac Hce H. by injection H as <- <-.
  - unfold list_add in H. add_inv_tac Hce H. done.
Qed.

Lemma list_add_head_inv s e size m r s' :
  list_add_head e size m s = Some (r, s') →
  (r = -1 ∧ s' = s) ∨ (e ≠ NULL ∧ alloc_ok s e size m).
Proof.
  intros H. destruct (list_create_element e size m s) as [[le s1]|] eqn:Hce.
  - destruct (list_create_element_cases _ _ _ _ _ _ Hce) as [He [(-> & -> & _)|Hok]];
      [|by right].
    left. unfold list_add_head in H. add_inv_tac Hce H. by injection H as <- <-.
  - unfold list_add_head in H. add_inv_tac Hce H. done.
Qed.

Lemma list_add_tail_inv s e size m r s' :
  list_add_tail e size m s = Some (r, s') →
  (r = -1 ∧ s' = s) ∨ (e ≠ NULL ∧ alloc_ok s e size m).
Proof.
  intros H. destruct (list_create_element e size m s) as [[le s1]|] eqn:Hce.
  - destruct (list_create_element_cases _ _ _ _ _ _ Hce) as [He [(-> & -> & _)|Hok]];
      [|by right].
    left. unfold list_add_tail in H. add_inv_tac Hce H. by injection H as <- <-.
  - unfold list_add_tail in H. add_inv_tac Hce H. done.
Qed.

Lemma add_chain_split s e size m ns :
  ∃ la lb, ns = la ++ lb ∧
    add_chain s e size m ns = la ++ (m_node m, new_payload s e m) :: lb.
Proof.
  unfold add_chain. destruct (l_sort (lst s)) as [sort|].
  - destruct (insert_before_split (λ q, sort (new_mem s e size m) q e)
                (m_node m, new_payload s e m) ns) as (la & lb & ? & ? & _).
    by exists la, lb.
  - exists ns, []. by rewrite app_nil_r.
Qed.

Lemma repr_after_add s ns la lb e size m :
  repr s ns → ns = la ++ lb → e ≠ NULL → alloc_ok s e size m →
  repr (conc (la ++ (m_node m, new_payload s e m) :: lb)
          (if ns is [] then m_node m else l_curr (lst s))
          (l_alloc (lst s)) (l_sort (lst s)) (new_mem s e size m))
       (la ++ (m_node m, new_payload s e m) :: lb).
Proof.
  intros Hr -> He Hok. apply repr_insert; try done.
  destruct Hr as (_ & _ & _ & _ & Hcur & _).
  destruct (la ++ lb) eqn:Heq.
  - right. rewrite fmap_app, fmap_cons. apply elem_of_app. right. left.
  - destruct Hcur as [?|Hin]; [by left|]. right.
    rewrite fmap_app, fmap_cons, elem_of_app, elem_of_cons.
    rewrite <-Heq, fmap_app, elem_of_app in Hin. tauto.
Qed.

Lemma length_insert_mid {A} (la lb : list A) x :
  Z.of_nat (length (la ++ x :: lb)) = Z.of_nat (length (la ++ lb)) + 1.
Proof. rewrite !length_app. simpl. lia. Qed.

Lemma run_call_repr s ns c r s' :
  repr s ns → run_call c s = Some (r, s') →
  ∃ ns', repr s' ns' ∧
    Z.of_nat (length ns')
    = Z.of_nat (length ns) + (if add_succeeded c r then 1 else 0)
      - (if remove_succeeded c s then 1 else 0).
Proof.
  intros Hr H. pose proof (payloads_repr _ _ Hr) as Hpl.
  destruct c as [e size m|e size m|e size m| | | | | |e| |]; simpl in H;
    unfold remove_succeeded, add_succeeded; rewrite ?Hpl.
  - (* list_add *)
    destruct (list_add_inv _ _ _ _ _ _ H) as [[-> ->]|[He Hok]].
    { exists ns. split; [done|]. rewrite bool_decide_eq_false_2 by done. lia. }
    rewrite (list_add_repr _ _ _ _ _ Hr He Hok) in H. injection H as <- <-.
    destruct (add_chain_split s e size m ns) as (la & lb & Hns & ->).
    eexists. split; [by apply repr_after_add|].
    rewrite bool_decide_eq_true_2 by done. rewrite Hns, length_insert_mid. lia.
  - (* list_add_head *)
    destruct (list_add_head_inv _ _ _ _ _ _ H) as [[-> ->]|[He Hok]].
    { exists ns. split; [done|]. rewrite bool_decide_eq_false_2 by done. lia. }
    rewrite (list_add_head_repr _ _ _ _ _ Hr He Hok) in H. injection H as <- <-.
    eexists. split; [by apply (repr_after_add s ns [] ns)|].
    rewrite bool_decide_eq_true_2 by done. simpl length. lia.
  - (* list_add_tail *)
    destruct (list_add_tail_inv _ _ _ _ _ _ H) as [[-> ->]|[He Hok]].
    { exists ns. split; [done|]. rewrite bool_decide_eq_false_2 by done. lia. }
    rewrite (list_add_tail_repr _ _ _ _ _ Hr He Hok) in H. injection H as <- <-.
    eexists. split; [apply (repr_after_add s ns ns []); by rewrite ?app_nil_r|].
    rewrite bool_decide_eq_true_2 by done. rewrite length_insert_mid, app_nil_r. lia.
  - (* list_get_count *)
    rewrite (list_get_count_repr _ _ Hr) in H. injection H as <- <-.
    exists ns. split; [done|lia].
  - (* list_get_head *)
    rewrite (list_get_head_repr _ _ Hr) in H. injection H as <- <-.
    exists ns. split; [|lia]. destruct Hr as (_ & ? & ? & ? & _ & ?).
    apply repr_conc; try done. apply hd_addr_cases.
  - (* list_get_tail *)
    rewrite (list_get_tail_repr _ _ Hr) in H. injection H as <- <-.
    exists ns. split; [|lia]. destruct Hr as (_ & ? & ? & ? & _ & ?).
    apply repr_conc; try done. apply last_addr_cases.
  - (* list_get_next *)
    exists ns. split; [|lia].
    pose proof Hr as (_ & Hnd & Hrange & Hpay & [Hc|Hc] & Hal).
    { rewrite (list_get_next_off _ _ Hr Hc) in H. by injection H as <- <-. }
    apply elem_fst_split in Hc as (la & n & lb & -> & Hc).
    rewrite (list_get_next_at _ _ _ _ Hr (eq_sym Hc)) in H. injection H as <- <-.
    apply repr_conc; try done.
    destruct (hd_addr_cases 0 lb) as [?|Hin]; [by left|]. right.
    rewrite fmap_app, fmap_cons, elem_of_app, elem_of_cons. tauto.
  - (* list_get_prev *)
    exists ns. split; [|lia].
    pose proof Hr as (_ & Hnd & Hrange & Hpay & [Hc|Hc] & Hal).
    { rewrite (list_get_prev_off _ _ Hr Hc) in H. by injection H as <- <-. }
    apply elem_fst_split in Hc as (la & n & lb & -> & Hc).
    rewrite (list_get_prev_at _ _ _ _ Hr (eq_sym Hc)) in H. injection H as <- <-.
    apply repr_conc; try done.
    destruct (last_addr_cases 0 la) as [?|Hin]; [by left|]. right.
    rewrite fmap_app, elem_of_app. tauto.
  - (* list_remove *)
    destruct (decide (e ∈ ns.*2)) as [Hin|Hout].
    + apply first_payload_split in Hin as Hsp. destruct Hsp as (la & t & lb & -> & <- & Hla).
      rewrite (list_remove_present _ _ _ _ Hr Hla) in H. injection H as <- <-.
      exists (la ++ lb). rewrite bool_decide_eq_true_2 by done.
      split; [|rewrite length_insert_mid; lia].
      pose proof Hr as (_ & _ & _ & _ & Hcur & Hal).
      eapply repr_delete; [done| |].
      * apply cursor_after_delete; [done|].
        destruct (last_addr_cases 0 la) as [?|?]; [by left|]. right.
        rewrite fmap_app, elem_of_app. tauto.
      * intros Ha. rewrite Ha. destruct (Hal Ha) as [Hnd2 Hlive].
        assert (Hperm : la ++ t :: lb ≡ₚ t :: (la ++ lb)) by (by rewrite Permutation_middle).
        rewrite Hperm, fmap_cons in Hnd2, Hlive.
        apply NoDup_cons in Hnd2 as [Hnot _]. apply Forall_cons in Hlive as [_ Hlive].
        rewrite Forall_forall in Hlive |- *. intros q Hq.
        rewrite lookup_delete_ne; [by apply Hlive|]. intros Heq. apply Hnot. by rewrite Heq.
    + rewrite (list_remove_absent _ _ _ Hr Hout) in H. injection H as <- <-.
      exists ns. rewrite bool_decide_eq_false_2 by done. split; [done|lia].
  - (* list_remove_head *)
    destruct ns as [|t lb].
    + rewrite (list_remove_head_empty _ Hr) in H. injection H as <- <-.
      exists []. rewrite bool_decide_eq_false_2 by (intros ?; done). split; [done|simpl; lia].
    + rewrite (list_remove_head_repr _ _ _ Hr) in H. injection H as <- <-.
      exists lb. rewrite bool_decide_eq_true_2 by done.
      split; [|simpl length; lia].
      pose proof Hr as (_ & _ & _ & _ & Hcur & Hal).
      eapply (repr_delete s [] t lb); [done| |].
      * apply (cursor_after_delete [] t lb); [done|]. apply hd_addr_cases.
      * intros Ha. destruct (Hal Ha) as [_ Hlive]. by apply Forall_cons in Hlive as [_ ?].
  - (* list_remove_tail *)
    destruct (decide (ns = [])) as [->|Hne].
    + rewrite (list_remove_tail_empty _ Hr) in H. injection H as <- <-.
      exists []. rewrite bool_decide_eq_false_2 by (intros ?; done). split; [done|simpl; lia].
    + apply snoc_inv in Hne as (la & t & ->).
      rewrite (list_remove_tail_repr _ _ _ Hr) in H. injection H as <- <-.
      exists la. rewrite bool_decide_eq_true_2 by (by destruct la).
      split; [|rewrite length_insert_mid, app_nil_r; lia].
      pose proof Hr as (_ & _ & _ & _ & Hcur & Hal).
      pose proof (repr_delete s la t []
        (if decide (l_curr (lst s) = t.1) then last_addr 0 la else l_curr (lst s))
        (mem s) Hr) as Hd.
      pose proof (cursor_after_delete la t [] (l_curr (lst s)) (last_addr 0 la) Hcur) as Hc.
      rewrite !app_nil_r in Hd, Hc. apply Hd.
      * apply Hc. apply last_addr_cases.
      * intros Ha. destruct (Hal Ha) as [_ Hlive].
        rewrite fmap_app in Hlive. by apply Forall_app in Hlive as [? _].
Qed.

Lemma list_create_repr m0 alloc sort p s :
  list_create m0 alloc sort p = Some s → repr s [].
Proof.
  unfold list_create. case_decide; [done|]. intros [= <-].
  apply (repr_conc [] 0 alloc sort m0);
    [constructor|constructor|constructor|by left|intros _; split; constructor].
Qed.

Lemma reachable_wf s : reachable s → wf s.
Proof.
  induction 1 as [m0 alloc sort p s Hc|s c r s' _ [ns Hr] Hcall|s m' _ [ns Hr] Hlive].
  - exists []. by eapply list_create_repr.
  - destruct (run_call_repr _ _ _ _ _ Hr Hcall) as (ns' & Hr' & _). by exists ns'.
  - exists ns. pose proof (chain_repr _ _ Hr) as Hch.
    pose proof Hr as (Hs & Hnd & Hrange & Hpay & Hcur & Hal).
    rewrite Hs. cbn [conc heap lst mem l_curr l_alloc l_sort].
    apply (repr_conc ns); try done.
    intros Ha. split; [by apply Hal|].
    apply Forall_forall. intros q Hq. by eapply Hlive.
Qed.

(** ** Teardown *)

Lemma lookup_delete_all {A} (qs : list Z) (m : gmap Z A) i :
  delete_all qs m !! i = if decide (i ∈ qs) then None else m !! i.
Proof.
  induction qs as [|q qs IH].
  - case_decide as Hin; [by apply elem_of_nil in Hin|done].
  - change (delete_all (q :: qs) m) with (delete q (delete_all qs m)).
    rewrite lookup_delete, IH.
    destruct (decide (q = i)) as [->|Hne].
    + rewrite decide_True; [done|]. left.
    + destruct (decide (i ∈ qs)) as [Hin|Hout].
      * rewrite decide_True; [done|]. by right.
      * rewrite decide_False; [done|]. rewrite not_elem_of_cons. by split.
Qed.

Lemma delete_all_snoc {A} (qs : list Z) q (m : gmap Z A) :
  delete_all (qs ++ [q]) m = delete q (delete_all qs m).
Proof.
  apply map_eq. intros i.
  rewrite lookup_delete, !lookup_delete_all.
  destruct (decide (q = i)) as [->|Hne].
  - rewrite decide_True; [done|]. apply elem_of_app. right. left.
  - destruct (decide (i ∈ qs)) as [Hin|Hout].
    + rewrite decide_True; [done|]. apply elem_of_app. by left.
    + rewrite decide_False; [done|].
      rewrite not_elem_of_app, list_elem_of_singleton. by split.
Qed.

Lemma delete_all_build pv ns nx : delete_all ns.*1 (build pv ns nx) = ∅.
Proof.
  apply map_eq. intros i. rewrite lookup_delete_all, lookup_empty.
  case_decide as Hin; [done|]. by apply lookup_build_None.
Qed.

Lemma list_release_loop_spec ns mm fi la' cu co (al : bool) so se lb : ∀ la fuel,
  NoDup ns.*1 → Forall (λ a, 0 < a ≤ SIZE_MAX) ns.*1 → Forall (λ q, q ≠ NULL) ns.*2 →
  (al = true → NoDup ns.*2 ∧ Forall (λ q, is_Some (mm !! q)) ns.*2) →
  ns = la ++ lb → (length lb < fuel)%nat →
  list_release_loop fuel (hd_addr lb NULL)
    (mk_state (delete_all la.*1 (build NULL ns NULL))
       (if al then delete_all la.*2 mm else mm)
       (mk_list fi la' cu co al so se))
  = Some (tt,
      mk_state ∅ (if al then delete_all ns.*2 mm else mm)
        (mk_list fi la' cu co al so se)).
Proof.
  induction lb as [|n lb IH]; intros la fuel Hnd Hrange Hpay Hal Hns Hfuel.
  - destruct fuel; [simpl in Hfuel; lia|]. rewrite app_nil_r in Hns. subst la.
    cbn [list_release_loop hd_addr]. rewrite decide_True by done.
    by rewrite delete_all_build.
  - destruct fuel as [|fuel]; [simpl in Hfuel; lia|]. simpl in Hfuel.
    assert (Hn1 : 0 < n.1 ≤ SIZE_MAX) by (subst ns; by eapply Forall_fst_mid).
    assert (Hn2 : n.2 ≠ 0).
    { subst ns. rewrite Forall_forall in Hpay. apply Hpay.
      rewrite fmap_app, fmap_cons. apply elem_of_app. right. left. }
    assert (Hnla : n.1 ∉ la.*1) by (subst ns; by apply NoDup_mid_notin in Hnd as [? _]).
    assert (Hlook : delete_all la.*1 (build 0 ns 0) !! n.1
                    = Some (mk_element (last_addr 0 la) (hd_addr lb 0) n.2)).
    { rewrite lookup_delete_all, decide_False by done. by apply lookup_build_at. }
    cbn [list_release_loop hd_addr]. rewrite decide_False by lia.
    munfold. cbn [heap mem lst]. rewrite Hlook. cbn -[Z.of_nat].
    specialize (IH (la ++ [n]) fuel Hnd Hrange Hpay Hal).
    rewrite <-app_assoc in IH. specialize (IH Hns ltac:(lia)).
    rewrite !fmap_app in IH. simpl in IH. rewrite !delete_all_snoc in IH.
    destruct al.
    + destruct (Hal eq_refl) as [Hnd2 Hlive].
      assert (Hmem : is_Some (delete_all la.*2 mm !! n.2)).
      { rewrite lookup_delete_all, decide_False.
        - rewrite Forall_forall in Hlive. apply Hlive. subst ns.
          rewrite fmap_app, fmap_cons. apply elem_of_app. right. left.
        - subst ns. rewrite fmap_app, fmap_cons in Hnd2.
          apply NoDup_app in Hnd2 as (_ & Hd & _). intros Hin.
          apply (Hd _ Hin). left. }
      destruct Hmem as [bs Hbs].
      rewrite bool_decide_eq_true_2 by done. cbn -[Z.of_nat].
      rewrite Hbs. cbn -[Z.of_nat]. rewrite Hlook. cbn -[Z.of_nat]. apply IH.
    + cbn -[Z.of_nat]. rewrite Hlook. cbn -[Z.of_nat]. apply IH.
Qed.

(** [list_release] returns: it frees every element of the list and, in
    [alloc] mode, the copy each of them holds, each block once. *)
Lemma list_release_repr s ns :
  repr s ns →
  list_release s
  = Some (∅, if l_alloc (lst s) then delete_all ns.*2 (mem s) else mem s).
Proof.
  intros Hr. repr_open Hr cur al so mm. destruct Hr as (Hnd & Hrange & Hpay & _ & Hal).
  assert (Hfuel : (length ns < S (size (build 0 ns 0)))%nat)
    by (rewrite size_build by done; lia).
  pose proof (list_release_loop_spec ns mm (hd_addr ns 0) (last_addr 0 ns) cur
                (Z.of_nat (length ns)) al so (1 - 1) ns [] _ Hnd Hrange Hpay Hal eq_refl Hfuel)
    as Hloop.
  unfold list_release. munfold. msimpl.
  destruct al; cbn -[list_release_loop size Z.of_nat Z.sub] in Hloop; by rewrite Hloop.
Qed.

(** * The properties of the specification *)

Lemma hd_addr_null (ns : list (Z * Z)) :
  Forall (λ a, 0 < a ≤ SIZE_MAX) ns.*1 → hd_addr ns NULL = NULL ↔ ns = [].
Proof.
  destruct ns as [|n ns]; [done|]. intros Hr. apply Forall_cons in Hr as [? _].
  simpl. split; [lia|done].
Qed.

Lemma last_addr_null (ns : list (Z * Z)) :
  Forall (λ a, 0 < a ≤ SIZE_MAX) ns.*1 → last_addr NULL ns = NULL ↔ ns = [].
Proof.
  intros Hr. split; [|by intros ->].
  destruct (decide (ns = [])) as [|Hne]; [done|]. intros Heq.
  apply (last_addr_elem 0) in Hne. rewrite Heq in Hne.
  rewrite Forall_forall in Hr. apply Hr in Hne. lia.
Qed.

Lemma repr_ends_agree s ns : repr s ns → ends_agree s.
Proof.
  intros Hr. repr_open Hr cur al so mm. destruct Hr as (_ & Hrange & _).
  unfold ends_agree. cbn [conc lst l_first l_last l_count].
  rewrite hd_addr_null, last_addr_null by done.
  split; [done|]. destruct ns; simpl; split; (done || lia).
Qed.

(** C4: in every state a client can reach, [first] is [NULL] iff [last] is
    [NULL] iff [count] is 0, and every public call (the three insertions,
    the three removals, the queries and the cursor moves) that returns
    leaves a state where this holds again. *)
Theorem ends_agree_invariant s :
  reachable s →
  ends_agree s ∧ ∀ c r s', run_call c s = Some (r, s') → ends_agree s'.
Proof.
  intros Hreach. split.
  - destruct (reachable_wf _ Hreach) as [ns Hr]. by eapply repr_ends_agree.
  - intros c r s' Hc.
    destruct (reachable_wf s' (reach_call _ _ _ _ Hreach Hc)) as [ns Hr].
    by eapply repr_ends_agree.
Qed.

(** C9: on a freshly created list, [list_get_head], [list_get_tail],
    [list_get_next], [list_get_prev], [list_remove_head] and
    [list_remove_tail] all return [NULL] and leave the state as it is, with
    [count] 0. *)
Theorem fresh_list_boundary m0 alloc sort p s :
  list_create m0 alloc sort p = Some s →
  list_get_head s = Some (NULL, s) ∧
  list_get_tail s = Some (NULL, s) ∧
  list_get_next s = Some (NULL, s) ∧
  list_get_prev s = Some (NULL, s) ∧
  list_remove_head s = Some (NULL, s) ∧
  list_remove_tail s = Some (NULL, s) ∧
  list_get_count s = Some (0, s) ∧
  l_count (lst s) = 0.
Proof.
  intros Hc. pose proof (list_create_repr _ _ _ _ _ Hc) as Hr.
  unfold list_create in Hc. case_decide; [done|]. injection Hc as <-.
  split_and!.
  - by rewrite (list_get_head_repr _ _ Hr).
  - by rewrite (list_get_tail_repr _ _ Hr).
  - by apply (list_get_next_off _ _ Hr).
  - by apply (list_get_prev_off _ _ Hr).
  - by apply list_remove_head_empty.
  - by apply list_remove_tail_empty.
  - by rewrite (list_get_count_repr _ _ Hr).
  - done.
Qed.

Lemma last_addr_split (ns : list (Z * Z)) :
  NoDup ns.*1 → ∀ la n lb, ns = la ++ n :: lb → n.1 = last_addr NULL ns → lb = [].
Proof.
  intros Hnd la n lb -> Heq. rewrite last_addr_app in Heq. cbn [last_addr] in Heq.
  destruct (decide (lb = [])) as [|Hne]; [done|]. exfalso.
  apply NoDup_mid_notin in Hnd as [_ Hn]. by apply (last_addr_tail_ne n lb).
Qed.

Lemma hd_addr_split (ns : list (Z * Z)) :
  NoDup ns.*1 → ∀ la n lb, ns = la ++ n :: lb → n.1 = hd_addr ns NULL → la = [].
Proof.
  intros Hnd la n lb -> Heq. destruct (decide (la = [])) as [|Hne]; [done|]. exfalso.
  apply NoDup_mid_notin in Hnd as [Hn _]. apply Hn. rewrite Heq, hd_addr_app.
  destruct la; [done|]. left.
Qed.

Lemma repr_with_curr s ns c :
  repr s ns →
  with_curr c s = conc ns c (l_alloc (lst s)) (l_sort (lst s)) (mem s).
Proof. intros Hr. by repr_open Hr cur al so mm. Qed.

(** C10: when the cursor is on the tail, [list_get_next] returns [NULL] and
    leaves the cursor [NULL] (nothing else changes), and from there
    [list_get_prev] and [list_get_next] return [NULL] and change nothing: the
    tail is not recovered.  The same holds at the other end: from the head,
    [list_get_prev] loses the position and [list_get_next] does not recover
    it. *)
Theorem cursor_lost_off_the_end s :
  reachable s → l_curr (lst s) ≠ NULL →
  (l_curr (lst s) = l_last (lst s) →
     list_get_next s = Some (NULL, with_curr NULL s) ∧
     list_get_prev (with_curr NULL s) = Some (NULL, with_curr NULL s) ∧
     list_get_next (with_curr NULL s) = Some (NULL, with_curr NULL s)) ∧
  (l_curr (lst s) = l_first (lst s) →
     list_get_prev s = Some (NULL, with_curr NULL s) ∧
     list_get_next (with_curr NULL s) = Some (NULL, with_curr NULL s) ∧
     list_get_prev (with_curr NULL s) = Some (NULL, with_curr NULL s)).
Proof.
  intros Hreach Hc0. destruct (reachable_wf _ Hreach) as [ns Hr].
  pose proof Hr as (Hs & Hnd & Hrange & Hpay & [Hcur|Hcur] & Hal); [done|].
  apply elem_fst_split in Hcur as (la & n & lb & Hns & Hn).
  assert (Hoff : repr (with_curr 0 s) ns).
  { rewrite (repr_with_curr _ _ _ Hr). apply repr_conc; try done. by left. }
  assert (Hoff_next : list_get_next (with_curr 0 s) = Some (0, with_curr 0 s))
    by (by apply (list_get_next_off _ ns)).
  assert (Hoff_prev : list_get_prev (with_curr 0 s) = Some (0, with_curr 0 s))
    by (by apply (list_get_prev_off _ ns)).
  split; intros Hend; (split_and!; [|done|done]).
  - rewrite Hs in Hend. cbn [conc lst l_curr l_last] in Hend. rewrite <-Hn in Hend.
    pose proof (last_addr_split ns Hnd la n lb Hns Hend) as ->. subst ns.
    by rewrite (list_get_next_at s la n [] Hr (eq_sym Hn)), (repr_with_curr _ _ _ Hr).
  - rewrite Hs in Hend. cbn [conc lst l_curr l_first] in Hend. rewrite <-Hn in Hend.
    pose proof (hd_addr_split ns Hnd la n lb Hns Hend) as ->. subst ns.
    by rewrite (list_get_prev_at s [] n lb Hr (eq_sym Hn)), (repr_with_curr _ _ _ Hr).
Qed.

(** C8: [list_remove] with a pointer that is the payload of no element
    returns [NULL] and leaves the whole state as it was; with a pointer that
    is the payload of an element it returns and [count] has gone down by
    exactly 1. *)
Theorem remove_absent_or_present s e :
  reachable s →
  (e ∉ payloads s → list_remove e s = Some (NULL, s)) ∧
  (e ∈ payloads s →
     ∃ r s', list_remove e s = Some (r, s') ∧
       l_count (lst s') = l_count (lst s) - 1).
Proof.
  intros Hreach. destruct (reachable_wf _ Hreach) as [ns Hr].
  rewrite (payloads_repr _ _ Hr). split; intros He.
  - by apply (list_remove_absent _ ns).
  - apply first_payload_split in He as (la & t & lb & -> & <- & Hla).
    rewrite (list_remove_present _ _ _ _ Hr Hla). eexists _, _. split; [done|].
    destruct Hr as (Hs & _). rewrite Hs.
    cbn [conc lst l_count]. rewrite !length_app. simpl. lia.
Qed.

Lemma list_create_element_fails s e size m :
  e ≠ NULL → alloc_fails s m → list_create_element e size m s = Some (NULL, s).
Proof.
  intros He [Hn|(Ha & Hf & Hc)].
  - by apply list_create_element_node_fails.
  - by apply list_create_element_copy_fails.
Qed.

Lemma adds_fail_unchanged s e size m :
  e ≠ NULL → alloc_fails s m →
  list_add e size m s = Some (-1, s) ∧
  list_add_head e size m s = Some (-1, s) ∧
  list_add_tail e size m s = Some (-1, s).
Proof.
  intros He Hf. pose proof (list_create_element_fails s e size m He Hf) as Hce.
  unfold list_add, list_add_head, list_add_tail. munfold.
  cbn -[list_create_element size_wrap Z.of_nat].
  rewrite bool_decide_eq_true_2 by done.
  cbn -[list_create_element size_wrap Z.of_nat]. by rewrite Hce.
Qed.

(** C6: when an allocation of an insertion fails, for the element or (in
    [alloc] mode) for the copy of the payload, [list_add], [list_add_head]
    and [list_add_tail] return -1 and the state after the call is the state
    before it: [first], [last], [curr], [count], the chain and the payload
    memory are untouched. *)
Theorem add_allocation_failure s e size m :
  e ≠ NULL → alloc_fails s m →
  list_add e size m s = Some (-1, s) ∧
  list_add_head e size m s = Some (-1, s) ∧
  list_add_tail e size m s = Some (-1, s).
Proof. apply adds_fail_unchanged. Qed.

(** C7: on a list created without [sort] callback, [list_add] is
    [list_add_tail]: for every element pointer, size and answer of the
    allocator the two calls have the same outcome (result and state).  In
    particular adding "x", "y", "z" with [list_add] and iterating with
    [list_get_head] and [list_get_next] yields "x", "y", "z" and then
    [NULL]. *)
Theorem add_without_sort_is_add_tail :
  (∀ s e size m,
     reachable s → l_sort (lst s) = None →
     list_add e size m s = list_add_tail e size m s) ∧
  (plain_list ≫= results
     [Add ptr_x 8 node_1; Add ptr_y 8 node_2; Add ptr_z 8 node_3;
      GetHead; GetNext; GetNext; GetNext])
  = Some [0; 0; 0; ptr_x; ptr_y; ptr_z; NULL].
Proof.
  split; [|by vm_compute].
  intros s e size m Hreach Hsort. destruct (reachable_wf _ Hreach) as [ns Hr].
  destruct (list_create_element e size m s) as [[le s1]|] eqn:Hce.
  - destruct (list_create_element_cases _ _ _ _ _ _ Hce) as [He [(-> & -> & _)|Hok]].
    + unfold list_add, list_add_tail. munfold.
      cbn -[list_create_element size_wrap Z.of_nat].
      rewrite bool_decide_eq_true_2 by done.
      cbn -[list_create_element size_wrap Z.of_nat]. by rewrite Hce.
    + rewrite (list_add_repr _ _ _ _ _ Hr He Hok), (list_add_tail_repr _ _ _ _ _ Hr He Hok).
      unfold add_chain. by rewrite Hsort.
  - unfold list_add, list_add_tail. munfold.
    cbn -[list_create_element size_wrap Z.of_nat].
    destruct (bool_decide (e ≠ 0)); cbn -[list_create_element size_wrap Z.of_nat];
      [by rewrite Hce|done].
Qed.


Lemma run_calls_count cs : ∀ s ns a r s' a' r',
  repr s ns → run_calls cs s a r = Some (s', a', r') →
  ∃ ns', repr s' ns' ∧
    Z.of_nat (length ns') - (a' - r') = Z.of_nat (length ns) - (a - r).
Proof.
  induction cs as [|c cs IH]; intros s ns a r s' a' r' Hr Hrun; simpl in Hrun.
  - injection Hrun as <- <- <-. by exists ns.
  - destruct (run_call c s) as [[x s1]|] eqn:Hc; [|done].
    destruct (run_call_repr _ _ _ _ _ Hr Hc) as (ns1 & Hr1 & Hlen).
    destruct (IH _ _ _ _ _ _ _ Hr1 Hrun) as (ns' & Hr' & Hlen').
    exists ns'. split; [done|]. lia.
Qed.

(** Every call on a well-formed list returns, as long as the element
    pointer of an insertion is not null and the allocator keeps its
    contract. *)
Lemma run_call_returns s c :
  wf s → call_ok c s → ∃ r s', run_call c s = Some (r, s').
Proof.
  intros [ns Hr] Hok.
  destruct c as [e size m|e size m|e size m| | | | | |e| |]; simpl in *.
  - destruct Hok as [He [Hf|Ha]].
    + destruct (adds_fail_unchanged s e size m He Hf) as (-> & _). by eexists _, _.
    + rewrite (list_add_repr _ _ _ _ _ Hr He Ha). by eexists _, _.
  - destruct Hok as [He [Hf|Ha]].
    + destruct (adds_fail_unchanged s e size m He Hf) as (_ & -> & _). by eexists _, _.
    + rewrite (list_add_head_repr _ _ _ _ _ Hr He Ha). by eexists _, _.
  - destruct Hok as [He [Hf|Ha]].
    + destruct (adds_fail_unchanged s e size m He Hf) as (_ & _ & ->). by eexists _, _.
    + rewrite (list_add_tail_repr _ _ _ _ _ Hr He Ha). by eexists _, _.
  - rewrite (list_get_count_repr _ _ Hr). by eexists _, _.
  - rewrite (list_get_head_repr _ _ Hr). by eexists _, _.
  - rewrite (list_get_tail_repr _ _ Hr). by eexists _, _.
  - pose proof Hr as (_ & _ & _ & _ & [Hc|Hc] & _).
    + rewrite (list_get_next_off _ _ Hr Hc). by eexists _, _.
    + apply elem_fst_split in Hc as (la & n & lb & -> & Hc).
      rewrite (list_get_next_at _ _ _ _ Hr (eq_sym Hc)). by eexists _, _.
  - pose proof Hr as (_ & _ & _ & _ & [Hc|Hc] & _).
    + rewrite (list_get_prev_off _ _ Hr Hc). by eexists _, _.
    + apply elem_fst_split in Hc as (la & n & lb & -> & Hc).
      rewrite (list_get_prev_at _ _ _ _ Hr (eq_sym Hc)). by eexists _, _.
  - destruct (decide (e ∈ ns.*2)) as [Hin|Hout].
    + apply first_payload_split in Hin as (la & t & lb & -> & <- & Hla).
      rewrite (list_remove_present _ _ _ _ Hr Hla). by eexists _, _.
    + rewrite (list_remove_absent _ _ _ Hr Hout). by eexists _, _.
  - destruct ns as [|t lb].
    + rewrite (list_remove_head_empty _ Hr). by eexists _, _.
    + rewrite (list_remove_head_repr _ _ _ Hr). by eexists _, _.
  - destruct (decide (ns = [])) as [->|Hne].
    + rewrite (list_remove_tail_empty _ Hr). by eexists _, _.
    + apply snoc_inv in Hne as (la & t & ->).
      rewrite (list_remove_tail_repr _ _ _ Hr). by eexists _, _.
Qed.

Lemma run_calls_returns cs : ∀ s a r,
  wf s → calls_ok cs s → ∃ s' a' r', run_calls cs s a r = Some (s', a', r').
Proof.
  induction cs as [|c cs IH]; intros s a r Hwf Hok; simpl.
  - by eexists _, _, _.
  - destruct Hok as [Hc Hrest].
    destruct (run_call_returns s c Hwf Hc) as (x & s1 & Hrun). rewrite Hrun.
    destruct Hwf as [ns Hr].
    destruct (run_call_repr _ _ _ _ _ Hr Hrun) as (ns1 & Hr1 & _).
    apply IH; [by exists ns1|by eapply Hrest].
Qed.

(** C5: a sequence of calls on a freshly created list runs to its end when
    each call is made with a non-null element pointer and an allocator that
    keeps its contract; and after any sequence of calls that returned,
    [count] (and what [list_get_count] returns) is the number of successful
    insertions minus the number of successful removals, and the walk from
    [first] along [next] to [NULL] visits exactly that many elements. *)
Theorem count_is_adds_minus_removes m0 alloc sort p s0 cs :
  list_create m0 alloc sort p = Some s0 →
  (calls_ok cs s0 → ∃ s adds removes, run_calls cs s0 0 0 = Some (s, adds, removes)) ∧
  (∀ s adds removes,
     run_calls cs s0 0 0 = Some (s, adds, removes) →
     l_count (lst s) = adds - removes ∧
     list_get_count s = Some (adds - removes, s) ∧
     ∃ ns, chain s = Some ns ∧ Z.of_nat (length ns) = l_count (lst s)).
Proof.
  intros Hc. pose proof (list_create_repr _ _ _ _ _ Hc) as Hr0. split.
  { apply run_calls_returns. by exists []. }
  intros s adds removes Hrun.
  destruct (run_calls_count _ _ _ _ _ _ _ _ Hr0 Hrun) as (ns & Hr & Hlen).
  simpl in Hlen.
  assert (Hcount : l_count (lst s) = Z.of_nat (length ns)).
  { destruct Hr as (Hs & _). by rewrite Hs. }
  split_and!.
  - lia.
  - rewrite (list_get_count_repr _ _ Hr). do 2 f_equal. lia.
  - exists ns. split; [by apply chain_repr|done].
Qed.


(** C1: [list_remove] of a payload pointer held by the list returns the
    address of the element that follows the removed one, [NULL] when the
    removed element was the last: the value of [tmp->next], which is an
    element of the chain and not its payload.  On the list "x", "y",
    removing "x" returns the address of the second element, which is not the
    pointer "y". *)
Theorem list_remove_returns_next_element_address :
  (∀ s la t lb,
     reachable s → chain s = Some (la ++ t :: lb) → t.2 ∉ la.*2 →
     ∃ s', list_remove t.2 s = Some (hd_addr lb NULL, s')) ∧
  (plain_list ≫= results
     [AddTail ptr_x 8 node_1; AddTail ptr_y 8 node_2; Remove ptr_x])
  = Some [0; 0; m_node node_2] ∧
  m_node node_2 ≠ ptr_y.
Proof.
  split_and!; [|by vm_compute|by vm_compute].
  intros s la t lb Hreach Hch Hla.
  pose proof (repr_of_chain _ _ (reachable_wf _ Hreach) Hch) as Hr.
  rewrite (list_remove_present _ _ _ _ Hr Hla). by eexists.
Qed.

Lemma owned_one_reachable : reachable owned_one.
Proof.
  eapply (reach_call _ (AddTail ptr_x 2 owned_node_1) 0).
  - by apply (reach_create {[ptr_x := bytes_x]} true None 1024).
  - by vm_compute.
Qed.

(** C2, as stated, fails: in [alloc] mode [list_remove_head] and
    [list_remove_tail] do not free the payload copy of the element they
    remove.  On a reachable list in [alloc] mode whose only element holds
    the copy [copy_1], both return [copy_1] and the block is still
    allocated. *)
Lemma remove_head_tail_keep_payload_copy :
  reachable owned_one ∧ l_alloc (lst owned_one) = true ∧
  payloads owned_one = [copy_1] ∧
  ¬ removal_frees list_remove_head owned_one copy_1 ∧
  ¬ removal_frees list_remove_tail owned_one copy_1.
Proof.
  split_and!; [apply owned_one_reachable|done|by vm_compute| |].
  - intros Hf.
    destruct (Hf copy_1 (conc [] 0 true None (<[copy_1 := bytes_x]> {[ptr_x := bytes_x]})))
      as [_ Hnone]; [by vm_compute|]. by vm_compute in Hnone.
  - intros Hf.
    destruct (Hf copy_1 (conc [] 0 true None (<[copy_1 := bytes_x]> {[ptr_x := bytes_x]})))
      as [_ Hnone]; [by vm_compute|]. by vm_compute in Hnone.
Qed.

Lemma lookup_build_gone (la : list (Z * Z)) t lb pv' nx' :
  NoDup ((la ++ t :: lb).*1) → build pv' (la ++ lb) nx' !! t.1 = None.
Proof.
  intros Hnd. apply lookup_build_None. apply NoDup_mid_notin in Hnd as [? ?].
  rewrite fmap_app, not_elem_of_app. by split.
Qed.

(** C2, amended: in [alloc] mode, [list_remove] frees the element it
    removes and the list's copy of its payload; [list_remove_head] and
    [list_remove_tail] free the element only, return the pointer to the
    copy, and leave the payload memory as it was, the copy still allocated;
    [list_release] frees every element still in the list and the copy it
    holds, each once. *)
Theorem removal_frees_in_alloc_mode s :
  reachable s → l_alloc (lst s) = true →
  (∀ la t lb,
     chain s = Some (la ++ t :: lb) → t.2 ∉ la.*2 →
     ∃ r s', list_remove t.2 s = Some (r, s') ∧
       element_freed s s' t.1 ∧ block_freed s s' t.2 ∧
       mem s' = delete t.2 (mem s)) ∧
  (∀ t lb,
     chain s = Some (t :: lb) →
     ∃ s', list_remove_head s = Some (t.2, s') ∧
       element_freed s s' t.1 ∧ mem s' = mem s ∧ is_Some (mem s' !! t.2)) ∧
  (∀ la t,
     chain s = Some (la ++ [t]) →
     ∃ s', list_remove_tail s = Some (t.2, s') ∧
       element_freed s s' t.1 ∧ mem s' = mem s ∧ is_Some (mem s' !! t.2)) ∧
  (∀ ns,
     chain s = Some ns →
     list_release s = Some (∅, delete_all ns.*2 (mem s))).
Proof.
  intros Hreach Ha. pose proof (reachable_wf _ Hreach) as Hwf.
  assert (Hlive : ∀ la t lb, repr s (la ++ t :: lb) →
            is_Some (heap s !! t.1) ∧ is_Some (mem s !! t.2)).
  { intros la t lb Hr. pose proof Hr as (Hs & Hnd & _ & _ & _ & Hal).
    destruct (Hal Ha) as [_ Hl]. split.
    - rewrite Hs. cbn [conc heap]. rewrite lookup_build; [done|].
      by apply NoDup_mid_notin in Hnd as [? _].
    - rewrite Forall_forall in Hl. apply Hl.
      rewrite fmap_app, fmap_cons. apply elem_of_app. right. left. }
  split_and!.
  - intros la t lb Hch Hla. pose proof (repr_of_chain _ _ Hwf Hch) as Hr.
    destruct (Hlive _ _ _ Hr) as [Hnode Hblock].
    rewrite (list_remove_present _ _ _ _ Hr Hla), Ha. eexists _, _. split; [done|].
    cbn [conc heap mem]. destruct Hr as (_ & Hnd & _).
    split_and!; try done.
    + split; [done|]. by eapply lookup_build_gone.
    + split; [done|]. apply lookup_delete_eq.
  - intros t lb Hch. pose proof (repr_of_chain _ _ Hwf Hch) as Hr.
    destruct (Hlive [] _ _ Hr) as [Hnode Hblock].
    rewrite (list_remove_head_repr _ _ _ Hr). eexists. split; [done|].
    cbn [conc heap mem]. destruct Hr as (_ & Hnd & _).
    split_and!; try done. split; [done|]. by apply (lookup_build_gone [] t lb).
  - intros la t Hch. pose proof (repr_of_chain _ _ Hwf Hch) as Hr.
    destruct (Hlive _ _ _ Hr) as [Hnode Hblock].
    rewrite (list_remove_tail_repr _ _ _ Hr). eexists. split; [done|].
    cbn [conc heap mem]. destruct Hr as (_ & Hnd & _).
    split_and!; try done. split; [done|].
    pose proof (lookup_build_gone la t [] 0 0 Hnd) as Hg. by rewrite app_nil_r in Hg.
  - intros ns Hch. pose proof (repr_of_chain _ _ Hwf Hch) as Hr.
    by rewrite (list_release_repr _ _ Hr), Ha.
Qed.

(** C3: on a list with a [sort] callback, [list_add] links the new element
    immediately before the first element, walking from [first], for which
    the callback (called with that element's payload and the pointer [e])
    returns false, and after the last element when it returns true for all
    of them: the chain [ns] splits as [la ++ lb], the callback holds on all
    of [la] and fails on the head of [lb] if there is one, and the new chain
    is [la], the new element, [lb]. *)
Theorem add_sorted_position s ns e size m sort :
  reachable s → chain s = Some ns → l_sort (lst s) = Some sort →
  e ≠ NULL → alloc_ok s e size m →
  ∃ s' la lb,
    list_add e size m s = Some (0, s') ∧
    ns = la ++ lb ∧
    chain s' = Some (la ++ (m_node m, new_payload s e m) :: lb) ∧
    la ++ (m_node m, new_payload s e m) :: lb
      = insert_before (λ q, sort (mem s') q e) (m_node m, new_payload s e m) ns ∧
    Forall (λ n, sort (mem s') n.2 e = true) la ∧
    match lb with
    | [] => True
    | n :: _ => sort (mem s') n.2 e = false
    end.
Proof.
  intros Hreach Hch Hsort He Hok.
  pose proof (repr_of_chain _ _ (reachable_wf _ Hreach) Hch) as Hr.
  destruct (insert_before_split (λ q, sort (new_mem s e size m) q e)
              (m_node m, new_payload s e m) ns) as (la & lb & Hns & Hins & Hla & Hlb).
  assert (Hchain : add_chain s e size m ns = la ++ (m_node m, new_payload s e m) :: lb).
  { unfold add_chain. by rewrite Hsort. }
  eexists _, la, lb. split; [by apply list_add_repr|].
  rewrite Hchain. cbn [conc mem]. split_and!; try done.
  apply chain_repr. by apply repr_after_add.
Qed.

(** * The properties on the example lists *)

Lemma list_remove_returns_next_element_address_witness :
  reachable plain_xy ∧ chain plain_xy = Some ([] ++ (4096, ptr_x) :: [(8192, ptr_y)]) ∧
  ∃ s', list_remove ptr_x plain_xy = Some (8192, s').
Proof.
  assert (Hreach : reachable plain_xy).
  { eapply (reach_call _ (AddTail ptr_y 8 node_2) 0).
    - eapply (reach_call _ (AddTail ptr_x 8 node_1) 0).
      + apply (reach_create ∅ false None 1024). reflexivity.
      + vm_compute. reflexivity.
    - vm_compute. reflexivity. }
  assert (Hch : chain plain_xy = Some ([] ++ (4096, ptr_x) :: [(8192, ptr_y)]))
    by (vm_compute; reflexivity).
  split_and!; [done|done|].
  destruct list_remove_returns_next_element_address as (Hgen & _).
  apply (Hgen plain_xy [] (4096, ptr_x) [(8192, ptr_y)] Hreach Hch).
  simpl. apply not_elem_of_nil.
Defined.

Lemma removal_frees_in_alloc_mode_witness :
  reachable owned_one ∧ l_alloc (lst owned_one) = true ∧
  chain owned_one = Some [(4096, copy_1)] ∧
  ∃ s', list_remove_head owned_one = Some (copy_1, s') ∧
    element_freed owned_one s' 4096 ∧ mem s' = mem owned_one ∧
    is_Some (mem s' !! copy_1).
Proof.
  assert (Hreach : reachable owned_one).
  { eapply (reach_call _ (AddTail ptr_x 2 owned_node_1) 0).
    - apply (reach_create {[ptr_x := bytes_x]} true None 1024). reflexivity.
    - vm_compute. reflexivity. }
  assert (Hal : l_alloc (lst owned_one) = true) by reflexivity.
  assert (Hch : chain owned_one = Some [(4096, copy_1)]) by (vm_compute; reflexivity).
  split_and!; [done|done|done|].
  destruct (removal_frees_in_alloc_mode owned_one Hreach Hal) as (_ & Hhead & _).
  apply (Hhead (4096, copy_1) [] Hch).
Defined.

Lemma add_sorted_position_witness :
  reachable sorted_bc ∧
  chain sorted_bc = Some [(4096, ptr_x); (8192, ptr_y)] ∧
  l_sort (lst sorted_bc) = Some sort_strcmp ∧
  ptr_z ≠ NULL ∧ alloc_ok sorted_bc ptr_z 2 node_3 ∧
  ∃ s' la lb,
    list_add ptr_z 2 node_3 sorted_bc = Some (0, s') ∧
    [(4096, ptr_x); (8192, ptr_y)] = la ++ lb ∧
    chain s' = Some (la ++ (m_node node_3, new_payload sorted_bc ptr_z node_3) :: lb) ∧
    la ++ (m_node node_3, new_payload sorted_bc ptr_z node_3) :: lb
      = insert_before (λ q, sort_strcmp (mem s') q ptr_z)
          (m_node node_3, new_payload sorted_bc ptr_z node_3)
          [(4096, ptr_x); (8192, ptr_y)] ∧
    Forall (λ n, sort_strcmp (mem s') n.2 ptr_z = true) la ∧
    match lb with
    | [] => True
    | n :: _ => sort_strcmp (mem s') n.2 ptr_z = false
    end.
Proof.
  assert (Hreach : reachable sorted_bc).
  { eapply (reach_call _ (Add ptr_y 2 node_2) 0).
    - eapply (reach_call _ (Add ptr_x 2 node_1) 0).
      + apply (reach_create strings_bca false (Some sort_strcmp) 1024). reflexivity.
      + vm_compute. reflexivity.
    - vm_compute. reflexivity. }
  assert (Hch : chain sorted_bc = Some [(4096, ptr_x); (8192, ptr_y)]) by (vm_compute; reflexivity).
  assert (Hso : l_sort (lst sorted_bc) = Some sort_strcmp) by reflexivity.
  assert (He : ptr_z ≠ NULL) by (unfold ptr_z; lia).
  assert (Hok : alloc_ok sorted_bc ptr_z 2 node_3).
  { split; [|intros Ha; by vm_compute in Ha]. by vm_compute. }
  split_and!; [done..|].
  apply (add_sorted_position sorted_bc _ ptr_z 2 node_3 sort_strcmp Hreach Hch Hso He Hok).
Defined.

Lemma ends_agree_invariant_witness :
  reachable plain_xy ∧ ends_agree plain_xy ∧
  ∀ c r s', run_call c plain_xy = Some (r, s') → ends_agree s'.
Proof.
  assert (Hreach : reachable plain_xy).
  { eapply (reach_call _ (AddTail ptr_y 8 node_2) 0).
    - eapply (reach_call _ (AddTail ptr_x 8 node_1) 0).
      + apply (reach_create ∅ false None 1024). reflexivity.
      + vm_compute. reflexivity.
    - vm_compute. reflexivity. }
  split; [done|]. apply (ends_agree_invariant plain_xy Hreach).
Defined.

Lemma count_is_adds_minus_removes_witness :
  ∃ s0 s,
    list_create ∅ false None 1024 = Some s0 ∧
    run_calls [Add ptr_x 8 node_1; AddHead ptr_y 8 node_2; Remove ptr_z;
               RemoveTail; AddTail ptr_z 8 (mk_mallocs 0 0); GetHead;
               Add ptr_z 8 node_3] s0 0 0 = Some (s, 3, 1) ∧
    l_count (lst s) = 3 - 1 ∧
    list_get_count s = Some (3 - 1, s) ∧
    ∃ ns, chain s = Some ns ∧ Z.of_nat (length ns) = l_count (lst s).
Proof.
  eexists _, _.
  assert (Hc : list_create ∅ false None 1024
               = Some (mk_state ∅ ∅ (mk_list 0 0 0 0 false None 1))) by reflexivity.
  assert (Hrun : run_calls [Add ptr_x 8 node_1; AddHead ptr_y 8 node_2; Remove ptr_z;
               RemoveTail; AddTail ptr_z 8 (mk_mallocs 0 0); GetHead;
               Add ptr_z 8 node_3] (mk_state ∅ ∅ (mk_list 0 0 0 0 false None 1)) 0 0
             = Some (conc [(8192, ptr_y); (12288, ptr_z)] 8192 false None ∅, 3, 1))
    by (vm_compute; reflexivity).
  split; [exact Hc|]. split; [exact Hrun|].
  destruct (count_is_adds_minus_removes _ _ _ _ _
              [Add ptr_x 8 node_1; AddHead ptr_y 8 node_2; Remove ptr_z;
               RemoveTail; AddTail ptr_z 8 (mk_mallocs 0 0); GetHead;
               Add ptr_z 8 node_3] Hc) as [_ Hcount].
  apply (Hcount _ _ _ Hrun).
Defined.

Lemma add_allocation_failure_witness :
  ptr_y ≠ NULL ∧ alloc_fails owned_one (mk_mallocs 8192 0) ∧
  list_add ptr_y 2 (mk_mallocs 8192 0) owned_one = Some (-1, owned_one) ∧
  list_add_head ptr_y 2 (mk_mallocs 8192 0) owned_one = Some (-1, owned_one) ∧
  list_add_tail ptr_y 2 (mk_mallocs 8192 0) owned_one = Some (-1, owned_one).
Proof.
  assert (He : ptr_y ≠ NULL) by (unfold ptr_y; lia).
  assert (Hf : alloc_fails owned_one (mk_mallocs 8192 0)).
  { right. split_and!; [reflexivity| |reflexivity]. by vm_compute. }
  split; [done|]. split; [done|].
  apply (add_allocation_failure owned_one ptr_y 2 (mk_mallocs 8192 0) He Hf).
Defined.

Lemma add_without_sort_is_add_tail_witness :
  reachable plain_xy ∧ l_sort (lst plain_xy) = None ∧
  list_add ptr_z 8 node_3 plain_xy = list_add_tail ptr_z 8 node_3 plain_xy.
Proof.
  assert (Hreach : reachable plain_xy).
  { eapply (reach_call _ (AddTail ptr_y 8 node_2) 0).
    - eapply (reach_call _ (AddTail ptr_x 8 node_1) 0).
      + apply (reach_create ∅ false None 1024). reflexivity.
      + vm_compute. reflexivity.
    - vm_compute. reflexivity. }
  split; [done|]. split; [reflexivity|].
  destruct add_without_sort_is_add_tail as (Hgen & _).
  apply (Hgen plain_xy ptr_z 8 node_3 Hreach). reflexivity.
Defined.

Lemma remove_absent_or_present_witness :
  reachable plain_xy ∧
  (ptr_z ∉ payloads plain_xy) ∧
  list_remove ptr_z plain_xy = Some (NULL, plain_xy) ∧
  ptr_y ∈ payloads plain_xy ∧
  ∃ r s', list_remove ptr_y plain_xy = Some (r, s') ∧
    l_count (lst s') = l_count (lst plain_xy) - 1.
Proof.
  assert (Hreach : reachable plain_xy).
  { eapply (reach_call _ (AddTail ptr_y 8 node_2) 0).
    - eapply (reach_call _ (AddTail ptr_x 8 node_1) 0).
      + apply (reach_create ∅ false None 1024). reflexivity.
      + vm_compute. reflexivity.
    - vm_compute. reflexivity. }
  assert (Hp : payloads plain_xy = [ptr_x; ptr_y]) by (vm_compute; reflexivity).
  assert (Hout : ptr_z ∉ payloads plain_xy).
  { rewrite Hp, !not_elem_of_cons. unfold ptr_x, ptr_y, ptr_z.
    split_and!; [lia|lia|apply not_elem_of_nil]. }
  assert (Hin : ptr_y ∈ payloads plain_xy).
  { rewrite Hp. right. left. }
  split_and!; [exact Hreach|exact Hout| |exact Hin|].
  - apply (remove_absent_or_present plain_xy ptr_z Hreach). exact Hout.
  - apply (remove_absent_or_present plain_xy ptr_y Hreach). exact Hin.
Defined.

Lemma fresh_list_boundary_witness :
  list_create ∅ true (Some sort_strcmp) 1024
    = Some (mk_state ∅ ∅ (mk_list 0 0 0 0 true (Some sort_strcmp) 1)) ∧
  list_remove_head (mk_state ∅ ∅ (mk_list 0 0 0 0 true (Some sort_strcmp) 1))
    = Some (NULL, mk_state ∅ ∅ (mk_list 0 0 0 0 true (Some sort_strcmp) 1)).
Proof.
  assert (Hc : list_create ∅ true (Some sort_strcmp) 1024
    = Some (mk_state ∅ ∅ (mk_list 0 0 0 0 true (Some sort_strcmp) 1))) by reflexivity.
  split; [done|].
  apply (fresh_list_boundary _ _ _ _ _ Hc).
Defined.

Lemma cursor_lost_off_the_end_witness :
  reachable owned_one ∧ l_curr (lst owned_one) ≠ NULL ∧
  l_curr (lst owned_one) = l_last (lst owned_one) ∧
  list_get_next owned_one = Some (NULL, with_curr NULL owned_one) ∧
  list_get_prev (with_curr NULL owned_one) = Some (NULL, with_curr NULL owned_one) ∧
  list_get_next (with_curr NULL owned_one) = Some (NULL, with_curr NULL owned_one).
Proof.
  assert (Hreach : reachable owned_one).
  { eapply (reach_call _ (AddTail ptr_x 2 owned_node_1) 0).
    - apply (reach_create {[ptr_x := bytes_x]} true None 1024). reflexivity.
    - vm_compute. reflexivity. }
  assert (Hc : l_curr (lst owned_one) ≠ NULL) by (simpl; lia).
  split_and!; [done|done|reflexivity|..];
    apply (cursor_lost_off_the_end owned_one Hreach Hc); reflexivity.
Defined.

(** * Further properties of the code *)

(** ** The states a client can reach *)

Lemma reachable_repr s ns : reachable s → chain s = Some ns → repr s ns.
Proof. intros Hreach Hch. by apply repr_of_chain; [apply reachable_wf|]. Qed.

Lemma repr_count s ns : repr s ns → l_count (lst s) = Z.of_nat (length ns).
Proof. intros Hr. by repr_open Hr cur al so mm. Qed.

(** Moving the cursor within the chain keeps the list well formed. *)
Lemma repr_move s ns c :
  repr s ns → (c = NULL ∨ c ∈ ns.*1) →
  repr (conc ns c (l_alloc (lst s)) (l_sort (lst s)) (mem s)) ns.
Proof.
  intros (_ & Hnd & Hrange & Hpay & _ & Hown) Hc. by apply repr_conc.
Qed.

Lemma hd_addr_mid (la : list (Z * Z)) n lb :
  hd_addr lb NULL = NULL ∨ hd_addr lb NULL ∈ (la ++ n :: lb).*1.
Proof.
  destruct (hd_addr_cases 0 lb) as [?|Hin]; [by left|right].
  rewrite fmap_app, fmap_cons, elem_of_app, elem_of_cons. auto.
Qed.

Lemma last_addr_mid (la : list (Z * Z)) n lb :
  last_addr NULL la = NULL ∨ last_addr NULL la ∈ (la ++ n :: lb).*1.
Proof.
  destruct (last_addr_cases 0 la) as [?|Hin]; [by left|right].
  rewrite fmap_app, elem_of_app. auto.
Qed.

(** ** Insertion at the two ends *)

(** X1: on a list a client can reach, [list_add_head] with a non-null
    pointer and a served allocation returns 0 and links the new element in
    front of the chain; [count] grows by one; the cursor moves to the new
    element only when the list was empty; and a following [list_get_head]
    returns the payload just stored. *)
Theorem add_head_prepends s ns e size m :
  reachable s → chain s = Some ns → e ≠ NULL → alloc_ok s e size m →
  ∃ s', list_add_head e size m s = Some (0, s') ∧
    chain s' = Some ((m_node m, new_payload s e m) :: ns) ∧
    l_count (lst s') = l_count (lst s) + 1 ∧
    l_curr (lst s') = (if ns is [] then m_node m else l_curr (lst s)) ∧
    list_get_head s' = Some (new_payload s e m, with_curr (m_node m) s').
Proof.
  intros Hreach Hch He Hok. pose proof (reachable_repr _ _ Hreach Hch) as Hr.
  eexists. split; [by apply list_add_head_repr|].
  pose proof (repr_after_add s ns [] ns e size m Hr eq_refl He Hok) as Hr'.
  simpl in Hr'. split_and!.
  - by apply chain_repr.
  - rewrite (repr_count _ _ Hr). cbn [conc lst l_count length]. lia.
  - done.
  - by rewrite (list_get_head_repr _ _ Hr').
Qed.

(** X2: on a list a client can reach, [list_add_tail] with a non-null
    pointer and a served allocation returns 0 and links the new element
    behind the chain; [count] grows by one; the cursor moves to the new
    element only when the list was empty; and a following [list_get_tail]
    returns the payload just stored. *)
Theorem add_tail_appends s ns e size m :
  reachable s → chain s = Some ns → e ≠ NULL → alloc_ok s e size m →
  ∃ s', list_add_tail e size m s = Some (0, s') ∧
    chain s' = Some (ns ++ [(m_node m, new_payload s e m)]) ∧
    l_count (lst s') = l_count (lst s) + 1 ∧
    l_curr (lst s') = (if ns is [] then m_node m else l_curr (lst s)) ∧
    list_get_tail s' = Some (new_payload s e m, with_curr (m_node m) s').
Proof.
  intros Hreach Hch He Hok. pose proof (reachable_repr _ _ Hreach Hch) as Hr.
  eexists. split; [by apply list_add_tail_repr|].
  pose proof (repr_after_add s ns ns [] e size m Hr (eq_sym (app_nil_r ns)) He Hok) as Hr'.
  split_and!.
  - by apply chain_repr.
  - rewrite (repr_count _ _ Hr). cbn [conc lst l_count]. rewrite length_app. simpl. lia.
  - done.
  - rewrite (list_get_tail_repr _ _ Hr'). unfold with_curr. cbn [conc lst mem heap l_first l_last l_count l_alloc l_sort l_sem l_curr].
    rewrite last_payload_snoc. unfold conc. by rewrite !last_addr_snoc.
Qed.

(** ** Removal *)

(** The states the three removals leave hold the rest of the chain. *)
Lemma repr_after_remove s la t lb :
  repr s (la ++ t :: lb) →
  repr (conc (la ++ lb)
          (if decide (l_curr (lst s) = t.1) then last_addr NULL la else l_curr (lst s))
          (l_alloc (lst s)) (l_sort (lst s))
          (if l_alloc (lst s) then delete t.2 (mem s) else mem s))
       (la ++ lb).
Proof.
  intros Hr. apply (repr_delete s la t lb); [done| |].
  - destruct Hr as (_ & _ & _ & _ & Hcur & _).
    apply cursor_after_delete; [done|].
    destruct (last_addr_cases 0 la) as [->|Hin]; [by left|right].
    rewrite fmap_app. apply elem_of_app. by left.
  - intros Hal. rewrite Hal. destruct Hr as (_ & _ & _ & _ & _ & Hown).
    destruct (Hown Hal) as [Hnd Hlive].
    rewrite fmap_app, fmap_cons in Hnd, Hlive.
    apply NoDup_app in Hnd as (Hnda & Hdisj & Hndb).
    apply NoDup_cons in Hndb as [Htb Hndb].
    apply Forall_app in Hlive as [Hla' Hlb'].
    apply Forall_cons in Hlb' as [_ Hlb'].
    rewrite fmap_app. apply Forall_app. split.
    + rewrite Forall_forall in Hla' |- *. intros q Hq.
      rewrite lookup_delete_ne; [by apply Hla'|]. intros <-. apply (Hdisj _ Hq). left.
    + rewrite Forall_forall in Hlb' |- *. intros q Hq.
      rewrite lookup_delete_ne; [by apply Hlb'|]. by intros <-.
Qed.

Lemma repr_after_remove_head s t lb :
  repr s (t :: lb) →
  repr (conc lb (if decide (l_curr (lst s) = t.1) then hd_addr lb NULL else l_curr (lst s))
          (l_alloc (lst s)) (l_sort (lst s)) (mem s)) lb.
Proof.
  intros Hr. apply (repr_delete s [] t lb); [done| |].
  - destruct Hr as (_ & _ & _ & _ & Hcur & _).
    apply (cursor_after_delete [] t lb); [done|].
    destruct (hd_addr_cases 0 lb) as [->|Hin]; [by left|by right].
  - intros Hal. destruct Hr as (_ & _ & _ & _ & _ & Hown).
    destruct (Hown Hal) as [_ Hlive]. simpl in Hlive.
    by apply Forall_cons in Hlive as [_ Hlive].
Qed.

Lemma repr_after_remove_tail s la t :
  repr s (la ++ [t]) →
  repr (conc la (if decide (l_curr (lst s) = t.1) then last_addr NULL la else l_curr (lst s))
          (l_alloc (lst s)) (l_sort (lst s)) (mem s)) la.
Proof.
  intros Hr. pose proof (repr_delete s la t [] 
    (if decide (l_curr (lst s) = t.1) then last_addr NULL la else l_curr (lst s)) (mem s) Hr) as H.
  rewrite app_nil_r in H. apply H.
  - destruct Hr as (_ & _ & _ & _ & Hcur & _).
    pose proof (cursor_after_delete la t [] (l_curr (lst s)) (last_addr 0 la) Hcur) as Hc.
    rewrite app_nil_r in Hc. apply Hc.
    destruct (last_addr_cases 0 la) as [->|Hin]; [by left|by right].
  - intros Hal. destruct Hr as (_ & _ & _ & _ & _ & Hown).
    destruct (Hown Hal) as [_ Hlive]. rewrite fmap_app in Hlive.
    by apply Forall_app in Hlive as [Hlive _].
Qed.

(** X3: [list_remove] unlinks exactly one element, the first one
    from the head whose payload pointer is [e]; the elements before and
    after it keep their order.  When the cursor was on that element it
    retreats to the element before it ([NULL] when there is none);
    otherwise it does not move. *)
Theorem remove_unlinks_first_match s la t lb :
  reachable s → chain s = Some (la ++ t :: lb) → t.2 ∉ la.*2 →
  ∃ r s', list_remove t.2 s = Some (r, s') ∧
    chain s' = Some (la ++ lb) ∧
    l_curr (lst s')
    = (if decide (l_curr (lst s) = t.1) then last_addr NULL la else l_curr (lst s)).
Proof.
  intros Hreach Hch Hla. pose proof (reachable_repr _ _ Hreach Hch) as Hr.
  eexists _, _. split; [by apply list_remove_present|].
  split; [|done]. apply chain_repr. by apply repr_after_remove.
Qed.

(** X4: on a non-empty list [list_remove_head] returns the payload of
    the first element and the chain loses exactly that element; [count]
    drops by one; a cursor on the removed element advances to the new head
    ([NULL] when the list becomes empty) and otherwise does not move; the
    payload memory is as before. *)
Theorem remove_head_pops_first s t lb :
  reachable s → chain s = Some (t :: lb) →
  ∃ s', list_remove_head s = Some (t.2, s') ∧
    chain s' = Some lb ∧
    l_count (lst s') = l_count (lst s) - 1 ∧
    l_curr (lst s')
    = (if decide (l_curr (lst s) = t.1) then hd_addr lb NULL else l_curr (lst s)) ∧
    mem s' = mem s.
Proof.
  intros Hreach Hch. pose proof (reachable_repr _ _ Hreach Hch) as Hr.
  eexists. split; [by apply list_remove_head_repr|].
  split_and!; try done.
  - apply chain_repr. by apply repr_after_remove_head.
  - rewrite (repr_count _ _ Hr). cbn [conc lst l_count length]. lia.
Qed.

(** X5: on a non-empty list [list_remove_tail] returns the payload of
    the last element and the chain loses exactly that element; [count]
    drops by one; a cursor on the removed element retreats to the new tail
    ([NULL] when the list becomes empty) and otherwise does not move; the
    payload memory is as before. *)
Theorem remove_tail_pops_last s la t :
  reachable s → chain s = Some (la ++ [t]) →
  ∃ s', list_remove_tail s = Some (t.2, s') ∧
    chain s' = Some la ∧
    l_count (lst s') = l_count (lst s) - 1 ∧
    l_curr (lst s')
    = (if decide (l_curr (lst s) = t.1) then last_addr NULL la else l_curr (lst s)) ∧
    mem s' = mem s.
Proof.
  intros Hreach Hch. pose proof (reachable_repr _ _ Hreach Hch) as Hr.
  eexists. split; [by apply list_remove_tail_repr|].
  split_and!; try done.
  - apply chain_repr. by apply repr_after_remove_tail.
  - rewrite (repr_count _ _ Hr). cbn [conc lst l_count]. rewrite length_app. simpl. lia.
Qed.

(** ** Traversal with the cursor *)

Lemma results_step c cs s r s' :
  run_call c s = Some (r, s') → results (c :: cs) s = cons r <$> results cs s'.
Proof. intros H. simpl. by rewrite H. Qed.

(** From the cursor on [n], [list_get_next] called once per remaining
    element returns the payloads that follow [n], then [NULL]. *)
Lemma results_next lb : ∀ la n s,
  repr s (la ++ n :: lb) → l_curr (lst s) = n.1 →
  results (replicate (S (length lb)) GetNext) s = Some (lb.*2 ++ [NULL]).
Proof.
  induction lb as [|n' lb IH]; intros la n s Hr Hcur.
  - simpl. by rewrite (list_get_next_at _ _ _ _ Hr Hcur).
  - change (replicate (S (length (n' :: lb))) GetNext)
      with (GetNext :: replicate (S (length lb)) GetNext).
    rewrite (results_step GetNext _ s _ _ (list_get_next_at _ _ _ _ Hr Hcur)).
    pose proof (repr_move _ _ (hd_addr (n' :: lb) 0) Hr (hd_addr_mid la n (n' :: lb))) as Hr'.
    assert (Heq : la ++ n :: n' :: lb = (la ++ [n]) ++ n' :: lb)
      by (by rewrite <-(assoc_L (++))).
    rewrite Heq in Hr' |- *.
    by rewrite (IH (la ++ [n]) n' _ Hr' eq_refl).
Qed.

(** From the cursor on [n], [list_get_prev] called once per preceding
    element returns the payloads before [n], last first, then [NULL]. *)
Lemma results_prev la : ∀ lb n s,
  repr s (la ++ n :: lb) → l_curr (lst s) = n.1 →
  results (replicate (S (length la)) GetPrev) s = Some (reverse la.*2 ++ [NULL]).
Proof.
  induction la as [|n' la IH] using rev_ind; intros lb n s Hr Hcur.
  - simpl. by rewrite (list_get_prev_at _ [] _ _ Hr Hcur).
  - rewrite length_app. simpl length. rewrite Nat.add_1_r.
    change (replicate (S (S (length la))) GetPrev)
      with (GetPrev :: replicate (S (length la)) GetPrev).
    rewrite (results_step GetPrev _ s _ _ (list_get_prev_at _ _ _ _ Hr Hcur)).
    pose proof (repr_move _ _ (last_addr 0 (la ++ [n'])) Hr (last_addr_mid _ n lb)) as Hr'.
    rewrite last_addr_snoc in *. rewrite last_payload_snoc.
    assert (Heq : (la ++ [n']) ++ n :: lb = la ++ n' :: n :: lb)
      by (by rewrite <-(assoc_L (++))).
    rewrite Heq in Hr' |- *.
    rewrite (IH (n :: lb) n' _ Hr' eq_refl).
    by rewrite fmap_app, reverse_app.
Qed.

(** X6: [list_get_head] followed by one [list_get_next] per element
    returns the payloads of the list from head to tail, each once, and then
    [NULL]. *)
Theorem forward_iteration s ns :
  reachable s → chain s = Some ns →
  results (GetHead :: replicate (length ns) GetNext) s = Some (ns.*2 ++ [NULL]).
Proof.
  intros Hreach Hch. pose proof (reachable_repr _ _ Hreach Hch) as Hr.
  rewrite (results_step GetHead _ s _ _ (list_get_head_repr _ _ Hr)).
  destruct ns as [|n ns]; [done|].
  pose proof (repr_move _ _ (hd_addr (n :: ns) 0) Hr (or_intror (hd_addr_elem 0 (n :: ns) ltac:(done)))) as Hr'.
  cbn [length]. by rewrite (results_next ns [] n _ Hr' eq_refl).
Qed.

(** X7: [list_get_tail] followed by one [list_get_prev] per element
    returns the payloads of the list from tail to head, each once, and then
    [NULL]. *)
Theorem backward_iteration s ns :
  reachable s → chain s = Some ns →
  results (GetTail :: replicate (length ns) GetPrev) s = Some (reverse ns.*2 ++ [NULL]).
Proof.
  intros Hreach Hch. pose proof (reachable_repr _ _ Hreach Hch) as Hr.
  rewrite (results_step GetTail _ s _ _ (list_get_tail_repr _ _ Hr)).
  destruct (decide (ns = [])) as [->|Hne]; [done|].
  destruct (snoc_inv ns Hne) as (la & n & ->).
  pose proof (repr_move _ _ (last_addr 0 (la ++ [n])) Hr (or_intror (last_addr_elem 0 _ Hne))) as Hr'.
  rewrite last_addr_snoc in *. rewrite last_payload_snoc, length_app. simpl. rewrite Nat.add_1_r.
  rewrite (results_prev la [] n _ Hr' eq_refl).
  by rewrite fmap_app, reverse_app.
Qed.

(** X8: when the cursor is on an element that is not the last one,
    [list_get_next] returns a non-null payload and moves the cursor to the
    [next] of that element, and a following [list_get_prev] returns the
    payload of the element the cursor started on and restores the state as
    it was. *)
Theorem next_then_prev_comes_back s x :
  reachable s → heap s !! l_curr (lst s) = Some x → l_curr (lst s) ≠ l_last (lst s) →
  ∃ r s', list_get_next s = Some (r, s') ∧ r ≠ NULL ∧
    l_curr (lst s') = elt_next x ∧
    list_get_prev s' = Some (elt_e x, s).
Proof.
  intros Hreach Hx Hlast. destruct (reachable_wf _ Hreach) as [ns Hr].
  clear Hreach. pose proof Hr as Hr0. revert Hr0.
  repr_open Hr cur al so mm. intros Hr0.
  destruct Hr as (Hnd & Hrange & Hpay & Hcur & Hown).
  destruct Hcur as [Hcur|Hcur].
  { subst cur. rewrite lookup_build_None in Hx; [done|]. intros Hin.
    rewrite Forall_forall in Hrange. apply Hrange in Hin. lia. }
  destruct (elem_fst_split _ _ Hcur) as (la & n & lb & -> & Hn). subst cur.
  rewrite (lookup_build_at 0 _ 0 la n lb Hnd eq_refl) in Hx.
  injection Hx as <-. cbn [elt_next elt_e].
  destruct lb as [|n' lb]; [by rewrite last_addr_snoc in Hlast|].
  eexists _, _. split; [by apply (list_get_next_at _ _ _ _ Hr0)|].
  split_and!.
  - simpl. rewrite Forall_forall in Hpay. apply Hpay.
    rewrite !fmap_app, !fmap_cons, elem_of_app, !elem_of_cons. auto.
  - done.
  - pose proof (repr_move _ _ (hd_addr (n' :: lb) 0) Hr0 (hd_addr_mid la n (n' :: lb))) as Hr'.
    assert (Heq : la ++ n :: n' :: lb = (la ++ [n]) ++ n' :: lb)
      by (by rewrite <-(assoc_L (++))).
    cbn [conc lst mem l_alloc l_sort] in Hr' |- *.
    rewrite Heq in Hr' |- *.
    rewrite (list_get_prev_at _ _ _ _ Hr' eq_refl).
    by rewrite last_payload_snoc, last_addr_snoc.
Qed.

(** X9: [list_get_count] and the four cursor functions always return
    on a list a client can reach, and change nothing but the cursor; the
    result of a cursor function is [NULL] when the cursor ends up [NULL] and
    the payload of the element under the cursor otherwise. *)
Theorem queries_move_only_the_cursor s c :
  reachable s → c ∈ [GetCount; GetHead; GetTail; GetNext; GetPrev] →
  ∃ r s', run_call c s = Some (r, s') ∧
    s' = with_curr (l_curr (lst s')) s ∧
    (c = GetCount ∨ (l_curr (lst s') = NULL ∧ r = NULL) ∨
     ∃ x, heap s !! l_curr (lst s') = Some x ∧ r = elt_e x).
Proof.
  intros Hreach Hc. destruct (reachable_wf _ Hreach) as [ns Hr].
  pose proof (λ c, repr_with_curr s ns c Hr) as Hw.
  pose proof Hr as (_ & Hnd & Hrange & Hpay & Hcur & _).
  assert (Hs : s = with_curr (l_curr (lst s)) s) by (by destruct s as [? ? []]).
  assert (Hat : ∀ la t lb, ns = la ++ t :: lb →
    heap s !! t.1 = Some (mk_element (last_addr NULL la) (hd_addr lb NULL) t.2)).
  { intros la t lb ->. destruct (repr_inv _ _ Hr) as (? & ? & ? & ? & -> & _).
    by apply (lookup_build_at 0 _ 0 la t lb). }
  rewrite !elem_of_cons, elem_of_nil in Hc.
  destruct Hc as [ -> | [ -> | [ -> | [ -> | [ -> | [] ] ] ] ] ]; simpl.
  - eexists _, _. split; [by apply list_get_count_repr|]. split; [done|by left].
  - eexists _, _. split; [by apply list_get_head_repr|]. rewrite Hw.
    split; [done|]. right. cbn [conc lst l_curr].
    destruct ns as [|t lb]; [by left|right].
    eexists. by split; [apply (Hat [] t lb)|].
  - eexists _, _. split; [by apply list_get_tail_repr|]. rewrite Hw.
    split; [done|]. right. cbn [conc lst l_curr].
    destruct (decide (ns = [])) as [->|Hne]; [by left|right].
    destruct (snoc_inv ns Hne) as (la & t & ->).
    rewrite last_addr_snoc, last_payload_snoc.
    eexists. by split; [apply (Hat la t [])|].
  - destruct Hcur as [Hc|Hc].
    { eexists _, _. split; [by apply (list_get_next_off _ _ Hr)|].
      split; [done|]. right. by left. }
    apply elem_fst_split in Hc as (la & n & lb & Hns & Hc). subst ns.
    eexists _, _. split; [by apply list_get_next_at|]. rewrite Hw.
    split; [done|]. right. cbn [conc lst l_curr].
    destruct lb as [|t lb]; [by left|right].
    eexists. split.
    { apply (Hat (la ++ [n]) t lb). by rewrite <-(assoc_L (++)). }
    done.
  - destruct Hcur as [Hc|Hc].
    { eexists _, _. split; [by apply (list_get_prev_off _ _ Hr)|].
      split; [done|]. right. by left. }
    apply elem_fst_split in Hc as (la & n & lb & Hns & Hc). subst ns.
    eexists _, _. split; [by apply list_get_prev_at|]. rewrite Hw.
    split; [done|]. right. cbn [conc lst l_curr].
    destruct (decide (la = [])) as [->|Hne]; [by left|right].
    destruct (snoc_inv la Hne) as (la' & t & ->).
    rewrite last_addr_snoc, last_payload_snoc.
    eexists. split.
    { apply (Hat la' t (n :: lb)). by rewrite <-(assoc_L (++)). }
    done.
Qed.

(** X10: removing the element under the cursor with [list_remove]
    leaves the cursor on its predecessor, so that a following
    [list_get_next] returns the payload of the element that followed the
    removed one and an iteration goes on; but when the removed element was
    the head there is no predecessor: the cursor is [NULL] and
    [list_get_next] returns [NULL] whatever the list still holds. *)
Theorem remove_at_cursor_then_next s la t lb :
  reachable s → chain s = Some (la ++ t :: lb) → t.2 ∉ la.*2 →
  l_curr (lst s) = t.1 →
  ∃ r s', list_remove t.2 s = Some (r, s') ∧
    l_curr (lst s') = last_addr NULL la ∧
    ∃ s'', list_get_next s' = Some (if la is [] then NULL else hd_payload lb, s'') ∧
      l_curr (lst s'') = (if la is [] then NULL else hd_addr lb NULL).
Proof.
  intros Hreach Hch Hla Hcur. pose proof (reachable_repr _ _ Hreach Hch) as Hr.
  pose proof (repr_after_remove _ _ _ _ Hr) as Hr'.
  rewrite decide_True in Hr' by done.
  eexists _, _. split; [by apply list_remove_present|].
  rewrite decide_True by done. split; [done|].
  destruct (decide (la = [])) as [->|Hne].
  - eexists. by split; [apply (list_get_next_off _ _ Hr')|].
  - destruct (snoc_inv la Hne) as (la' & n & ->).
    rewrite last_addr_snoc in *. rewrite <-(assoc_L (++)) in Hr' |- *.
    eexists. split.
    + rewrite (list_get_next_at _ _ _ _ Hr' eq_refl). by destruct la'.
    + by destruct la'.
Qed.

(** ** Insertion followed by removal *)

(** X11: [list_add_head] followed by [list_remove_head] returns the
    payload pointer that was stored and leaves the elements and the list
    instance exactly as they were before the insertion, cursor included.
    Without [alloc] the whole state is restored; with [alloc] the payload
    memory keeps the copy, which now belongs to the caller. *)
Theorem add_head_then_remove_head s e size m :
  reachable s → e ≠ NULL → alloc_ok s e size m →
  (list_add_head e size m ≫= λ _, list_remove_head) s
  = Some (new_payload s e m, mk_state (heap s) (new_mem s e size m) (lst s)).
Proof.
  intros Hreach He Hok. destruct (reachable_wf _ Hreach) as [ns Hr].
  pose proof (repr_after_add s ns [] ns e size m Hr eq_refl He Hok) as Hr'.
  unfold mbind, M_bind. rewrite (list_add_head_repr _ _ _ _ _ Hr He Hok).
  simpl in Hr'. rewrite (list_remove_head_repr _ _ _ Hr').
  destruct Hok as [(Hn0 & Hnh & _) _].
  clear Hreach Hr'. repr_open Hr cur al so mm.
  destruct Hr as (_ & _ & _ & Hcur & _).
  unfold conc. cbn [fst snd lst l_curr l_alloc l_sort mem heap]. do 3 f_equal.
  destruct ns as [|n ns].
  - rewrite decide_True by done. destruct Hcur as [->|Hcur]; [done|].
    by apply elem_of_nil in Hcur.
  - rewrite decide_False; [done|]. intros ->.
    destruct Hcur as [Hcur|Hcur]; [lia|].
    cbn [heap conc] in Hnh. apply lookup_build_None_inv in Hnh. done.
Qed.

(** X12: [list_add_tail] followed by [list_remove_tail] returns the
    payload pointer that was stored and leaves the elements and the list
    instance exactly as they were before the insertion, cursor included.
    Without [alloc] the whole state is restored; with [alloc] the payload
    memory keeps the copy, which now belongs to the caller. *)
Theorem add_tail_then_remove_tail s e size m :
  reachable s → e ≠ NULL → alloc_ok s e size m →
  (list_add_tail e size m ≫= λ _, list_remove_tail) s
  = Some (new_payload s e m, mk_state (heap s) (new_mem s e size m) (lst s)).
Proof.
  intros Hreach He Hok. destruct (reachable_wf _ Hreach) as [ns Hr].
  pose proof (repr_after_add s ns ns [] e size m Hr (eq_sym (app_nil_r ns)) He Hok) as Hr'.
  unfold mbind, M_bind. rewrite (list_add_tail_repr _ _ _ _ _ Hr He Hok).
  rewrite (list_remove_tail_repr _ _ _ Hr').
  destruct Hok as [(Hn0 & Hnh & _) _].
  clear Hreach Hr'. repr_open Hr cur al so mm.
  destruct Hr as (_ & _ & _ & Hcur & _).
  unfold conc. cbn [fst snd lst l_curr l_alloc l_sort mem heap]. do 3 f_equal.
  destruct ns as [|n ns].
  - rewrite decide_True by done. destruct Hcur as [->|Hcur]; [done|].
    by apply elem_of_nil in Hcur.
  - rewrite decide_False; [done|]. intros ->.
    destruct Hcur as [Hcur|Hcur]; [lia|].
    cbn [heap conc] in Hnh. apply lookup_build_None_inv in Hnh. done.
Qed.

(** X13: [list_add_tail] followed by [list_remove] of the pointer
    that was stored (the caller's pointer without [alloc], the address of
    the copy with [alloc]), on a list that did not hold that pointer,
    returns [NULL] and restores the state exactly: the element and, with
    [alloc], the copy are freed again. *)
Theorem add_tail_then_remove_restores s e size m :
  reachable s → e ≠ NULL → alloc_ok s e size m →
  new_payload s e m ∉ payloads s →
  (list_add_tail e size m ≫= λ _, list_remove (new_payload s e m)) s
  = Some (NULL, s).
Proof.
  intros Hreach He Hok Hnew. destruct (reachable_wf _ Hreach) as [ns Hr].
  rewrite (payloads_repr _ _ Hr) in Hnew.
  pose proof (repr_after_add s ns ns [] e size m Hr (eq_sym (app_nil_r ns)) He Hok) as Hr'.
  unfold mbind, M_bind. rewrite (list_add_tail_repr _ _ _ _ _ Hr He Hok).
  pose proof (list_remove_present _ ns (m_node m, new_payload s e m) [] Hr' Hnew) as Hrm.
  cbn [fst snd] in Hrm. rewrite Hrm. clear Hrm.
  rewrite app_nil_r. pose proof Hok as [(Hn0 & Hnh & _) Hcopy].
  unfold new_mem, new_payload in *.
  clear Hreach Hr'. repr_open Hr cur al so mm.
  destruct Hr as (_ & _ & _ & Hcur & _).
  unfold conc. cbn [fst snd lst l_curr l_alloc l_sort mem heap hd_addr].
  apply outcome_eq; try done.
  - destruct al; [|done]. destruct Hcopy as ((_ & _ & Hfree) & _); [done|].
    cbn [mem conc] in Hfree. rewrite delete_insert_eq. by apply delete_id.
  - destruct ns as [|n ns].
    + rewrite decide_True by done. destruct Hcur as [->|Hcur]; [done|].
      by apply elem_of_nil in Hcur.
    + rewrite decide_False; [done|]. intros ->.
      destruct Hcur as [Hcur|Hcur]; [lia|].
      cbn [heap conc] in Hnh. apply lookup_build_None_inv in Hnh. done.
Qed.

(** ** Who owns the payloads *)

(** An insertion that returns 0 was served by the allocator and linked
    the new element somewhere in the chain. *)
Lemma add_outcome s ns c e size m s' :
  repr s ns →
  c = Add e size m ∨ c = AddHead e size m ∨ c = AddTail e size m →
  run_call c s = Some (0, s') →
  ∃ la lb, ns = la ++ lb ∧ e ≠ NULL ∧ alloc_ok s e size m ∧
    s' = conc (la ++ (m_node m, new_payload s e m) :: lb)
           (if ns is [] then m_node m else l_curr (lst s))
           (l_alloc (lst s)) (l_sort (lst s)) (new_mem s e size m).
Proof.
  intros Hr Hc H. destruct Hc as [ -> | [ -> | -> ] ]; simpl in H.
  - destruct (list_add_inv _ _ _ _ _ _ H) as [[? _]|[He Hok]]; [done|].
    rewrite (list_add_repr _ _ _ _ _ Hr He Hok) in H. injection H as <-.
    destruct (add_chain_split s e size m ns) as (la & lb & Hns & ->).
    by exists la, lb.
  - destruct (list_add_head_inv _ _ _ _ _ _ H) as [[? _]|[He Hok]]; [done|].
    rewrite (list_add_head_repr _ _ _ _ _ Hr He Hok) in H. injection H as <-.
    by exists [], ns.
  - destruct (list_add_tail_inv _ _ _ _ _ _ H) as [[? _]|[He Hok]]; [done|].
    rewrite (list_add_tail_repr _ _ _ _ _ Hr He Hok) in H. injection H as <-.
    exists ns, []. by rewrite app_nil_r.
Qed.

(** X14: what a successful insertion ([list_add], [list_add_head]
    or [list_add_tail] returning 0) stores.  Without [alloc] the list holds
    the caller's pointer itself, and the payload memory is untouched.  With
    [alloc] it holds the address of a block that was not allocated before,
    different from the caller's pointer, filled with the first [size] bytes
    found at the caller's pointer; nothing else in the payload memory
    changes. *)
Theorem insertion_stores_copy_or_pointer s c e size m s' :
  reachable s →
  c = Add e size m ∨ c = AddHead e size m ∨ c = AddTail e size m →
  run_call c s = Some (0, s') →
  (l_alloc (lst s) = false →
     payloads s' ≡ₚ e :: payloads s ∧ mem s' = mem s) ∧
  (l_alloc (lst s) = true →
     payloads s' ≡ₚ m_copy m :: payloads s ∧
     m_copy m ≠ e ∧ mem s !! m_copy m = None ∧
     ∃ src, mem s !! e = Some src ∧
       mem s' = <[m_copy m := take (Z.to_nat size) src]> (mem s)).
Proof.
  intros Hreach Hc H. destruct (reachable_wf _ Hreach) as [ns Hr].
  destruct (add_outcome _ _ _ _ _ _ _ Hr Hc H) as (la & lb & Hns & He & Hok & ->).
  rewrite (payloads_repr _ _ Hr).
  rewrite (payloads_repr _ _ (repr_after_add s ns la lb e size m Hr Hns He Hok)).
  rewrite Hns, !fmap_app, fmap_cons. cbn [snd conc mem].
  unfold new_payload, new_mem. split; intros Hal; rewrite Hal.
  - split; [|done]. by rewrite Permutation_middle.
  - destruct Hok as [_ Hcopy]. destruct (Hcopy Hal) as ((_ & _ & Hfree) & _ & src & Hsrc & _).
    split_and!.
    + by rewrite Permutation_middle.
    + intros Heq. rewrite Heq in Hfree. by rewrite Hfree in Hsrc.
    + done.
    + exists src. split; [done|]. by rewrite Hsrc.
Qed.


(** What a call leaves alone: the two mode fields of the list, and every
    block of the payload memory that is not a payload of the list. *)
Lemma run_call_frame s ns c r s' :
  repr s ns → run_call c s = Some (r, s') →
  l_alloc (lst s') = l_alloc (lst s) ∧ l_sort (lst s') = l_sort (lst s) ∧
  (l_alloc (lst s) = false → mem s' = mem s) ∧
  (∀ q, is_Some (mem s !! q) → q ∉ ns.*2 → mem s' !! q = mem s !! q).
Proof.
  intros Hr H.
  assert (Hadd : ∀ e size m, alloc_ok s e size m →
    (l_alloc (lst s) = false → new_mem s e size m = mem s) ∧
    (∀ q, is_Some (mem s !! q) → q ∉ ns.*2 → new_mem s e size m !! q = mem s !! q)).
  { intros e size m [_ Hc]. unfold new_mem. split; [by intros ->|].
    intros q [x Hq] _. destruct (l_alloc (lst s)); [|done].
    destruct Hc as ((_ & _ & Hfree) & _); [done|].
    rewrite lookup_insert_ne; [done|]. intros <-. by rewrite Hfree in Hq. }
  destruct c as [e size m|e size m|e size m| | | | | |e| |]; simpl in H.
  - destruct (list_add_inv _ _ _ _ _ _ H) as [[-> ->]|[He Hok]]; [done|].
    rewrite (list_add_repr _ _ _ _ _ Hr He Hok) in H. injection H as <- <-.
    destruct (Hadd _ _ _ Hok). by split_and!.
  - destruct (list_add_head_inv _ _ _ _ _ _ H) as [[-> ->]|[He Hok]]; [done|].
    rewrite (list_add_head_repr _ _ _ _ _ Hr He Hok) in H. injection H as <- <-.
    destruct (Hadd _ _ _ Hok). by split_and!.
  - destruct (list_add_tail_inv _ _ _ _ _ _ H) as [[-> ->]|[He Hok]]; [done|].
    rewrite (list_add_tail_repr _ _ _ _ _ Hr He Hok) in H. injection H as <- <-.
    destruct (Hadd _ _ _ Hok). by split_and!.
  - rewrite (list_get_count_repr _ _ Hr) in H. by injection H as <- <-.
  - rewrite (list_get_head_repr _ _ Hr) in H. by injection H as <- <-.
  - rewrite (list_get_tail_repr _ _ Hr) in H. by injection H as <- <-.
  - pose proof Hr as (_ & _ & _ & _ & [Hc|Hc] & _).
    { rewrite (list_get_next_off _ _ Hr Hc) in H. by injection H as <- <-. }
    apply elem_fst_split in Hc as (la & n & lb & -> & Hc).
    rewrite (list_get_next_at _ _ _ _ Hr (eq_sym Hc)) in H. by injection H as <- <-.
  - pose proof Hr as (_ & _ & _ & _ & [Hc|Hc] & _).
    { rewrite (list_get_prev_off _ _ Hr Hc) in H. by injection H as <- <-. }
    apply elem_fst_split in Hc as (la & n & lb & -> & Hc).
    rewrite (list_get_prev_at _ _ _ _ Hr (eq_sym Hc)) in H. by injection H as <- <-.
  - destruct (decide (e ∈ ns.*2)) as [Hin|Hout].
    + apply first_payload_split in Hin as Hsp.
      destruct Hsp as (la & t & lb & -> & <- & Hla).
      rewrite (list_remove_present _ _ _ _ Hr Hla) in H. injection H as <- <-.
      cbn [conc lst mem l_alloc l_sort]. split_and!; try done; [by intros ->|].
      intros q _ Hq. destruct (l_alloc (lst s)); [|done].
      rewrite lookup_delete_ne; [done|]. by intros <-.
    + rewrite (list_remove_absent _ _ _ Hr Hout) in H. by injection H as <- <-.
  - destruct ns as [|t lb].
    + rewrite (list_remove_head_empty _ Hr) in H. by injection H as <- <-.
    + rewrite (list_remove_head_repr _ _ _ Hr) in H. by injection H as <- <-.
  - destruct (decide (ns = [])) as [->|Hne].
    + rewrite (list_remove_tail_empty _ Hr) in H. by injection H as <- <-.
    + destruct (snoc_inv ns Hne) as (la & t & ->).
      rewrite (list_remove_tail_repr _ _ _ Hr) in H. by injection H as <- <-.
Qed.

(** X16: no call changes the [alloc] flag or the [sort] callback of
    a list, and the semaphore is free before and after every call that
    returns. *)
Theorem calls_keep_configuration s c r s' :
  reachable s → run_call c s = Some (r, s') →
  l_alloc (lst s') = l_alloc (lst s) ∧ l_sort (lst s') = l_sort (lst s) ∧
  l_sem (lst s) = 1 ∧ l_sem (lst s') = 1.
Proof.
  intros Hreach H. destruct (reachable_wf _ Hreach) as [ns Hr].
  destruct (run_call_frame _ _ _ _ _ Hr H) as (Ha & Hso & _).
  destruct (reachable_wf _ (reach_call _ _ _ _ Hreach H)) as [ns' Hr'].
  split_and!; [done|done| |].
  - by repr_open Hr cur al so mm.
  - by repr_open Hr' cur al so mm.
Qed.

(** X17: what the calls do to the payload memory.  Without [alloc]
    no call changes it at all.  In either mode, a block that is allocated
    and is not a payload of the list is still allocated after the call, with
    the same content. *)
Theorem calls_leave_client_memory s c r s' :
  reachable s → run_call c s = Some (r, s') →
  (l_alloc (lst s) = false → mem s' = mem s) ∧
  (∀ q, is_Some (mem s !! q) → q ∉ payloads s → mem s' !! q = mem s !! q).
Proof.
  intros Hreach H. destruct (reachable_wf _ Hreach) as [ns Hr].
  destruct (run_call_frame _ _ _ _ _ Hr H) as (_ & _ & Hm & Hq).
  by rewrite (payloads_repr _ _ Hr).
Qed.

(** ** The shape of the lists a client can reach *)

(** The walk along [prev] from the last element of a prefix [la] of the
    chain finds [la] in reverse. *)
Lemma walk_back_build ns la : ∀ lb fuel,
  NoDup ns.*1 → Forall (λ a, 0 < a ≤ SIZE_MAX) ns.*1 →
  ns = la ++ lb → (length la < fuel)%nat →
  walk_back fuel (build NULL ns NULL) (last_addr NULL la) = Some (reverse la).
Proof.
  induction la as [|n la IH] using rev_ind; intros lb fuel Hnd Hrange Hns Hfuel.
  - destruct fuel; [simpl in Hfuel; lia|]. done.
  - rewrite length_app in Hfuel. simpl in Hfuel.
    destruct fuel as [|fuel]; [lia|].
    rewrite <-(assoc_L (++)) in Hns. simpl in Hns.
    assert (Hn0 : n.1 ≠ 0).
    { rewrite Hns in Hrange. apply Forall_fst_mid in Hrange. lia. }
    rewrite last_addr_snoc. cbn [walk_back]. rewrite decide_False by done.
    rewrite (lookup_build_at 0 ns 0 la n lb Hnd Hns). cbn [elt_prev elt_e].
    rewrite (IH (n :: lb) fuel Hnd Hrange Hns) by lia.
    simpl. by rewrite reverse_snoc, <-surjective_pairing.
Qed.

Lemma chain_back_repr s ns : repr s ns → chain_back s = Some (reverse ns).
Proof.
  intros Hr. repr_open Hr cur al so mm. destruct Hr as (Hnd & Hrange & _).
  unfold chain_back. cbn [conc heap lst l_last]. rewrite size_build by done.
  apply (walk_back_build ns ns []); [done|done|by rewrite app_nil_r|lia].
Qed.

(** X18: the [prev] links mirror the [next] links: walking [prev]
    from [last] meets the elements met by walking [next] from [first], in
    reverse order. *)
Theorem backward_walk_mirrors_forward s ns :
  reachable s → chain s = Some ns → chain_back s = Some (reverse ns).
Proof.
  intros Hreach Hch. apply chain_back_repr. by apply reachable_repr.
Qed.

(** X19: in every state a client can reach, the allocated
    [list_element_t] objects are exactly the elements met from [first], each
    once; [count] is their number; the cursor is [NULL] or one of them; and
    no element holds a [NULL] payload. *)
Theorem live_elements_are_the_chain s :
  reachable s →
  ∃ ns, chain s = Some ns ∧ NoDup ns.*1 ∧
    dom (heap s) = list_to_set ns.*1 ∧
    l_count (lst s) = Z.of_nat (length ns) ∧
    (l_curr (lst s) = NULL ∨ l_curr (lst s) ∈ ns.*1) ∧
    NULL ∉ ns.*2.
Proof.
  intros Hreach. destruct (reachable_wf _ Hreach) as [ns Hr]. exists ns.
  split; [by apply chain_repr|]. clear Hreach.
  repr_open Hr cur al so mm. destruct Hr as (Hnd & Hrange & Hpay & Hcur & _).
  split_and!; try done.
  - apply dom_build.
  - rewrite Forall_forall in Hpay. intros Hin. by apply Hpay in Hin.
Qed.

Lemma hd_payload_null (ns : list (Z * Z)) :
  Forall (λ q, q ≠ NULL) ns.*2 → hd_payload ns = NULL ↔ ns = [].
Proof.
  destruct ns as [|n ns]; [done|]. intros Hp. apply Forall_cons in Hp as [? _].
  simpl. split; [lia|done].
Qed.

Lemma last_payload_null (ns : list (Z * Z)) :
  Forall (λ q, q ≠ NULL) ns.*2 → last_payload ns = NULL ↔ ns = [].
Proof.
  intros Hp. split; [|by intros ->].
  destruct (decide (ns = [])) as [|Hne]; [done|]. intros Heq.
  destruct (snoc_inv ns Hne) as (la & n & ->).
  rewrite last_payload_snoc in Heq. rewrite fmap_app in Hp.
  apply Forall_app in Hp as [_ Hp]. by apply Forall_cons in Hp as [? _].
Qed.

(** X20: [list_get_head], [list_get_tail], [list_remove_head] and
    [list_remove_tail] always return on a list a client can reach, and they
    return [NULL] exactly when the list is empty. *)
Theorem null_result_means_empty s :
  reachable s →
  (∃ r s', list_get_head s = Some (r, s') ∧ (r = NULL ↔ l_count (lst s) = 0)) ∧
  (∃ r s', list_get_tail s = Some (r, s') ∧ (r = NULL ↔ l_count (lst s) = 0)) ∧
  (∃ r s', list_remove_head s = Some (r, s') ∧ (r = NULL ↔ l_count (lst s) = 0)) ∧
  (∃ r s', list_remove_tail s = Some (r, s') ∧ (r = NULL ↔ l_count (lst s) = 0)).
Proof.
  intros Hreach. destruct (reachable_wf _ Hreach) as [ns Hr].
  pose proof Hr as (_ & _ & _ & Hpay & _).
  assert (Hcount : l_count (lst s) = 0 ↔ ns = []).
  { rewrite (repr_count _ _ Hr). destruct ns; simpl; split; (done || lia). }
  setoid_rewrite Hcount. split_and!.
  - eexists _, _. split; [by apply list_get_head_repr|]. by apply hd_payload_null.
  - eexists _, _. split; [by apply list_get_tail_repr|]. by apply last_payload_null.
  - destruct ns as [|t lb].
    + eexists _, _. by split; [apply list_remove_head_empty|].
    + eexists _, _. split; [by apply list_remove_head_repr|].
      apply (hd_payload_null (t :: lb) Hpay).
  - destruct (decide (ns = [])) as [->|Hne].
    + eexists _, _. by split; [apply list_remove_tail_empty|].
    + destruct (snoc_inv ns Hne) as (la & t & ->).
      eexists _, _. split; [by apply list_remove_tail_repr|].
      rewrite <-(last_payload_null _ Hpay). by rewrite last_payload_snoc.
Qed.

(** ** Teardown of any list *)

(** X21: [list_release] returns on every list a client can reach
    and leaves no [list_element_t] allocated.  Without [alloc] the payload
    memory is as before; with [alloc] the payload blocks of the list are
    freed and every other block is as before. *)
Theorem release_frees_every_element s ns :
  reachable s → chain s = Some ns →
  ∃ h m', list_release s = Some (h, m') ∧ h = ∅ ∧
    (l_alloc (lst s) = false → m' = mem s) ∧
    (l_alloc (lst s) = true →
       ∀ q, m' !! q = if decide (q ∈ ns.*2) then None else mem s !! q).
Proof.
  intros Hreach Hch. pose proof (reachable_repr _ _ Hreach Hch) as Hr.
  eexists _, _. split; [by apply list_release_repr|].
  split; [done|]. split; intros ->; [done|].
  intros q. apply lookup_delete_all.
Qed.

(** ** The position chosen by the callback *)

(** X22: when the [sort] callback gives the same answer for the new
    pointer whatever the element it is compared with, [list_add] is
    [list_add_tail] if that answer is true and [list_add_head] if it is
    false: same result and same state, for every answer of the allocator. *)
Theorem add_with_one_sided_sort s e size m sort (b : bool) :
  reachable s → l_sort (lst s) = Some sort → (∀ mm q, sort mm q e = b) →
  list_add e size m s
  = (if b then list_add_tail e size m s else list_add_head e size m s).
Proof.
  intros Hreach Hsort Hb. destruct (reachable_wf _ Hreach) as [ns Hr].
  destruct (list_create_element e size m s) as [[le s1]|] eqn:Hce.
  - destruct (list_create_element_cases _ _ _ _ _ _ Hce) as [He [(-> & -> & _)|Hok]].
    + unfold list_add, list_add_tail, list_add_head. munfold.
      cbn -[list_create_element size_wrap Z.of_nat].
      rewrite bool_decide_eq_true_2 by done.
      cbn -[list_create_element size_wrap Z.of_nat]. rewrite Hce. by destruct b.
    + rewrite (list_add_repr _ _ _ _ _ Hr He Hok).
      assert (Hchain : add_chain s e size m ns
        = insert_before (λ q, sort (new_mem s e size m) q e)
            (m_node m, new_payload s e m) ns) by (unfold add_chain; by rewrite Hsort).
      rewrite Hchain. destruct b.
      * rewrite (list_add_tail_repr _ _ _ _ _ Hr He Hok).
        rewrite insert_before_all; [done|].
        apply forallb_forall. intros n _. apply Hb.
      * rewrite (list_add_head_repr _ _ _ _ _ Hr He Hok).
        destruct ns as [|n ns]; [done|]. simpl. by rewrite Hb.
  - unfold list_add, list_add_tail, list_add_head. munfold.
    cbn -[list_create_element size_wrap Z.of_nat].
    destruct (bool_decide (e ≠ 0)); cbn -[list_create_element size_wrap Z.of_nat];
      [rewrite Hce|]; by destruct b.
Qed.

(** Inserting [x] into a locally sorted list, after an element that may
    stand before it and before one that may stand after it. *)
Lemma Sorted_insert_mid {A} (R : A → A → Prop) (la : list A) x lb :
  Sorted R (la ++ lb) →
  (∀ a, last la = Some a → R a x) → (∀ b, head lb = Some b → R x b) →
  Sorted R (la ++ x :: lb).
Proof.
  induction la as [|a la IH]; intros Hs Ha Hb; simpl in *.
  - constructor; [done|]. destruct lb; constructor. by apply Hb.
  - apply Sorted_inv in Hs as [Hs Hhd]. constructor.
    + apply IH; [done| |done]. intros a' Ha'. apply Ha.
      destruct la; [done|]. done.
    + destruct la as [|a' la]; simpl in *.
      * constructor. by apply Ha.
      * apply HdRel_inv in Hhd. by constructor.
Qed.

Lemma last_fmap_snd_Forall (P : Z → Prop) (la : list (Z * Z)) a :
  Forall (λ n, P n.2) la → last la.*2 = Some a → P a.
Proof.
  intros Hall Hlast. rewrite Forall_forall in Hall.
  rewrite fmap_last in Hlast. destruct (last la) as [n|] eqn:Hn; [|done].
  injection Hlast as <-. apply Hall. by apply last_Some_elem_of.
Qed.

(** Sorted insertion into a list in order, without [alloc]: the list is
    in order again. *)
Lemma list_add_sorted s ns e size m sort :
  repr s ns → l_sort (lst s) = Some sort → l_alloc (lst s) = false →
  e ≠ NULL → alloc_ok s e size m →
  (∀ a, a ∈ ns.*2 → sort (mem s) a e = true → sort (mem s) e a = false) →
  Sorted (in_order sort (mem s)) ns.*2 →
  ∃ s', list_add e size m s = Some (0, s') ∧
    mem s' = mem s ∧
    e ∈ payloads s' ∧
    Sorted (in_order sort (mem s')) (payloads s').
Proof.
  intros Hr Hsort Hal He Hok Hasym Hsorted.
  assert (Hmem : new_mem s e size m = mem s) by (unfold new_mem; by rewrite Hal).
  assert (Hpay : new_payload s e m = e) by (unfold new_payload; by rewrite Hal).
  destruct (insert_before_split (λ q, sort (new_mem s e size m) q e)
              (m_node m, new_payload s e m) ns) as (la & lb & Hns & Hins & Hla & Hlb).
  assert (Hchain : add_chain s e size m ns = la ++ (m_node m, new_payload s e m) :: lb).
  { unfold add_chain. by rewrite Hsort. }
  eexists. split; [by apply list_add_repr|].
  rewrite Hchain. cbn [conc mem]. split; [done|].
  rewrite (payloads_repr _ (la ++ (m_node m, new_payload s e m) :: lb))
    by (by apply repr_after_add).
  rewrite Hmem, Hpay in *. rewrite fmap_app, fmap_cons. cbn [snd].
  split; [rewrite elem_of_app, elem_of_cons; auto|].
  subst ns. rewrite fmap_app in Hsorted, Hasym.
  apply Sorted_insert_mid; [done| |].
  - intros a Ha. apply Hasym.
    + rewrite elem_of_app. left. by apply last_Some_elem_of.
    + by apply (last_fmap_snd_Forall (λ q, sort (mem s) q e = true) la).
  - intros b Hb. destruct lb as [|n lb]; [done|]. injection Hb as <-. exact Hlb.
Qed.

(** X23: sorted insertion keeps a list in order.  On a list without
    [alloc] whose payloads are in order for the callback (no element is
    followed by one that the callback puts in front of it), and when the
    callback never puts two pointers each in front of the other,
    [list_add] returns 0, stores the pointer and leaves the payloads in
    order. *)
Theorem add_keeps_sorted s ns e size m sort :
  reachable s → chain s = Some ns →
  l_sort (lst s) = Some sort → l_alloc (lst s) = false →
  e ≠ NULL → alloc_ok s e size m →
  (∀ a, a ∈ ns.*2 → sort (mem s) a e = true → sort (mem s) e a = false) →
  Sorted (in_order sort (mem s)) ns.*2 →
  ∃ s', list_add e size m s = Some (0, s') ∧
    mem s' = mem s ∧
    e ∈ payloads s' ∧
    Sorted (in_order sort (mem s')) (payloads s').
Proof.
  intros Hreach Hch. apply list_add_sorted. by apply reachable_repr.
Qed.

(** [strcmp(a, b) < 0] and [strcmp(b, a) < 0] never hold together. *)
Lemma strcmp_asym a : ∀ b c,
  list_sort.strcmp a b = Some c → c < 0 →
  ∃ c', list_sort.strcmp b a = Some c' ∧ 0 < c'.
Proof.
  induction a as [|x a IH]; intros [|y b] c H Hc; simpl in *; try done.
  destruct (Byte.to_N x <? Byte.to_N y)%N eqn:Hxy.
  - apply N.ltb_lt in Hxy.
    destruct (Byte.to_N y <? Byte.to_N x)%N eqn:Hyx; [apply N.ltb_lt in Hyx; lia|].
    exists 1. split; [done|lia].
  - destruct (Byte.to_N y <? Byte.to_N x)%N eqn:Hyx; [injection H as <-; lia|].
    assert (Heq : x = y).
    { apply N.ltb_ge in Hxy, Hyx.
      assert (Hn : Byte.to_N x = Byte.to_N y) by lia.
      assert (Hs : Some x = Some y)
        by (by rewrite <-(Byte.of_to_N x), <-(Byte.of_to_N y), Hn).
      by injection Hs. }
    subst y. destruct (Byte.eqb x Byte.x00); [injection H as <-; lia|].
    by apply (IH b c).
Qed.

Lemma sort_asym mm a b :
  list_sort.sort mm a b = true → list_sort.sort mm b a = false.
Proof.
  unfold list_sort.sort. destruct (mm !! a) as [x|], (mm !! b) as [y|]; try done.
  destruct (list_sort.strcmp x y) as [c|] eqn:Hc; [|done].
  intros Hlt. apply bool_decide_eq_true_1 in Hlt.
  destruct (strcmp_asym _ _ _ Hc Hlt) as (c' & -> & Hc').
  apply bool_decide_eq_false_2. lia.
Qed.


(** ** The example program *)

(** The print loop of the example program, entered on the element [n] of
    the chain with the cursor on it: it writes the string of every element
    from [n] on and leaves the cursor [NULL]. *)
Lemma print_elements_spec lb : ∀ la n s out lines fuel,
  repr s (la ++ n :: lb) → l_curr (lst s) = n.1 →
  Forall2 (λ q line, list_sort.line_at (mem s) q = Some line) (n :: lb).*2 lines →
  (length (n :: lb) < fuel)%nat →
  list_sort.print_elements fuel n.2 out s
  = Some (out ++ lines,
          conc (la ++ n :: lb) NULL (l_alloc (lst s)) (l_sort (lst s)) (mem s)).
Proof.
  induction lb as [|n' lb IH]; intros la n s out lines fuel Hr Hcur Hlines Hfuel;
    (destruct fuel as [|fuel]; [simpl in Hfuel; lia|]);
    rewrite fmap_cons in Hlines;
    apply Forall2_cons_inv_l in Hlines as (line & lines' & Hline & Hlines & ->);
    assert (Hn0 : n.2 ≠ 0)
      by (destruct Hr as (_ & _ & _ & Hpay & _); rewrite Forall_forall in Hpay;
          apply Hpay; rewrite fmap_app, fmap_cons, elem_of_app, elem_of_cons; auto);
    cbn [list_sort.print_elements]; rewrite decide_False by done;
    unfold mbind at 1, M_bind at 1, get_mem at 1; rewrite Hline;
    unfold mbind, M_bind; rewrite (list_get_next_at _ _ _ _ Hr Hcur).
  - apply Forall2_nil_inv_l in Hlines as ->.
    destruct fuel; [simpl in Hfuel; lia|]. done.
  - pose proof (repr_move _ _ (hd_addr (n' :: lb) 0) Hr (hd_addr_mid la n (n' :: lb))) as Hr'.
    assert (Heq : la ++ n :: n' :: lb = (la ++ [n]) ++ n' :: lb)
      by (by rewrite <-(assoc_L (++))).
    rewrite Heq in Hr' |- *. change (hd_payload (n' :: lb)) with n'.2.
    rewrite (IH (la ++ [n]) n' _ (out ++ [line]) lines' fuel Hr' eq_refl Hlines)
      by (simpl in *; lia).
    by rewrite <-(assoc_L (++)).
Qed.

(** [list_get_head] followed by the print loop writes the strings of all
    the elements, in the order of the chain. *)
Lemma print_all s ns lines :
  repr s ns →
  Forall2 (λ q line, list_sort.line_at (mem s) q = Some line) ns.*2 lines →
  (str ← list_get_head; h ← get_heap;
   list_sort.print_elements (S (size h)) str []) s
  = Some (lines, conc ns NULL (l_alloc (lst s)) (l_sort (lst s)) (mem s)).
Proof.
  intros Hr Hlines. unfold mbind, M_bind. rewrite (list_get_head_repr _ _ Hr).
  unfold get_heap. cbn [conc heap].
  pose proof Hr as (_ & Hnd & _). rewrite size_build by done.
  destruct ns as [|n ns].
  - apply Forall2_nil_inv_l in Hlines as ->. done.
  - pose proof (repr_move _ _ (hd_addr (n :: ns) 0) Hr
      (or_intror (hd_addr_elem 0 (n :: ns) ltac:(done)))) as Hr'.
    change (hd_payload (n :: ns)) with n.2.
    by rewrite (print_elements_spec ns [] n _ [] lines _ Hr' eq_refl Hlines)
      by (simpl; lia).
Qed.

(** The end of [main]: the elements are printed in the order of the chain,
    and [list_release] leaves no element allocated. *)
Lemma main_body s ns lines :
  repr s ns → l_alloc (lst s) = false →
  Forall2 (λ q line, list_sort.line_at (mem s) q = Some line) ns.*2 lines →
  match (str ← list_get_head; h ← get_heap;
         list_sort.print_elements (S (size h)) str []) s with
  | Some (out, s') =>
      match list_release s' with
      | Some (h, m) => Some (list_sort.mk_outcome 0 out h m)
      | None => None
      end
  | None => None
  end = Some (list_sort.mk_outcome 0 lines ∅ (mem s)).
Proof.
  intros Hr Hal Hlines. rewrite (print_all _ _ _ Hr Hlines).
  pose proof (repr_move _ _ 0 Hr (or_introl eq_refl)) as Hr'.
  rewrite (list_release_repr _ _ Hr'). cbn [conc lst l_alloc mem]. by rewrite Hal.
Qed.

(** One insertion of the example program, on a list without [alloc] and
    with the callback [so]: the allocator fails and nothing changes, or it
    answers an address not in use and the element is linked in. *)
Lemma list_add_served s ns so e size m used :
  repr s ns → l_alloc (lst s) = false → l_sort (lst s) = Some so → e ≠ NULL →
  list_sort.served (mem s) used (m_node m) → ns.*1 ⊆ used →
  ∃ s', list_add e size m s = Some (if decide (m_node m = NULL) then -1 else 0, s') ∧
    repr s' (if decide (m_node m = NULL) then ns
             else insert_before (λ q, so (mem s) q e) (m_node m, e) ns) ∧
    mem s' = mem s ∧ l_alloc (lst s') = false ∧ l_sort (lst s') = Some so.
Proof.
  intros Hr Hal Hso He [Hn|(Hrange & Hmem & Hnew)] Hused.
  - rewrite !decide_True by done. exists s. split; [|done].
    by apply adds_fail_unchanged; [|left].
  - rewrite !decide_False by lia.
    assert (Hok : alloc_ok s e size m).
    { split; [|by rewrite Hal]. split; [done|]. split; [|done].
      destruct (repr_inv _ _ Hr) as (cur & al & so' & mm & -> & _).
      apply lookup_build_None. intros Hin. by apply Hnew, Hused. }
    assert (Hmem' : new_mem s e size m = mem s) by (unfold new_mem; by rewrite Hal).
    assert (Hpay : new_payload s e m = e) by (unfold new_payload; by rewrite Hal).
    eexists. split; [by apply list_add_repr|].
    destruct (add_chain_split s e size m ns) as (la & lb & Hns & Hch).
    assert (Hch' : add_chain s e size m ns
      = insert_before (λ q, so (mem s) q e) (m_node m, e) ns).
    { unfold add_chain. by rewrite Hso, Hmem', Hpay. }
    cbn [conc mem lst l_alloc l_sort]. split_and!; try done.
    rewrite <-Hch'. rewrite Hch. by apply repr_after_add.
Qed.

(** X25: the program of examples/list_sort.c.  When the allocation of
    the list fails it prints an error and exits with [EXIT_FAILURE].
    Otherwise, whatever the allocator answers to the three insertions
    (failure, or an address not in use), it prints the strings whose
    insertion was served, in alphabetical order (element1, element2,
    element3), returns 0 and leaves no element allocated and the payload
    memory as it found it. *)
Theorem main_prints_sorted m0 element1 element2 element3 p m1 m2 m3 :
  list_sort.main m0 element1 element2 element3 NULL m1 m2 m3
  = Some (list_sort.mk_outcome list_sort.EXIT_FAILURE
            ["unable to create list instance"%string] ∅ m0) ∧
  (m0 !! element1 = Some (list_sort.literal "element1") →
  m0 !! element2 = Some (list_sort.literal "element2") →
  m0 !! element3 = Some (list_sort.literal "element3") →
  element1 ≠ NULL → element2 ≠ NULL → element3 ≠ NULL →
   p ≠ NULL →
   list_sort.served m0 [] (m_node m1) →
   list_sort.served m0 [m_node m1] (m_node m2) →
   list_sort.served m0 [m_node m1; m_node m2] (m_node m3) →
   list_sort.main m0 element1 element2 element3 p m1 m2 m3
  = Some (list_sort.mk_outcome 0
      ((if decide (m_node m3 = NULL) then [] else ["element1"%string]) ++
       (if decide (m_node m1 = NULL) then [] else ["element2"%string]) ++
       (if decide (m_node m2 = NULL) then [] else ["element3"%string]))
      ∅ m0)).
Proof.
  split; [done|].
  intros H1 H2 H3 He1 He2 He3 Hp Ha1 Ha2 Ha3.
  assert (S23 : list_sort.sort m0 element2 element3 = true)
    by (unfold list_sort.sort; by rewrite H2, H3).
  assert (S21 : list_sort.sort m0 element2 element1 = false)
    by (unfold list_sort.sort; by rewrite H2, H1).
  assert (S31 : list_sort.sort m0 element3 element1 = false)
    by (unfold list_sort.sort; by rewrite H3, H1).
  assert (L1 : list_sort.line_at m0 element1 = Some "element1"%string)
    by (unfold list_sort.line_at; by rewrite H1).
  assert (L2 : list_sort.line_at m0 element2 = Some "element2"%string)
    by (unfold list_sort.line_at; by rewrite H2).
  assert (L3 : list_sort.line_at m0 element3 = Some "element3"%string)
    by (unfold list_sort.line_at; by rewrite H3).
  unfold list_sort.main, list_create. rewrite decide_False by done.
  set (s0 := mk_state ∅ m0 (mk_list 0 0 0 0 false (Some list_sort.sort) 1)).
  assert (Hr0 : repr s0 []).
  { apply (list_create_repr m0 false (Some list_sort.sort) p).
    unfold list_create. by rewrite decide_False. }
  assert (Hbody : ∀ s ns lines, repr s ns → l_alloc (lst s) = false → mem s = m0 →
    Forall2 (λ q line, list_sort.line_at m0 q = Some line) ns.*2 lines →
    match (str ← list_get_head; h ← get_heap;
         list_sort.print_elements (S (size h)) str []) s with
    | Some (out, s') =>
      match list_release s' with
      | Some (h, m) => Some (list_sort.mk_outcome 0 out h m)
      | None => None
      end
    | None => None
    end = Some (list_sort.mk_outcome 0 lines ∅ m0)).
  { intros s ns lines Hr Hal <- Hl. by apply (main_body s ns). }
  unfold mbind at 1 2 3, M_bind at 1 2 3.
  destruct (list_add_served s0 [] list_sort.sort element2 list_sort.sizeof_pointer m1 []
              Hr0 eq_refl eq_refl He2 Ha1 ltac:(done))
    as (s1 & -> & Hs1 & Hmem1 & Hal1 & Hso1).
  change (mem s1 = m0) in Hmem1. rewrite <-Hmem1 in Ha2.
  eassert (Hsub1 : _ ⊆ [m_node m1]); [|
  destruct (list_add_served s1 _ list_sort.sort element3 list_sort.sizeof_pointer m2 _
              Hs1 Hal1 Hso1 He3 Ha2 Hsub1)
    as (s2 & -> & Hs2 & Hmem2 & Hal2 & Hso2)].
  { case_decide; simpl; intros x; rewrite ?elem_of_cons, ?elem_of_nil; tauto. }
  rewrite Hmem1 in Hmem2. rewrite <-Hmem2 in Ha3.
  eassert (Hsub2 : _ ⊆ [m_node m1; m_node m2]); [|
  destruct (list_add_served s2 _ list_sort.sort element1 list_sort.sizeof_pointer m3 _
              Hs2 Hal2 Hso2 He1 Ha3 Hsub2)
    as (s3 & -> & Hs3 & Hmem3 & Hal3 & Hso3)].
  { repeat case_decide; simpl; rewrite ?Hmem1, ?S23; simpl; intros x;
      rewrite ?elem_of_cons, ?elem_of_nil; tauto. }
  rewrite Hmem2 in Hmem3.
  apply (Hbody _ _ _ Hs3 Hal3 Hmem3).
  rewrite Hmem1, Hmem2.
  repeat case_decide; repeat (progress (simpl; rewrite ?S23, ?S21, ?S31));
    repeat constructor; done.
Qed.

(** * The further properties on the example lists *)

Lemma plain_xy_reachable : reachable plain_xy.
Proof.
  eapply (reach_call _ (AddTail ptr_y 8 node_2) 0).
  - eapply (reach_call _ (AddTail ptr_x 8 node_1) 0).
    + apply (reach_create ∅ false None 1024). reflexivity.
    + vm_compute. reflexivity.
  - vm_compute. reflexivity.
Qed.

Lemma plain_xy_chain : chain plain_xy = Some [(4096, ptr_x); (8192, ptr_y)].
Proof. vm_compute. reflexivity. Qed.

Lemma stack_x_reachable : reachable stack_x.
Proof.
  eapply (reach_call _ (Add ptr_x 8 node_1) 0).
  - apply (reach_create ∅ false (Some newest_first) 1024). reflexivity.
  - vm_compute. reflexivity.
Qed.

Lemma plain_xy_alloc_ok : alloc_ok plain_xy ptr_z 8 node_3.
Proof. split; [|intros Ha; by vm_compute in Ha]. by vm_compute. Qed.

Lemma owned_one_alloc_ok : alloc_ok owned_one ptr_x 2 owned_node_2.
Proof.
  split; [by vm_compute|]. intros _. split; [by vm_compute|].
  split; [by vm_compute|]. exists bytes_x. split; [by vm_compute|]. simpl. lia.
Qed.

Lemma ptr_z_not_null : ptr_z ≠ NULL.
Proof. unfold ptr_z. lia. Qed.

Lemma ptr_x_not_null : ptr_x ≠ NULL.
Proof. unfold ptr_x. lia. Qed.

Lemma add_head_prepends_witness :
  reachable plain_xy ∧ chain plain_xy = Some [(4096, ptr_x); (8192, ptr_y)] ∧
  ptr_z ≠ NULL ∧ alloc_ok plain_xy ptr_z 8 node_3 ∧
  ∃ s', list_add_head ptr_z 8 node_3 plain_xy = Some (0, s') ∧
    chain s' = Some [(12288, ptr_z); (4096, ptr_x); (8192, ptr_y)] ∧
    l_count (lst s') = l_count (lst plain_xy) + 1 ∧
    l_curr (lst s') = l_curr (lst plain_xy) ∧
    list_get_head s' = Some (ptr_z, with_curr 12288 s').
Proof.
  split_and!; [exact plain_xy_reachable|exact plain_xy_chain|exact ptr_z_not_null
              |exact plain_xy_alloc_ok|].
  apply (add_head_prepends plain_xy _ ptr_z 8 node_3 plain_xy_reachable plain_xy_chain
           ptr_z_not_null plain_xy_alloc_ok).
Defined.

Lemma add_tail_appends_witness :
  reachable plain_xy ∧ chain plain_xy = Some [(4096, ptr_x); (8192, ptr_y)] ∧
  ptr_z ≠ NULL ∧ alloc_ok plain_xy ptr_z 8 node_3 ∧
  ∃ s', list_add_tail ptr_z 8 node_3 plain_xy = Some (0, s') ∧
    chain s' = Some [(4096, ptr_x); (8192, ptr_y); (12288, ptr_z)] ∧
    l_count (lst s') = l_count (lst plain_xy) + 1 ∧
    l_curr (lst s') = l_curr (lst plain_xy) ∧
    list_get_tail s' = Some (ptr_z, with_curr 12288 s').
Proof.
  split_and!; [exact plain_xy_reachable|exact plain_xy_chain|exact ptr_z_not_null
              |exact plain_xy_alloc_ok|].
  apply (add_tail_appends plain_xy _ ptr_z 8 node_3 plain_xy_reachable plain_xy_chain
           ptr_z_not_null plain_xy_alloc_ok).
Defined.

Lemma remove_unlinks_first_match_witness :
  reachable plain_xy ∧
  chain plain_xy = Some ([(4096, ptr_x)] ++ (8192, ptr_y) :: []) ∧
  (ptr_y ∉ [(4096, ptr_x)].*2) ∧
  ∃ r s', list_remove ptr_y plain_xy = Some (r, s') ∧
    chain s' = Some [(4096, ptr_x)] ∧
    l_curr (lst s') = 4096.
Proof.
  assert (Hout : ptr_y ∉ [(4096, ptr_x)].*2).
  { simpl. rewrite not_elem_of_cons. unfold ptr_x, ptr_y.
    split; [lia|apply not_elem_of_nil]. }
  split_and!; [exact plain_xy_reachable|exact plain_xy_chain|exact Hout|].
  apply (remove_unlinks_first_match plain_xy [(4096, ptr_x)] (8192, ptr_y) []
           plain_xy_reachable plain_xy_chain Hout).
Defined.

Lemma remove_head_pops_first_witness :
  reachable plain_xy ∧ chain plain_xy = Some [(4096, ptr_x); (8192, ptr_y)] ∧
  ∃ s', list_remove_head plain_xy = Some (ptr_x, s') ∧
    chain s' = Some [(8192, ptr_y)] ∧
    l_count (lst s') = l_count (lst plain_xy) - 1 ∧
    l_curr (lst s') = 8192 ∧
    mem s' = mem plain_xy.
Proof.
  split_and!; [exact plain_xy_reachable|exact plain_xy_chain|].
  apply (remove_head_pops_first plain_xy (4096, ptr_x) [(8192, ptr_y)]
           plain_xy_reachable plain_xy_chain).
Defined.

Lemma remove_tail_pops_last_witness :
  reachable plain_xy ∧
  chain plain_xy = Some ([(4096, ptr_x)] ++ [(8192, ptr_y)]) ∧
  ∃ s', list_remove_tail plain_xy = Some (ptr_y, s') ∧
    chain s' = Some [(4096, ptr_x)] ∧
    l_count (lst s') = l_count (lst plain_xy) - 1 ∧
    l_curr (lst s') = 4096 ∧
    mem s' = mem plain_xy.
Proof.
  split_and!; [exact plain_xy_reachable|exact plain_xy_chain|].
  apply (remove_tail_pops_last plain_xy [(4096, ptr_x)] (8192, ptr_y)
           plain_xy_reachable plain_xy_chain).
Defined.

Lemma forward_iteration_witness :
  reachable plain_xy ∧ chain plain_xy = Some [(4096, ptr_x); (8192, ptr_y)] ∧
  results [GetHead; GetNext; GetNext] plain_xy = Some [ptr_x; ptr_y; NULL].
Proof.
  split_and!; [exact plain_xy_reachable|exact plain_xy_chain|].
  apply (forward_iteration plain_xy _ plain_xy_reachable plain_xy_chain).
Defined.

Lemma backward_iteration_witness :
  reachable plain_xy ∧ chain plain_xy = Some [(4096, ptr_x); (8192, ptr_y)] ∧
  results [GetTail; GetPrev; GetPrev] plain_xy = Some [ptr_y; ptr_x; NULL].
Proof.
  split_and!; [exact plain_xy_reachable|exact plain_xy_chain|].
  apply (backward_iteration plain_xy _ plain_xy_reachable plain_xy_chain).
Defined.

Lemma next_then_prev_comes_back_witness :
  reachable plain_xy ∧
  heap plain_xy !! l_curr (lst plain_xy) = Some (mk_element NULL 8192 ptr_x) ∧
  l_curr (lst plain_xy) ≠ l_last (lst plain_xy) ∧
  ∃ r s', list_get_next plain_xy = Some (r, s') ∧ r ≠ NULL ∧
    l_curr (lst s') = 8192 ∧
    list_get_prev s' = Some (ptr_x, plain_xy).
Proof.
  assert (Hx : heap plain_xy !! l_curr (lst plain_xy) = Some (mk_element NULL 8192 ptr_x))
    by (vm_compute; reflexivity).
  assert (Hl : l_curr (lst plain_xy) ≠ l_last (lst plain_xy)) by (simpl; lia).
  split_and!; [exact plain_xy_reachable|exact Hx|exact Hl|].
  apply (next_then_prev_comes_back plain_xy _ plain_xy_reachable Hx Hl).
Defined.

Lemma queries_move_only_the_cursor_witness :
  reachable plain_xy ∧ GetNext ∈ [GetCount; GetHead; GetTail; GetNext; GetPrev] ∧
  ∃ r s', run_call GetNext plain_xy = Some (r, s') ∧
    s' = with_curr (l_curr (lst s')) plain_xy ∧
    (GetNext = GetCount ∨ (l_curr (lst s') = NULL ∧ r = NULL) ∨
     ∃ x, heap plain_xy !! l_curr (lst s') = Some x ∧ r = elt_e x).
Proof.
  assert (Hc : GetNext ∈ [GetCount; GetHead; GetTail; GetNext; GetPrev]).
  { do 3 right. left. }
  split_and!; [exact plain_xy_reachable|exact Hc|].
  apply (queries_move_only_the_cursor plain_xy GetNext plain_xy_reachable Hc).
Defined.

Lemma remove_at_cursor_then_next_witness :
  reachable plain_xy ∧
  chain plain_xy = Some ([] ++ (4096, ptr_x) :: [(8192, ptr_y)]) ∧
  (ptr_x ∉ ([] : list (Z * Z)).*2) ∧
  l_curr (lst plain_xy) = 4096 ∧
  ∃ r s', list_remove ptr_x plain_xy = Some (r, s') ∧
    l_curr (lst s') = NULL ∧
    ∃ s'', list_get_next s' = Some (NULL, s'') ∧ l_curr (lst s'') = NULL.
Proof.
  assert (Hout : ptr_x ∉ ([] : list (Z * Z)).*2) by apply not_elem_of_nil.
  split_and!; [exact plain_xy_reachable|exact plain_xy_chain|exact Hout|reflexivity|].
  apply (remove_at_cursor_then_next plain_xy [] (4096, ptr_x) [(8192, ptr_y)]
           plain_xy_reachable plain_xy_chain Hout eq_refl).
Defined.

Lemma add_head_then_remove_head_witness :
  reachable owned_one ∧ ptr_x ≠ NULL ∧ alloc_ok owned_one ptr_x 2 owned_node_2 ∧
  (list_add_head ptr_x 2 owned_node_2 ≫= λ _, list_remove_head) owned_one
  = Some (copy_2,
          mk_state (heap owned_one) (<[copy_2 := bytes_x]> (mem owned_one))
            (lst owned_one)).
Proof.
  split_and!; [exact owned_one_reachable|exact ptr_x_not_null|exact owned_one_alloc_ok|].
  apply (add_head_then_remove_head owned_one ptr_x 2 owned_node_2
           owned_one_reachable ptr_x_not_null owned_one_alloc_ok).
Defined.

Lemma add_tail_then_remove_tail_witness :
  reachable plain_xy ∧ ptr_z ≠ NULL ∧ alloc_ok plain_xy ptr_z 8 node_3 ∧
  (list_add_tail ptr_z 8 node_3 ≫= λ _, list_remove_tail) plain_xy
  = Some (ptr_z, plain_xy).
Proof.
  split_and!; [exact plain_xy_reachable|exact ptr_z_not_null|exact plain_xy_alloc_ok|].
  apply (add_tail_then_remove_tail plain_xy ptr_z 8 node_3
           plain_xy_reachable ptr_z_not_null plain_xy_alloc_ok).
Defined.

Lemma add_tail_then_remove_restores_witness :
  reachable owned_one ∧ ptr_x ≠ NULL ∧ alloc_ok owned_one ptr_x 2 owned_node_2 ∧
  (copy_2 ∉ payloads owned_one) ∧
  (list_add_tail ptr_x 2 owned_node_2 ≫= λ _, list_remove copy_2) owned_one
  = Some (NULL, owned_one).
Proof.
  assert (Hnew : new_payload owned_one ptr_x owned_node_2 ∉ payloads owned_one).
  { change (copy_2 ∉ [copy_1]). rewrite not_elem_of_cons. unfold copy_1, copy_2.
    split; [lia|apply not_elem_of_nil]. }
  split_and!; [exact owned_one_reachable|exact ptr_x_not_null|exact owned_one_alloc_ok
              |exact Hnew|].
  apply (add_tail_then_remove_restores owned_one ptr_x 2 owned_node_2
           owned_one_reachable ptr_x_not_null owned_one_alloc_ok Hnew).
Defined.

Lemma owned_two_added :
  run_call (AddTail ptr_x 2 owned_node_2) owned_one = Some (0, owned_two).
Proof. vm_compute. reflexivity. Qed.

Lemma insertion_stores_copy_or_pointer_witness :
  reachable owned_one ∧
  (AddTail ptr_x 2 owned_node_2 = Add ptr_x 2 owned_node_2
   ∨ AddTail ptr_x 2 owned_node_2 = AddHead ptr_x 2 owned_node_2
   ∨ AddTail ptr_x 2 owned_node_2 = AddTail ptr_x 2 owned_node_2) ∧
  run_call (AddTail ptr_x 2 owned_node_2) owned_one = Some (0, owned_two) ∧
  (l_alloc (lst owned_one) = false →
     payloads owned_two ≡ₚ ptr_x :: payloads owned_one ∧ mem owned_two = mem owned_one) ∧
  (l_alloc (lst owned_one) = true →
     payloads owned_two ≡ₚ copy_2 :: payloads owned_one ∧
     copy_2 ≠ ptr_x ∧ mem owned_one !! copy_2 = None ∧
     ∃ src, mem owned_one !! ptr_x = Some src ∧
       mem owned_two = <[copy_2 := take (Z.to_nat 2) src]> (mem owned_one)).
Proof.
  assert (Hc : AddTail ptr_x 2 owned_node_2 = Add ptr_x 2 owned_node_2
   ∨ AddTail ptr_x 2 owned_node_2 = AddHead ptr_x 2 owned_node_2
   ∨ AddTail ptr_x 2 owned_node_2 = AddTail ptr_x 2 owned_node_2).
  { right. right. reflexivity. }
  split; [exact owned_one_reachable|]. split; [exact Hc|].
  split; [exact owned_two_added|].
  apply (insertion_stores_copy_or_pointer owned_one _ ptr_x 2 owned_node_2 owned_two
           owned_one_reachable Hc owned_two_added).
Defined.


Lemma plain_y_removed : run_call RemoveHead plain_xy = Some (ptr_x, plain_y).
Proof. vm_compute. reflexivity. Qed.

Lemma calls_keep_configuration_witness :
  reachable plain_xy ∧ run_call RemoveHead plain_xy = Some (ptr_x, plain_y) ∧
  l_alloc (lst plain_y) = l_alloc (lst plain_xy) ∧
  l_sort (lst plain_y) = l_sort (lst plain_xy) ∧
  l_sem (lst plain_xy) = 1 ∧ l_sem (lst plain_y) = 1.
Proof.
  split; [exact plain_xy_reachable|]. split; [exact plain_y_removed|].
  apply (calls_keep_configuration plain_xy RemoveHead ptr_x plain_y
           plain_xy_reachable plain_y_removed).
Defined.

Lemma calls_leave_client_memory_witness :
  reachable owned_one ∧
  run_call (AddTail ptr_x 2 owned_node_2) owned_one = Some (0, owned_two) ∧
  (l_alloc (lst owned_one) = false → mem owned_two = mem owned_one) ∧
  (∀ q, is_Some (mem owned_one !! q) → q ∉ payloads owned_one →
        mem owned_two !! q = mem owned_one !! q).
Proof.
  split; [exact owned_one_reachable|]. split; [exact owned_two_added|].
  apply (calls_leave_client_memory owned_one _ 0 owned_two
           owned_one_reachable owned_two_added).
Defined.

Lemma backward_walk_mirrors_forward_witness :
  reachable plain_xy ∧ chain plain_xy = Some [(4096, ptr_x); (8192, ptr_y)] ∧
  chain_back plain_xy = Some [(8192, ptr_y); (4096, ptr_x)].
Proof.
  split_and!; [exact plain_xy_reachable|exact plain_xy_chain|].
  apply (backward_walk_mirrors_forward plain_xy _ plain_xy_reachable plain_xy_chain).
Defined.

Lemma live_elements_are_the_chain_witness :
  reachable plain_xy ∧
  ∃ ns, chain plain_xy = Some ns ∧ NoDup ns.*1 ∧
    dom (heap plain_xy) = list_to_set ns.*1 ∧
    l_count (lst plain_xy) = Z.of_nat (length ns) ∧
    (l_curr (lst plain_xy) = NULL ∨ l_curr (lst plain_xy) ∈ ns.*1) ∧
    NULL ∉ ns.*2.
Proof.
  split; [exact plain_xy_reachable|].
  apply (live_elements_are_the_chain plain_xy plain_xy_reachable).
Defined.

Lemma null_result_means_empty_witness :
  reachable plain_xy ∧
  (∃ r s', list_get_head plain_xy = Some (r, s') ∧
     (r = NULL ↔ l_count (lst plain_xy) = 0)) ∧
  (∃ r s', list_get_tail plain_xy = Some (r, s') ∧
     (r = NULL ↔ l_count (lst plain_xy) = 0)) ∧
  (∃ r s', list_remove_head plain_xy = Some (r, s') ∧
     (r = NULL ↔ l_count (lst plain_xy) = 0)) ∧
  (∃ r s', list_remove_tail plain_xy = Some (r, s') ∧
     (r = NULL ↔ l_count (lst plain_xy) = 0)).
Proof.
  split; [exact plain_xy_reachable|].
  apply (null_result_means_empty plain_xy plain_xy_reachable).
Defined.

Lemma release_frees_every_element_witness :
  reachable owned_one ∧ chain owned_one = Some [(4096, copy_1)] ∧
  ∃ h m', list_release owned_one = Some (h, m') ∧ h = ∅ ∧
    (l_alloc (lst owned_one) = false → m' = mem owned_one) ∧
    (l_alloc (lst owned_one) = true →
       ∀ q, m' !! q = if decide (q ∈ [(4096, copy_1)].*2) then None
                      else mem owned_one !! q).
Proof.
  assert (Hch : chain owned_one = Some [(4096, copy_1)]) by (vm_compute; reflexivity).
  split; [exact owned_one_reachable|]. split; [exact Hch|].
  apply (release_frees_every_element owned_one _ owned_one_reachable Hch).
Defined.

Lemma add_with_one_sided_sort_witness :
  reachable stack_x ∧ l_sort (lst stack_x) = Some newest_first ∧
  (∀ (mm : gmap Z bytes) (q : Z), newest_first mm q ptr_y = false) ∧
  list_add ptr_y 8 node_2 stack_x = list_add_head ptr_y 8 node_2 stack_x.
Proof.
  assert (Hb : ∀ (mm : gmap Z bytes) (q : Z), newest_first mm q ptr_y = false)
    by (intros mm q; reflexivity).
  split; [exact stack_x_reachable|]. split; [reflexivity|]. split; [exact Hb|].
  apply (add_with_one_sided_sort stack_x ptr_y 8 node_2 newest_first false
           stack_x_reachable eq_refl Hb).
Defined.

Lemma sorted_strings_reachable : reachable sorted_strings.
Proof.
  eapply (reach_call _ (Add ptr_y 2 node_2) 0).
  - eapply (reach_call _ (Add ptr_x 2 node_1) 0).
    + apply (reach_create strings_bca false (Some list_sort.sort) 1024). reflexivity.
    + vm_compute. reflexivity.
  - vm_compute. reflexivity.
Qed.

Lemma sorted_strings_chain : chain sorted_strings = Some [(4096, ptr_x); (8192, ptr_y)].
Proof. vm_compute. reflexivity. Qed.

Lemma sorted_strings_alloc_ok : alloc_ok sorted_strings ptr_z 2 node_3.
Proof. split; [|intros Ha; by vm_compute in Ha]. by vm_compute. Qed.

Lemma sorted_strings_in_order :
  Sorted (in_order list_sort.sort (mem sorted_strings)) [(4096, ptr_x); (8192, ptr_y)].*2.
Proof. repeat constructor. Qed.

Lemma add_keeps_sorted_witness :
  reachable sorted_strings ∧
  chain sorted_strings = Some [(4096, ptr_x); (8192, ptr_y)] ∧
  l_sort (lst sorted_strings) = Some list_sort.sort ∧
  l_alloc (lst sorted_strings) = false ∧
  ptr_z ≠ NULL ∧ alloc_ok sorted_strings ptr_z 2 node_3 ∧
  (∀ a, a ∈ [(4096, ptr_x); (8192, ptr_y)].*2 →
     list_sort.sort (mem sorted_strings) a ptr_z = true →
     list_sort.sort (mem sorted_strings) ptr_z a = false) ∧
  Sorted (in_order list_sort.sort (mem sorted_strings))
    [(4096, ptr_x); (8192, ptr_y)].*2 ∧
  ∃ s', list_add ptr_z 2 node_3 sorted_strings = Some (0, s') ∧
    mem s' = mem sorted_strings ∧
    ptr_z ∈ payloads s' ∧
    Sorted (in_order list_sort.sort (mem s')) (payloads s').
Proof.
  assert (Hasym : ∀ a, a ∈ [(4096, ptr_x); (8192, ptr_y)].*2 →
     list_sort.sort (mem sorted_strings) a ptr_z = true →
     list_sort.sort (mem sorted_strings) ptr_z a = false).
  { intros a _. apply sort_asym. }
  split_and!; [exact sorted_strings_reachable|exact sorted_strings_chain|reflexivity
              |reflexivity|exact ptr_z_not_null|exact sorted_strings_alloc_ok
              |exact Hasym|exact sorted_strings_in_order|].
  apply (add_keeps_sorted sorted_strings _ ptr_z 2 node_3 list_sort.sort
           sorted_strings_reachable sorted_strings_chain eq_refl eq_refl ptr_z_not_null
           sorted_strings_alloc_ok Hasym sorted_strings_in_order).
Defined.


Lemma main_prints_sorted_witness :
  literals !! 256 = Some (list_sort.literal "element1") ∧
  literals !! 272 = Some (list_sort.literal "element2") ∧
  literals !! 288 = Some (list_sort.literal "element3") ∧
  256 ≠ NULL ∧ 272 ≠ NULL ∧ 288 ≠ NULL ∧ 1024 ≠ NULL ∧
  list_sort.served literals [] (m_node node_1) ∧
  list_sort.served literals [m_node node_1] (m_node (mk_mallocs NULL NULL)) ∧
  list_sort.served literals [m_node node_1; m_node (mk_mallocs NULL NULL)] (m_node node_3) ∧
  list_sort.main literals 256 272 288 1024 node_1 (mk_mallocs NULL NULL) node_3
  = Some (list_sort.mk_outcome 0 ["element1"%string; "element2"%string] ∅ literals).
Proof.
  assert (H1 : literals !! 256 = Some (list_sort.literal "element1")) by reflexivity.
  assert (H2 : literals !! 272 = Some (list_sort.literal "element2")) by reflexivity.
  assert (H3 : literals !! 288 = Some (list_sort.literal "element3")) by reflexivity.
  assert (Hs1 : list_sort.served literals [] (m_node node_1)).
  { right. split; [simpl; unfold SIZE_MAX; lia|]. split; [reflexivity|apply not_elem_of_nil]. }
  assert (Hs2 : list_sort.served literals [m_node node_1] (m_node (mk_mallocs NULL NULL))).
  { left. reflexivity. }
  assert (Hs3 : list_sort.served literals [m_node node_1; m_node (mk_mallocs NULL NULL)]
                  (m_node node_3)).
  { right. split; [simpl; unfold SIZE_MAX; lia|]. split; [reflexivity|].
    simpl. rewrite !not_elem_of_cons. split_and!; [lia|lia|apply not_elem_of_nil]. }
  split_and!; [exact H1|exact H2|exact H3|lia|lia|lia|lia|exact Hs1|exact Hs2|exact Hs3|].
  apply (main_prints_sorted literals 256 272 288 1024 node_1 (mk_mallocs NULL NULL) node_3);
    [exact H1|exact H2|exact H3|lia|lia|lia|lia|exact Hs1|exact Hs2|exact Hs3].
Defined.
